(** * Turbopack ECMAScript runtime: shared runtime utilities

    A shallow embedding of
    [crates/turbopack-ecmascript-runtime/js/src/shared/runtime-utils.ts]:
    the export helpers ([defineProp], [esm], [dynamicExport]), the
    [require.context] emulation ([requireContext]) and the asynchronous
    module coordinator adapted from webpack ([resolveQueue], [wrapDeps],
    [asyncModule] with its closures [handleAsyncDependencies], [fnQueue],
    [getResult] and [asyncResult]).

    JavaScript objects with identity (queues, continuations, the objects
    carrying the [turbopackQueues] capability, the closures of
    [asyncModule]) live in an explicit store and are named by their index;
    every function that mutates one of them takes the store and returns the
    new one. *)

From stdpp Require Import base option list sets strings.
From Stdlib Require Import ZArith NArith Ascii Sorted Lia.

Set Warnings "-register-all,-clear-no-such-hyp".

Open Scope Z_scope.
Open Scope string_scope.
Open Scope list_scope.

(** ** JavaScript values *)

(** The values the runtime inspects.  Numbers are the integral ones, with
    [VNaN] apart; [VObject] is a reference to an ordinary object, [VEmpty]
    the object literal [{}], [VError msg] the result of [new Error(msg)],
    [VAsyncModule] an object that carries the [turbopackQueues] symbol
    (an index into the store defined below).  The other objects with a
    callable [then] are [VPromise p], a thenable whose [then] stores the
    callbacks it is given and returns, calling them later if at all (a
    native promise is one), and [VThenable p now], a thenable whose
    [then] calls the callbacks it is given while it runs, once per entry
    of [now] and in that order ([(true, v)] is [onFulfilled(v)] and
    [(false, e)] is [onRejected(e)]), before it stores them and returns;
    [p] names the thenable. *)
Inductive value :=
| VUndefined
| VNull
| VBool (b : bool)
| VNum (n : Z)
| VNaN
| VStr (s : string)
| VEmpty
| VObject (ref : nat)
| VError (message : string)
| VPromise (p : nat)
| VThenable (p : nat) (now : list (bool * value))
| VAsyncModule (ext : nat).

Definition value_eq_dec_fix : forall a b : value, {a = b} + {a <> b}.
Proof.
  fix IH 1. intros a b.
  decide equality; try apply (decide (_ = _)).
  revert now now0. fix IHl 1. intros l1 l2.
  destruct l1 as [|[b1 v1] l1], l2 as [|[b2 v2] l2];
    try (right; discriminate); [left; reflexivity|].
  destruct (bool_dec b1 b2) as [->|Hb]; [|right; congruence].
  destruct (IH v1 v2) as [->|Hv]; [|right; congruence].
  destruct (IHl l1 l2) as [->|Hl]; [left; reflexivity | right; congruence].
Defined.

#[global] Instance value_eq_dec : EqDecision value := value_eq_dec_fix.

(** [ToBoolean]: what [if (v)] and [v ? a : b] test. *)
Definition truthy (v : value) : bool :=
  match v with
  | VUndefined | VNull | VNaN => false
  | VBool b => b
  | VNum n => negb (Z.eqb n 0)
  | VStr s => negb (bool_decide (s = ""))
  | VEmpty | VObject _ | VError _ | VPromise _ | VThenable _ _ | VAsyncModule _ => true
  end.

(** The outcome of a call: a value or a [throw]. *)
Inductive completion (A : Type) :=
| Return (a : A)
| Throw (e : value).
Arguments Return {A} a.
Arguments Throw {A} e.

(** ** Ordinary objects *)

Inductive PropertyKey :=
| KString (s : string)
| KSymbol (description : string).

#[global] Instance PropertyKey_eq_dec : EqDecision PropertyKey.
Proof. solve_decision. Defined.

(** A getter is a nullary function; the model runs it by applying it. *)
Definition Getter := unit -> value.

(** The [PropertyDescriptor] literals of the source give only some of the
    fields. *)
Record PropertyDescriptor := mkDescriptor {
  d_value : option value;
  d_get : option Getter;
  d_enumerable : option bool
}.

(** A property as the object stores it. *)
Inductive Property :=
| DataProperty (v : value) (writable enumerable configurable : bool)
| AccessorProperty (get : option Getter) (enumerable configurable : bool).

(** [Object.defineProperty] on a new name: absent attributes are [false],
    an absent value is [undefined], and a descriptor with [get] makes an
    accessor. *)
Definition toProperty (d : PropertyDescriptor) : Property :=
  match d_get d with
  | Some g => AccessorProperty (Some g) (default false (d_enumerable d)) false
  | None => DataProperty (default VUndefined (d_value d)) false
              (default false (d_enumerable d)) false
  end.

(** An ordinary extensible object: its own properties in the order they
    were created, and its prototype. *)
Inductive Obj :=
| mkObj (own : list (PropertyKey * Property)) (proto : option Obj).

Definition own (o : Obj) : list (PropertyKey * Property) :=
  match o with mkObj ps _ => ps end.

Definition proto (o : Obj) : option Obj :=
  match o with mkObj _ p => p end.

Fixpoint assoc {K V : Type} `{EqDecision K} (k : K) (l : list (K * V)) : option V :=
  match l with
  | [] => None
  | (k', v) :: l' => if decide (k = k') then Some v else assoc k l'
  end.

Definition getOwnProperty (o : Obj) (k : PropertyKey) : option Property :=
  assoc k (own o).

(** [const hasOwnProperty = Object.prototype.hasOwnProperty] *)
Definition hasOwnProperty (o : Obj) (k : PropertyKey) : bool :=
  match getOwnProperty o k with Some _ => true | None => false end.

(** *** The order of property keys

    [OrdinaryOwnPropertyKeys] lists the keys that are array indices first,
    in ascending numeric order, then the other strings in the order they
    were created, then the symbols in the order they were created.
    [Reflect.ownKeys], [Object.keys], [Object.getOwnPropertyNames] and
    [for ... in] all list keys in this order. *)

Definition digit (a : ascii) : option N :=
  let n := N_of_ascii a in
  if (48 <=? n)%N && (n <=? 57)%N then Some (n - 48)%N else None.

Fixpoint decimal (s : string) (acc : N) : option N :=
  match s with
  | EmptyString => Some acc
  | String a s' => d ← digit a; decimal s' (10 * acc + d)%N
  end.

(** An array index: the canonical decimal numeral (no sign, no leading
    zero) of an integer from [0] to [2^32 - 2]. *)
Definition array_index (s : string) : option N :=
  match s with
  | EmptyString => None
  | String a s' =>
      if bool_decide (a = "0"%char) && negb (bool_decide (s' = EmptyString)) then None
      else n ← decimal s 0; if (n <? 4294967295)%N then Some n else None
  end.

Inductive KeyClass :=
| IndexKey (n : N)
| NameKey
| SymbolKey.

#[global] Instance KeyClass_eq_dec : EqDecision KeyClass.
Proof. solve_decision. Defined.

Definition key_class (k : PropertyKey) : KeyClass :=
  match k with
  | KString s => match array_index s with
                 | Some n => IndexKey n
                 | None => NameKey
                 end
  | KSymbol _ => SymbolKey
  end.

Definition index_of (k : PropertyKey) : option N :=
  match key_class k with
  | IndexKey n => Some n
  | _ => None
  end.

(** Insertion sort on the numeric index. *)
Fixpoint insert_index {A : Type} (n : N) (a : A) (l : list (N * A)) : list (N * A) :=
  match l with
  | [] => [(n, a)]
  | (m, b) :: l' =>
      if (n <=? m)%N then (n, a) :: (m, b) :: l' else (m, b) :: insert_index n a l'
  end.

Definition sort_index {A : Type} (l : list (N * A)) : list (N * A) :=
  foldr (fun na sorted => insert_index na.1 na.2 sorted) [] l.

(** The entries [l], given in creation order, in the order of
    [OrdinaryOwnPropertyKeys]; [key] is the key of an entry. *)
Definition OrdinaryOwnPropertyKeys {A : Type} (key : A -> PropertyKey) (l : list A)
    : list A :=
  (sort_index (omap (fun a => (fun n => (n, a)) <$> index_of (key a)) l)).*2
  ++ filter (fun a => key_class (key a) = NameKey) l
  ++ filter (fun a => key_class (key a) = SymbolKey) l.

(** The own properties in the order every key listing uses. *)
Definition own_ordered (o : Obj) : list (PropertyKey * Property) :=
  OrdinaryOwnPropertyKeys fst (own o).


(** What [for (const key in dictionary)] enumerates for a dictionary of
    enumerable string-keyed properties without enumerable inherited
    ones, given by its entries in creation order. *)
Definition for_in {A : Type} (dictionary : list (string * A)) : list (string * A) :=
  OrdinaryOwnPropertyKeys (fun e => KString e.1) dictionary.

Definition readProperty (p : Property) : value :=
  match p with
  | DataProperty v _ _ _ => v
  | AccessorProperty (Some g) _ _ => g tt
  | AccessorProperty None _ _ => VUndefined
  end.

(** [Reflect.get]: the own property, else the prototype's. *)
Fixpoint Reflect_get (o : Obj) (k : PropertyKey) : value :=
  match o with
  | mkObj ps pr =>
      match assoc k ps with
      | Some p => readProperty p
      | None => match pr with
                | Some o' => Reflect_get o' k
                | None => VUndefined
                end
      end
  end.

(** [Object.defineProperty(obj, name, options)] where [obj] does not own
    [name], the only way [defineProp] calls it: the property is created
    after the existing ones; where a listing of the keys puts it is up to
    [OrdinaryOwnPropertyKeys]. *)
Definition Object_defineProperty (o : Obj) (name : PropertyKey)
    (options : PropertyDescriptor) : Obj :=
  mkObj (own o ++ [(name, toProperty options)]) (proto o).

(** [[
function defineProp(obj, name, options) {
  if (!hasOwnProperty.call(obj, name))
    Object.defineProperty(obj, name, options);
}
]] *)
Definition defineProp (obj : Obj) (name : PropertyKey)
    (options : PropertyDescriptor) : Obj :=
  if negb (hasOwnProperty obj name) then Object_defineProperty obj name options
  else obj.

Definition esModule_key : PropertyKey := KString "__esModule".

Definition marker_descriptor : PropertyDescriptor :=
  mkDescriptor (Some (VBool true)) None None.

Definition tag_descriptor : PropertyDescriptor :=
  mkDescriptor (Some (VStr "Module")) None None.

Definition getter_descriptor (g : Getter) : PropertyDescriptor :=
  mkDescriptor None (Some g) (Some true).

(** The body of [for (const key in getters)]. *)
Definition esm_step (exports : Obj) (entry : string * Getter) : Obj :=
  defineProp exports (KString entry.1) (getter_descriptor entry.2).

(** [[
const toStringTag = typeof Symbol !== "undefined" && Symbol.toStringTag;
]]
    [false] on a host without symbols, the well-known symbol elsewhere. *)
Definition toStringTag (hasSymbol : bool) : option PropertyKey :=
  if hasSymbol then Some (KSymbol "Symbol.toStringTag") else None.

(** [[
function esm(exports, getters) {
  defineProp(exports, "__esModule", { value: true });
  if (toStringTag) defineProp(exports, toStringTag, { value: "Module" });
  for (const key in getters) {
    defineProp(exports, key, { get: getters[key], enumerable: true });
  }
}
]]
    [getters] is given by what [for ... in] enumerates: its keys, each with
    the function [getters[key]]. *)
Definition esm_header (hasSymbol : bool) (exports : Obj) : Obj :=
  let exports := defineProp exports esModule_key marker_descriptor in
  match toStringTag hasSymbol with
  | Some tag => defineProp exports tag tag_descriptor
  | None => exports
  end.

Definition esm (hasSymbol : bool) (exports : Obj)
    (getters : list (string * Getter)) : Obj :=
  foldl esm_step (esm_header hasSymbol exports) getters.

(** The accessor [esm] installs for a getter. *)
Definition installed (g : Getter) : Property :=
  AccessorProperty (Some g) true false.

(** The function [getters[key]] reads. *)
Definition getter_of (getters : list (string * Getter)) (key : string) : option Getter :=
  assoc key getters.

(** The properties the two fixed calls of [defineProp] create. *)
Definition header_property (hasSymbol : bool) (k : PropertyKey) : option Property :=
  if decide (k = esModule_key) then Some (DataProperty (VBool true) false false false)
  else if hasSymbol && bool_decide (k = KSymbol "Symbol.toStringTag")
       then Some (DataProperty (VStr "Module") false false false)
       else None.

(** ** Module records and [dynamicExport] *)


(** What [module.namespaceObject] holds: a plain object, the [Proxy] that
    [dynamicExport] builds over [exports], or that proxy behind
    [maybeWrapAsyncModulePromise(module.exports, () => namespaceObject)]. *)
Inductive NamespaceObject :=
| NsObject (o : Obj)
| NsProxy (target : Obj)
| NsDeferred (promise : value) (target : Obj).

(** The fields of [BaseModule] these functions touch;
    [reexportedObjects] is [module[REEXPORTED_OBJECTS]]. *)
Record Module := mkModule {
  exports : value;
  namespaceObject : option NamespaceObject;
  reexportedObjects : option (list Obj)
}.










(** ** [requireContext] *)

Definition ModuleId := string.

(** [interface RequireContextEntry { id: () => ModuleId }] *)
Record RequireContextEntry := mkEntry { id : unit -> ModuleId }.

(** [type RequireContextMap = Record<ModuleId, RequireContextEntry>]: the
    object the generated code passes, given by its own properties in the
    order they were created (enumerable data properties whose values are
    entries) and by its prototype: [Object.prototype] for an object
    literal, none for [Object.create(null)]. *)
Record RequireContextMap := mkMap {
  map_entries : list (ModuleId * RequireContextEntry);
  map_proto : option Obj
}.

(** What [map[id]] reads: an entry the map owns, else what the prototype
    chain has under that name ([undefined] when it has nothing). *)
Inductive MapValue :=
| Entry (entry : RequireContextEntry)
| Inherited (v : value).

Definition inherited (map : RequireContextMap) (moduleId : ModuleId) : value :=
  match map_proto map with
  | Some p => Reflect_get p (KString moduleId)
  | None => VUndefined
  end.

Definition map_get (map : RequireContextMap) (moduleId : ModuleId) : MapValue :=
  match assoc moduleId (map_entries map) with
  | Some entry => Entry entry
  | None => Inherited (inherited map moduleId)
  end.

(** [!entry]: an entry is an object; an inherited value is tested as it
    is. *)
Definition missing (entry : MapValue) : bool :=
  match entry with
  | Entry _ => false
  | Inherited v => negb (truthy v)
  end.

Definition not_in_context (verb : string) (moduleId : ModuleId) : value :=
  VError ("module " ++ moduleId ++ " is " ++ verb
          ++ " from a require.context, but is not in the context").

Section RequireContext.

(** The module registry is outside this file: [commonJsRequireContext] is
    declared by the runtime that includes it.  [Registry] is whatever
    state instantiating a module changes.  The function is handed what
    [map[id]] read, which is an entry of the map or an inherited value. *)
Variable Registry : Type.
Variable commonJsRequireContext :
  MapValue -> Module -> Registry -> completion value * Registry.

(** [entry.id()] where [entry] is a value the map inherits: the members
    of [Object.prototype] have no [id], so for them this is a
    [TypeError]; what it is for other objects is up to those objects. *)
Variable inherited_id : value -> Registry -> completion ModuleId * Registry.

(** [interface RequireContext]: the function and its two properties. *)
Record RequireContext := mkContext {
  call : ModuleId -> Registry -> completion value * Registry;
  keys : unit -> list ModuleId;
  resolve : ModuleId -> Registry -> completion ModuleId * Registry
}.

(** [[
function requireContext(sourceModule, map) {
  function requireContext(id) {
    const entry = map[id];
    if (!entry) {
      throw new Error(
        `module ${id} is required from a require.context, but is not in the context`);
    }
    return commonJsRequireContext(entry, sourceModule);
  }
  requireContext.keys = () => Object.keys(map);
  requireContext.resolve = (id) => {
    const entry = map[id];
    if (!entry) {
      throw new Error(
        `module ${id} is resolved from a require.context, but is not in the context`);
    }
    return entry.id();
  };
  return requireContext;
}
]]
    A [ModuleId] that is a number is the property key of its decimal
    numeral, here the string.  [Object.keys(map)] lists the own keys of
    the map, which are all enumerable, in the order of
    [OrdinaryOwnPropertyKeys]. *)
Definition requireContext (sourceModule : Module) (map : RequireContextMap)
    : RequireContext :=
  {| call := fun moduleId registry =>
       let entry := map_get map moduleId in
       if missing entry
       then (Throw (not_in_context "required" moduleId), registry)
       else commonJsRequireContext entry sourceModule registry;
     keys := fun _ =>
       (OrdinaryOwnPropertyKeys (fun e => KString e.1) (map_entries map)).*1;
     resolve := fun moduleId registry =>
       let entry := map_get map moduleId in
       if missing entry
       then (Throw (not_in_context "resolved" moduleId), registry)
       else match entry with
            | Entry e => (Return (id e tt), registry)
            | Inherited v => inherited_id v registry
            end |}.

End RequireContext.

Arguments call {Registry} _ _ _.
Arguments keys {Registry} _ _.
Arguments resolve {Registry} _ _ _.

(** ** The asynchronous module coordinator *)

(** [type AsyncQueueFn = (() => void) & { queueCount: number }].  The
    function is [() => resolve(getResult)]; [currentDeps] is the array its
    [getResult] closes over, as indices into [exts]. *)
Record AsyncQueueFn := mkFn {
  queueCount : Z;
  currentDeps : list nat
}.

(** [type AsyncQueue = AsyncQueueFn[] & { resolved: boolean }]: the array
    holds references to continuations, here indices into [continuations]. *)
Record AsyncQueue := mkQueue {
  resolved : bool;
  fns : list nat
}.

(** The three functions stored under [turbopackQueues]:
    [() => {}] and [(fn) => fn(queue)] from [wrapDeps], and the one of
    [asyncModule], which reads the [queue] and [depQueues] of its scope. *)
Inductive QueuesFn :=
| QueuesNoop
| QueuesOne (queue : nat)
| QueuesOfModule (scope : nat).

(** [type AsyncModuleExt]; an absent [turbopackError] reads [undefined]. *)
Record AsyncModuleExt := mkExt {
  turbopackExports : value;
  turbopackError : value;
  turbopackQueues : QueuesFn
}.

(** The state of a promise made by [createPromise]: [Fulfilled v] after
    [resolve(v)] and [Rejected reason] after [reject(reason)].  (For a
    [v] that is itself a thenable, [resolve(v)] makes the promise follow
    [v]; [asyncModule] resolves with the exports object of the module.) *)
Inductive PromiseState :=
| Pending
| Fulfilled (v : value)
| Rejected (reason : value).

(** The variables one call of [asyncModule] declares and its closures
    share: [queue], [depQueues] (a [Set], in insertion order), [exports],
    [promise] (the index of its [AsyncModuleExt]) and the state of
    [rawPromise]. *)
Record AsyncScope := mkScope {
  queue : option nat;
  depQueues : list nat;
  scope_exports : value;
  promise : nat;
  rawPromise : PromiseState
}.

(** The store.  [thens] are the callback pairs [wrapDeps] attaches with
    [dep.then]: the thenable, the wrapper object and its queue.  [called]
    logs the calls of continuations, oldest first. *)
Record Store := mkStore {
  queues : list AsyncQueue;
  continuations : list AsyncQueueFn;
  exts : list AsyncModuleExt;
  scopes : list AsyncScope;
  thens : list (nat * nat * nat);
  called : list nat
}.

Definition empty_store : Store := mkStore [] [] [] [] [] [].

Definition with_queues (f : list AsyncQueue -> list AsyncQueue) (st : Store) : Store :=
  mkStore (f (queues st)) (continuations st) (exts st) (scopes st) (thens st) (called st).

Definition with_continuations (f : list AsyncQueueFn -> list AsyncQueueFn)
    (st : Store) : Store :=
  mkStore (queues st) (f (continuations st)) (exts st) (scopes st) (thens st) (called st).

Definition with_exts (f : list AsyncModuleExt -> list AsyncModuleExt) (st : Store) : Store :=
  mkStore (queues st) (continuations st) (f (exts st)) (scopes st) (thens st) (called st).

Definition with_scopes (f : list AsyncScope -> list AsyncScope) (st : Store) : Store :=
  mkStore (queues st) (continuations st) (exts st) (f (scopes st)) (thens st) (called st).

Definition with_thens (f : list (nat * nat * nat) -> list (nat * nat * nat))
    (st : Store) : Store :=
  mkStore (queues st) (continuations st) (exts st) (scopes st) (f (thens st)) (called st).

(** [fn()]: the continuation runs [resolve(getResult)], which settles the
    promise [handleAsyncDependencies] returned and touches nothing else. *)
Definition call_fn (fn : nat) (st : Store) : Store :=
  mkStore (queues st) (continuations st) (exts st) (scopes st) (thens st)
          (called st ++ [fn]).

(** [fn.queueCount += d] *)
Definition shift_count (d : Z) (c : AsyncQueueFn) : AsyncQueueFn :=
  mkFn (queueCount c + d) (currentDeps c).

Definition add_queueCount (fn : nat) (d : Z) (st : Store) : Store :=
  with_continuations (alter (shift_count d) fn) st.

(** The count of a continuation, [0] for an index nothing was stored at. *)
Definition count_of (st : Store) (fn : nat) : Z :=
  default 0 (queueCount <$> continuations st !! fn).

(** [(fn) => fn.queueCount--] *)
Definition decrement (st : Store) (fn : nat) : Store :=
  add_queueCount fn (-1) st.

(** [(fn) => (fn.queueCount-- ? fn.queueCount++ : fn())]: the test is on
    the value before the decrement. *)
Definition restore_or_call (st : Store) (fn : nat) : Store :=
  match continuations st !! fn with
  | None => st
  | Some c =>
      let before := queueCount c in
      let st := add_queueCount fn (-1) st in
      if negb (Z.eqb before 0) then add_queueCount fn 1 st else call_fn fn st
  end.

(** [queue.resolved = b] *)
Definition set_resolved (q : nat) (b : bool) (st : Store) : Store :=
  with_queues (alter (fun aq => mkQueue b (fns aq)) q) st.

(** The two [forEach] passes. *)
Definition decrement_pass (l : list nat) (st : Store) : Store := foldl decrement st l.
Definition call_pass (l : list nat) (st : Store) : Store := foldl restore_or_call st l.

(** [[
function resolveQueue(queue) {
  if (queue && !queue.resolved) {
    queue.resolved = true;
    queue.forEach((fn) => fn.queueCount--);
    queue.forEach((fn) => (fn.queueCount-- ? fn.queueCount++ : fn()));
  }
}
]] *)
Definition resolveQueue (queue : option nat) (st : Store) : Store :=
  match queue with
  | None => st
  | Some q =>
      match queues st !! q with
      | None => st
      | Some aq =>
          if negb (resolved aq) then
            let st := set_resolved q true st in
            let st := decrement_pass (fns aq) st in
            call_pass (fns aq) st
          else st
      end
  end.

(** The callbacks of [dep.then(...)] in [wrapDeps]:
    [(res) => { obj[turbopackExports] = res; resolveQueue(queue); }] and
    [(err) => { obj[turbopackError] = err; resolveQueue(queue); }]. *)
Definition onFulfilled (obj q : nat) (res : value) (st : Store) : Store :=
  resolveQueue (Some q)
    (with_exts (alter (fun x => mkExt res (turbopackError x) (turbopackQueues x)) obj) st).

Definition onRejected (obj q : nat) (err : value) (st : Store) : Store :=
  resolveQueue (Some q)
    (with_exts (alter (fun x => mkExt (turbopackExports x) err (turbopackQueues x)) obj) st).

(** One call of a callback made by a thenable's [then] while it runs. *)
Definition then_calls_back (obj q : nat) (st : Store) (c : bool * value) : Store :=
  if c.1 then onFulfilled obj q c.2 st else onRejected obj q c.2 st.

(** The thenable branch of [wrapDeps]: the fresh queue, the wrapper
    object, and [dep.then(onFulfilled, onRejected)], in which the
    thenable makes the calls [now] before it returns. *)
Definition wrap_thenable (p : nat) (now : list (bool * value)) (st : Store)
    : nat * Store :=
  let q := length (queues st) in
  let e := length (exts st) in
  let st := with_thens (fun l => l ++ [(p, e, q)])
              (with_exts (fun l => l ++ [mkExt VEmpty VUndefined (QueuesOne q)])
                 (with_queues (fun l => l ++ [mkQueue false []]) st)) in
  (e, foldl (then_calls_back e q) st now).

(** One element of [deps.map(...)] in [wrapDeps]: an object that has the
    [turbopackQueues] symbol is kept; a thenable gets a fresh unresolved
    queue and a wrapper whose snapshot is [{}], and its [then] is called
    with the two callbacks; anything else (also [null] and non-objects)
    gets a wrapper around itself with the no-op [turbopackQueues]. *)
Definition wrapDep (dep : value) (st : Store) : nat * Store :=
  match dep with
  | VAsyncModule e => (e, st)
  | VPromise p => wrap_thenable p [] st
  | VThenable p now => wrap_thenable p now st
  | _ =>
      (length (exts st),
       with_exts (fun l => l ++ [mkExt dep VUndefined QueuesNoop]) st)
  end.

(** [function wrapDeps(deps: Dep[]): AsyncModuleExt[]] *)
Fixpoint wrapDeps (deps : list value) (st : Store) : list nat * Store :=
  match deps with
  | [] => ([], st)
  | dep :: rest =>
      let '(e, st) := wrapDep dep st in
      let '(es, st) := wrapDeps rest st in
      (e :: es, st)
  end.

(** [[
const getResult = () =>
  currentDeps.map((d) => {
    if (d[turbopackError]) throw d[turbopackError];
    return d[turbopackExports];
  });
]]
    It reads the snapshots of the store it is called in. *)
Fixpoint getResult (st : Store) (deps : list nat) : completion (list value) :=
  match deps with
  | [] => Return []
  | d :: rest =>
      match exts st !! d with
      | None => Throw (VError "TypeError")
      | Some x =>
          if truthy (turbopackError x) then Throw (turbopackError x)
          else match getResult st rest with
               | Return vs => Return (turbopackExports x :: vs)
               | Throw e => Throw e
               end
      end
  end.

(** [depQueues.add(q)] *)
Definition add_depQueue (scope q : nat) (st : Store) : Store :=
  with_scopes
    (alter (fun s => mkScope (queue s) (depQueues s ++ [q]) (scope_exports s)
                       (promise s) (rawPromise s)) scope) st.

(** [q.push(fn)] *)
Definition push_fn (q fn : nat) (st : Store) : Store :=
  with_queues (alter (fun aq => mkQueue (resolved aq) (fns aq ++ [fn])) q) st.

(** [[
function fnQueue(q) {
  if (q !== queue && !depQueues.has(q)) {
    depQueues.add(q);
    if (q && !q.resolved) {
      fn.queueCount++;
      q.push(fn);
    }
  }
}
]]
    [scope] is the call of [asyncModule] whose [queue] and [depQueues] the
    closure reads, [fn] the continuation of this call of
    [handleAsyncDependencies]. *)
Definition fnQueue (scope fn : nat) (st : Store) (q : nat) : Store :=
  match scopes st !! scope with
  | None => st
  | Some s =>
      if negb (bool_decide (Some q = queue s)) && negb (bool_decide (q ∈ depQueues s))
      then
        let st := add_depQueue scope q st in
        match queues st !! q with
        | Some aq =>
            if negb (resolved aq)
            then push_fn q fn (add_queueCount fn 1 st)
            else st
        | None => st
        end
      else st
  end.

(** [dep[turbopackQueues](fnQueue)].  The function of an async module is
    [[
(fn) => {
  queue && fn(queue);
  depQueues.forEach(fn);
  promise["catch"](() => {});
}
]]
    over the [queue] and [depQueues] of that module's scope. *)
Definition call_turbopackQueues (scope fn : nat) (st : Store) (dep : nat) : Store :=
  match turbopackQueues <$> exts st !! dep with
  | None | Some QueuesNoop => st
  | Some (QueuesOne q) => fnQueue scope fn st q
  | Some (QueuesOfModule m) =>
      match scopes st !! m with
      | None => st
      | Some s =>
          let st := match queue s with
                    | Some q => fnQueue scope fn st q
                    | None => st
                    end in
          foldl (fnQueue scope fn) st (default [] (depQueues <$> scopes st !! m))
      end
  end.

(** What [handleAsyncDependencies] gives its caller: the promise of
    [getResult] (named by the continuation that resolves it), the array
    [getResult()] returned, or what [getResult()] threw. *)
Inductive Handled :=
| Deferred (fn : nat)
| Results (vs : list value)
| Thrown (e : value).

(** [currentDeps.map((dep) => dep[turbopackQueues](fnQueue))] *)
Definition register_queues (scope fn : nat) (deps : list nat) (st : Store) : Store :=
  foldl (call_turbopackQueues scope fn) st deps.

(** One call up to its [return]: [currentDeps], the continuation [fn] with
    [queueCount: 0], and the registrations. *)
Definition register (scope : nat) (deps : list value) (st : Store)
    : list nat * nat * Store :=
  let '(ds, st) := wrapDeps deps st in
  let fn := length (continuations st) in
  let st := with_continuations (fun l => l ++ [mkFn 0 ds]) st in
  (ds, fn, register_queues scope fn ds st).

(** [[
function handleAsyncDependencies(deps) {
  const currentDeps = wrapDeps(deps);
  const getResult = ...;
  const { promise, resolve } = createPromise();
  const fn = Object.assign(() => resolve(getResult), { queueCount: 0 });
  function fnQueue(q) { ... }
  currentDeps.map((dep) => dep[turbopackQueues](fnQueue));
  return fn.queueCount ? promise : getResult();
}
]] *)
Definition handleAsyncDependencies (scope : nat) (deps : list value) (st : Store)
    : Handled * Store :=
  let '(ds, fn, st) := register scope deps st in
  if negb (Z.eqb (count_of st fn) 0) then (Deferred fn, st)
  else match getResult st ds with
       | Return vs => (Results vs, st)
       | Throw e => (Thrown e, st)
       end.

(** What the caller of a deferred [handleAsyncDependencies] does once the
    promise has settled: it calls the [getResult] the continuation passed
    to [resolve]. *)
Definition read_results (st : Store) (fn : nat) : completion (list value) :=
  match continuations st !! fn with
  | Some c => getResult st (currentDeps c)
  | None => Throw (VError "TypeError")
  end.

(** [resolve] and [reject] of [createPromise]: only a pending promise
    changes state. *)
Definition settle (outcome : PromiseState) (p : PromiseState) : PromiseState :=
  match p with
  | Pending => outcome
  | _ => p
  end.

Definition settle_rawPromise (scope : nat) (outcome : PromiseState) (st : Store) : Store :=
  with_scopes
    (alter (fun s => mkScope (queue s) (depQueues s) (scope_exports s) (promise s)
                       (settle outcome (rawPromise s))) scope) st.

(** [promise[turbopackError] = err] *)
Definition set_turbopackError (e : nat) (err : value) (st : Store) : Store :=
  with_exts (alter (fun x => mkExt (turbopackExports x) err (turbopackQueues x)) e) st.

(** [[
function asyncResult(err) {
  if (err) {
    reject((promise[turbopackError] = err));
  } else {
    resolve(exports);
  }
  resolveQueue(queue);
}
]] *)
Definition asyncResult (scope : nat) (err : value) (st : Store) : Store :=
  match scopes st !! scope with
  | None => st
  | Some s =>
      let st :=
        if truthy err
        then settle_rawPromise scope (Rejected err) (set_turbopackError (promise s) err st)
        else settle_rawPromise scope (Fulfilled (scope_exports s)) st in
      resolveQueue (queue s) st
  end.

(** The module body: it is handed the two closures and runs until it
    returns (at its first suspension point when it is an [async] function)
    or throws. *)
Definition Body : Type :=
  (list value -> Store -> Handled * Store) ->
  (value -> Store -> Store) ->
  Store -> completion unit * Store.

(** [asyncModule] up to the call of [body]: the declarations of [queue],
    [depQueues], [exports], [promise], and [module.exports = promise]. *)
Definition asyncModule_enter (module : Module) (hasAwait : bool) (st : Store)
    : nat * Module * Store :=
  let q := if hasAwait then Some (length (queues st)) else None in
  let st := if hasAwait then with_queues (fun l => l ++ [mkQueue true []]) st else st in
  let scope := length (scopes st) in
  let p := length (exts st) in
  let st := with_exts
              (fun l => l ++ [mkExt (exports module) VUndefined (QueuesOfModule scope)]) st in
  let st := with_scopes
              (fun l => l ++ [mkScope q [] (exports module) p Pending]) st in
  (scope, mkModule (VAsyncModule p) (namespaceObject module) (reexportedObjects module), st).

(** [if (queue) { queue.resolved = false; }] *)
Definition asyncModule_leave (scope : nat) (st : Store) : Store :=
  match scopes st !! scope with
  | Some s => match queue s with
              | Some q => set_resolved q false st
              | None => st
              end
  | None => st
  end.

(** [[
function asyncModule(module, body, hasAwait) {
  const queue = hasAwait ? Object.assign([], { resolved: true }) : undefined;
  const depQueues = new Set();
  const exports = module.exports;
  const { resolve, reject, promise: rawPromise } = createPromise();
  const promise = Object.assign(rawPromise, {
    [turbopackExports]: exports,
    [turbopackQueues]: (fn) => { ... },
  });
  module.exports = promise;
  function handleAsyncDependencies(deps) { ... }
  function asyncResult(err) { ... }
  body(handleAsyncDependencies, asyncResult);
  if (queue) {
    queue.resolved = false;
  }
}
]] *)
Definition asyncModule (module : Module) (body : Body) (hasAwait : bool) (st : Store)
    : completion unit * Module * Store :=
  let '(scope, module, st) := asyncModule_enter module hasAwait st in
  match body (handleAsyncDependencies scope) (asyncResult scope) st with
  | (Return _, st) => (Return tt, module, asyncModule_leave scope st)
  | (Throw e, st) => (Throw e, module, st)
  end.

(** ** Observations used in the statements *)

(** The [resolved] flag of the self-queue of a scope, when it has one. *)
Definition self_queue_resolved (st : Store) (scope : nat) : option bool :=
  s ← scopes st !! scope;
  q ← queue s;
  resolved <$> queues st !! q.

(** The continuations in a queue, none for an index nothing is stored at. *)
Definition fns_of (st : Store) (q : nat) : list nat :=
  default [] (fns <$> queues st !! q).

(** [q && !q.resolved] *)
Definition unresolved (st : Store) (q : nat) : bool :=
  match queues st !! q with
  | Some aq => negb (resolved aq)
  | None => false
  end.

(** The stored count of [fn] is [n]. *)
Definition has_count (st : Store) (fn : nat) (n : Z) : Prop :=
  queueCount <$> continuations st !! fn = Some n.

(** How often [fn] occurs in a list of continuations. *)
Definition occurrences (fn : nat) (l : list nat) : Z :=
  Z.of_nat (length (filter (fun f => f = fn) l)).

(** How many times [fn] has been pushed, over all queues. *)
Definition registrations (st : Store) (fn : nat) : Z :=
  occurrences fn (concat (fns <$> queues st)).

(** The queues [dep[turbopackQueues]] passes to its argument, in order. *)
Definition offered (st : Store) (dep : nat) : list nat :=
  match turbopackQueues <$> exts st !! dep with
  | None | Some QueuesNoop => []
  | Some (QueuesOne q) => [q]
  | Some (QueuesOfModule m) =>
      match scopes st !! m with
      | None => []
      | Some s => option_list (queue s) ++ depQueues s
      end
  end.

(** A dependency that cannot make its consumer wait whatever it does:
    not a thenable (for which [wrapDeps] makes a fresh queue, unresolved
    until a callback of its [then] runs), and, when it carries
    [turbopackQueues], every queue it offers is resolved or is no queue
    at all. *)
Definition settled_dep (st : Store) (dep : value) : bool :=
  match dep with
  | VPromise _ | VThenable _ _ => false
  | VAsyncModule e =>
      match exts st !! e with
      | Some _ => forallb (fun q => negb (unresolved st q)) (offered st e)
      | None => false
      end
  | _ => true
  end.

(** What [getResult] reads for a dependency that is not a thenable: the
    captured error and the exports snapshot. *)
Definition dep_error (st : Store) (dep : value) : value :=
  match dep with
  | VAsyncModule e => default VUndefined (turbopackError <$> exts st !! e)
  | _ => VUndefined
  end.

Definition dep_exports (st : Store) (dep : value) : value :=
  match dep with
  | VAsyncModule e => default VUndefined (turbopackExports <$> exts st !! e)
  | _ => dep
  end.

(** [fnQueue] pushes the continuation on [q] during a call that is offered
    the queues [qs], when [s] is the scope as the call starts: [q] is
    offered, is not the self-queue, is not yet in [depQueues], and is not
    resolved. *)
Definition registers (s : AsyncScope) (st : Store) (qs : list nat) (q : nat) : bool :=
  bool_decide (q ∈ qs)
  && negb (bool_decide (Some q = queue s))
  && negb (bool_decide (q ∈ depQueues s))
  && unresolved st q.

(** [depQueues] with the queues [added] at its end. *)
Definition extend_depQueues (added : list nat) (s : AsyncScope) : AsyncScope :=
  mkScope (queue s) (depQueues s ++ added) (scope_exports s) (promise s) (rawPromise s).

(** [st1] is [st] with wrappers of plain values added by [wrapDeps]:
    new [AsyncModuleExt] objects whose [turbopackQueues] is [() => {}]. *)
Definition grown (st st1 : Store) : Prop :=
  queues st1 = queues st /\ continuations st1 = continuations st
  /\ scopes st1 = scopes st /\ thens st1 = thens st /\ called st1 = called st
  /\ exists new, exts st1 = exts st ++ new
       /\ Forall (fun x => turbopackQueues x = QueuesNoop) new.

(** The wrapper [d] holds the snapshot [getResult] reads for [dep], and
    offers only resolved queues. *)
Definition wraps (st st1 : Store) (dep : value) (d : nat) : Prop :=
  exists x, exts st1 !! d = Some x
    /\ turbopackError x = dep_error st dep
    /\ turbopackExports x = dep_exports st dep
    /\ forall q, q ∈ offered st1 d -> unresolved st1 q = false.

(** In [st1] the wrapper [d] holds the snapshot that [dep] has in [st]. *)
Definition holds (st st1 : Store) (dep : value) (d : nat) : Prop :=
  exists x, exts st1 !! d = Some x
    /\ turbopackError x = dep_error st dep
    /\ turbopackExports x = dep_exports st dep.

(** ** Concrete runs *)

(** A body that returns at once: an [async] function suspended at its
    first [await]. *)
Definition idle_body : Body := fun _ _ st => (Return tt, st).

(** A body that calls [asyncResult(err)] before it returns. *)
Definition failing_body (err : value) : Body :=
  fun _ asyncResult st => (Return tt, asyncResult err st).

Definition fresh_module : Module := mkModule VEmpty None None.

(** Module 0 has a suspension point and is still pending. *)
Definition run_pending : Store :=
  (asyncModule fresh_module idle_body true empty_store).2.

(** Module 1, without suspension point, has entered its body. *)
Definition run_consumer : Store :=
  (asyncModule_enter fresh_module false run_pending).2.

(** Module 1 has called [handleAsyncDependencies([module 0])] once. *)
Definition run_after_first : Store :=
  (handleAsyncDependencies 1 [VAsyncModule 0] run_consumer).2.

(** Module 1 in the middle of that call: the continuation exists, the
    registrations have not run. *)
Definition run_before_register : Store :=
  with_continuations (fun l => l ++ [mkFn 0 [0%nat]]) run_consumer.

(** Module 0, without suspension point, failed in its body; module 1 has
    entered its body. *)
Definition run_failed_consumer : Store :=
  (asyncModule_enter fresh_module false
     (asyncModule fresh_module (failing_body (VError "boom")) false empty_store).2).2.

(** Module 0 failed after its suspension point; module 1 has entered its
    body. *)
Definition run_late_failure : Store :=
  (asyncModule_enter fresh_module false
     (asyncResult 0 (VError "late") run_pending)).2.

Definition primary_exports : Obj :=
  mkObj [(KString "own", DataProperty (VNum 1) true true true)] None.



(** ** Further functions of the file *)

(** The [[Enumerable]] attribute. *)
Definition enumerable (p : Property) : bool :=
  match p with
  | DataProperty _ _ e _ => e
  | AccessorProperty _ e _ => e
  end.

Definition enumerable_name (kp : PropertyKey * Property) : option string :=
  match kp.1 with
  | KString s => if enumerable kp.2 then Some s else None
  | KSymbol _ => None
  end.

(** [Object.keys]: of the own keys, in the order of
    [OrdinaryOwnPropertyKeys], the strings whose property is enumerable. *)
Definition Object_keys (o : Obj) : list string := omap enumerable_name (own_ordered o).




(** The enumerable own string keys in the order they were created. *)
Definition created_keys (o : Obj) : list string := omap enumerable_name (own o).

(** The order of [OrdinaryOwnPropertyKeys] on string keys. *)
Definition key_order (names : list string) : list string :=
  OrdinaryOwnPropertyKeys KString names.

(** [Object.getOwnPropertyNames]: the own string keys, enumerable or not. *)
Definition getOwnPropertyNames (o : Obj) : list string :=
  omap (fun kp => match kp.1 with
                  | KString s => Some s
                  | KSymbol _ => None
                  end) (own_ordered o).

(** [[
function esmExport(module, exports, getters) {
  esm((module.namespaceObject = exports), getters);
}
]]
    [module.namespaceObject] is the object [esm] then fills, so the record
    holds it as [esm] leaves it; the object is returned too. *)
Definition esmExport (hasSymbol : bool) (module : Module) (exports_ : Obj)
    (getters : list (string * Getter)) : Module * Obj :=
  let o := esm hasSymbol exports_ getters in
  (mkModule (exports module) (Some (NsObject o)) (reexportedObjects module), o).

(** [[
function createGetter(obj, key) {
  return () => obj[key];
}
]] *)
Definition createGetter (obj : Obj) (key : string) : Getter :=
  fun _ => Reflect_get obj (KString key).

(** The argument [raw] of [interopEsm]: the value itself, which the
    synthesized [default] getter returns, and the object it is when
    [typeof raw] is ["object"] or ["function"] and [raw] is not [null]. *)
Record RawExports := mkRaw {
  raw_value : value;
  raw_object : option Obj
}.

(** [getters[key] = g] on the [Object.create(null)] dictionary, given by
    its entries in creation order: an existing key keeps its place and
    takes the new function. *)
Definition set_getter (getters : list (string * Getter)) (key : string) (g : Getter)
    : list (string * Getter) :=
  if bool_decide (key ∈ getters.*1)
  then (fun e => if bool_decide (e.1 = key) then (key, g) else e) <$> getters
  else getters ++ [(key, g)].

(** The loop of [interopEsm]
    [[
for (let current = raw;
     (typeof current === "object" || typeof current === "function") &&
     !LEAF_PROTOTYPES.includes(current);
     current = getProto(current)) {
  for (const key of Object.getOwnPropertyNames(current)) {
    getters[key] = createGetter(raw, key);
  }
}
]]
    from [current] on.  [LEAF_PROTOTYPES.includes] compares identities
    ([Object.prototype], [Array.prototype], [Function.prototype]), which
    the contents of an object do not carry, so the test is the argument
    [leaf]; a missing prototype is [null], the fourth leaf. *)
Fixpoint interop_loop (leaf : Obj -> bool) (raw current : Obj)
    (getters : list (string * Getter)) : list (string * Getter) :=
  if leaf current then getters
  else
    match current with
    | mkObj ps pr =>
        let getters :=
          foldl (fun gs key => set_getter gs key (createGetter raw key)) getters
                (getOwnPropertyNames (mkObj ps pr)) in
        match pr with
        | Some p => interop_loop leaf raw p getters
        | None => getters
        end
    end.

(** The names the loop visits: the own string keys of [current] and of
    its prototypes, up to the first leaf prototype. *)
Fixpoint chain_names (leaf : Obj -> bool) (current : Obj) : list string :=
  if leaf current then []
  else
    match current with
    | mkObj ps pr =>
        getOwnPropertyNames (mkObj ps pr)
        ++ match pr with
           | Some p => chain_names leaf p
           | None => []
           end
    end.

(** [[
function interopEsm(raw, ns, allowExportDefault) {
  const getters = Object.create(null);
  for (...) { ... }
  if (!(allowExportDefault && "default" in getters)) {
    getters["default"] = () => raw;
  }
  esm(ns, getters);
  return ns;
}
]] *)
Definition interop_getters (leaf : Obj -> bool) (raw : RawExports)
    (allowExportDefault : bool) : list (string * Getter) :=
  let getters := match raw_object raw with
                 | Some o => interop_loop leaf o o []
                 | None => []
                 end in
  if negb (allowExportDefault && bool_decide ("default" ∈ getters.*1))
  then set_getter getters "default" (fun _ => raw_value raw)
  else getters.

Definition interopEsm (hasSymbol : bool) (leaf : Obj -> bool) (raw : RawExports)
    (ns : Obj) (allowExportDefault : bool) : Obj :=
  esm hasSymbol ns (for_in (interop_getters leaf raw allowExportDefault)).

(** [[
function maybeWrapAsyncModulePromise(promise, then) {
  const newPromise = promise.then(then);
  if (isAsyncModuleExt(promise)) {
    Object.assign(newPromise, {
      get [turbopackExports]() { return promise[turbopackExports]; },
      get [turbopackQueues]() { return promise[turbopackQueues]; },
      get [turbopackError]() { return promise[turbopackError]; },
    });
  }
  return newPromise;
}
]]
    [Object.assign] reads each property of its source, which runs the
    three getters once, and stores the values it gets on [newPromise]:
    the new promise carries the exports object, the queues function and
    the captured error that [promise] has at the time of the call.
    [newPromise] names the promise [promise.then(then)] returns. *)
Definition maybeWrapAsyncModulePromise (promise_ : value) (newPromise : nat)
    (st : Store) : value * Store :=
  match promise_ with
  | VAsyncModule e =>
      match exts st !! e with
      | Some x =>
          (VAsyncModule (length (exts st)),
           with_exts (fun l => l ++ [mkExt (turbopackExports x) (turbopackError x)
                                           (turbopackQueues x)]) st)
      | None => (VPromise newPromise, st)
      end
  | _ => (VPromise newPromise, st)
  end.

(** A dependency that is neither a thenable nor an object with
    [turbopackQueues]. *)
Definition is_plain (dep : value) : bool :=
  match dep with
  | VPromise _ | VThenable _ _ | VAsyncModule _ => false
  | _ => true
  end.

(** A body that calls its two closures in a fixed order and returns:
    [inl deps] is a call of [handleAsyncDependencies(deps)] whose result is
    dropped, [inr err] a call of [asyncResult(err)]. *)
Definition script_step (handle : list value -> Store -> Handled * Store)
    (result : value -> Store -> Store) (st : Store) (a : list value + value) : Store :=
  match a with
  | inl deps => (handle deps st).2
  | inr err => result err st
  end.

Definition script_body (script : list (list value + value)) : Body :=
  fun handle result st => (Return tt, foldl (script_step handle result) st script).

(** What a queue adds to the count of [fn]: nothing once it is resolved,
    else the number of times it holds [fn]. *)
Definition queue_weight (fn : nat) (aq : AsyncQueue) : Z :=
  if resolved aq then 0 else occurrences fn (fns aq).

Definition pending_in (l : list AsyncQueue) (fn : nat) : Z :=
  foldr (fun aq n => queue_weight fn aq + n) 0 l.

(** The number of unresolved queues that hold [fn], each counted as often
    as it holds it. *)
Definition pending (st : Store) (fn : nat) : Z := pending_in (queues st) fn.

(** The counts are balanced: a continuation that has not been called
    counts the unresolved queues it is on; one that has been called is at
    [-1] and on no unresolved queue; none has been called twice; and the
    queues hold stored continuations only. *)
Definition balanced (st : Store) : Prop :=
  (forall f c, continuations st !! f = Some c -> f ∉ called st ->
     queueCount c = pending st f)
  /\ (forall f, f ∈ called st -> has_count st f (-1) /\ pending st f = 0)
  /\ NoDup (called st)
  /\ (forall q aq f, queues st !! q = Some aq -> f ∈ fns aq ->
        (f < length (continuations st))%nat).

(** The scope's [queue] and [depQueues] name queues of the store. *)
Definition scope_in_store (st : Store) (s : AsyncScope) : Prop :=
  (forall q, queue s = Some q -> (q < length (queues st))%nat)
  /\ (forall q, q ∈ depQueues s -> (q < length (queues st))%nat).

(** [st'] is [st] with fresh queues (empty, resolved or not), wrapper
    objects and [then] callbacks added at the ends, and nothing else
    changed. *)
Definition extends (st st' : Store) : Prop :=
  (exists nq, queues st' = queues st ++ nq
     /\ Forall (fun aq => fns aq = []) nq)
  /\ (exists nx, exts st' = exts st ++ nx)
  /\ (exists nt, thens st' = thens st ++ nt)
  /\ continuations st' = continuations st
  /\ scopes st' = scopes st
  /\ called st' = called st.

(** What the wrapper of a thenable holds once [then] has returned: the
    last value [onFulfilled] was called with, [{}] when it was not
    called; the last reason [onRejected] was called with, [undefined]
    when it was not called; and whether any callback was called, which
    is when the queue of the wrapper is resolved. *)
Definition last_fulfilled (now : list (bool * value)) : value :=
  foldl (fun (v : value) (c : bool * value) => if c.1 then c.2 else v) VEmpty now.

Definition last_rejected (now : list (bool * value)) : value :=
  foldl (fun (e : value) (c : bool * value) => if c.1 then e else c.2) VUndefined now.

Definition called_back (now : list (bool * value)) : bool :=
  match now with
  | [] => false
  | _ :: _ => true
  end.

(** The wrapper [d] of a thenable [p] whose [then] made the calls [now],
    in the store [st'] that [wrapDeps] leaves when started in [st]. *)
Definition thenable_wrapper (st st' : Store) (p : nat) (now : list (bool * value))
    (d : nat) : Prop :=
  exists q,
    exts st' !! d = Some (mkExt (last_fulfilled now) (last_rejected now) (QueuesOne q))
    /\ queues st' !! q = Some (mkQueue (called_back now) [])
    /\ (length (queues st) <= q)%nat
    /\ (length (exts st) <= d)%nat
    /\ (p, d, q) ∈ thens st'.

(** What [wrapDeps] returns for [dep], in the store [st'] it leaves when
    started in [st]: the object itself when it has [turbopackQueues]; for
    a thenable, a wrapper with a queue of its own that holds no
    continuation, with the [then] callbacks attached: when [then] did not
    call back, the snapshot is [{}], there is no error and the queue is
    unresolved; when it did, the wrapper holds what the callbacks stored
    and the queue is resolved; for anything else a wrapper around the
    value with the no-op queues function. *)
Definition wrapper_of (st st' : Store) (dep : value) (d : nat) : Prop :=
  match dep with
  | VAsyncModule e => d = e
  | VPromise p => thenable_wrapper st st' p [] d
  | VThenable p now => thenable_wrapper st st' p now d
  | v => exts st' !! d = Some (mkExt v VUndefined QueuesNoop)
         /\ (length (exts st) <= d)%nat
  end.

(** Objects for the concrete statements. *)
Definition object_prototype : Obj :=
  mkObj [(KString "toString", DataProperty (VObject 100) true false true)] None.

Definition cjs_exports : Obj :=
  mkObj [(KString "foo", DataProperty (VNum 1) true true true);
         (KString "default", DataProperty (VNum 2) true true true)]
        (Some object_prototype).

Definition is_object_prototype (o : Obj) : bool :=
  bool_decide ((own o).*1 = [KString "toString"]).

(** A [require.context] map written as an object literal, and its
    context in a runtime whose [commonJsRequireContext] loads whatever it
    is handed; the members of the prototype have no [id]. *)
Definition context_map : RequireContextMap :=
  mkMap [("./b", mkEntry (fun _ => "b.js")); ("1", mkEntry (fun _ => "one.js"))]
        (Some object_prototype).

Definition context_of_map : RequireContext unit :=
  requireContext unit (fun _ _ registry => (Return (VStr "loaded"), registry))
    (fun _ registry => (Throw (VError "TypeError: entry.id is not a function"), registry))
    fresh_module context_map.

Definition mixed_getters : list (string * Getter) :=
  [("a", fun _ => VNum 1); ("__esModule", fun _ => VNum 2); ("1", fun _ => VNum 3)].

(** * Properties *)

(** ** The order of property keys *)

Lemma insert_index_perm {A : Type} n (a : A) l : insert_index n a l ≡ₚ (n, a) :: l.
Proof.
  induction l as [|[m b] l IH]; simpl; [done|].
  destruct (n <=? m)%N; [done|]. rewrite IH. apply Permutation_swap.
Qed.

Lemma sort_index_perm {A : Type} (l : list (N * A)) : sort_index l ≡ₚ l.
Proof.
  induction l as [|[n a] l IH]; simpl; [done|].
  by rewrite insert_index_perm, IH.
Qed.

Lemma OrdinaryOwnPropertyKeys_cons {A : Type} (key : A -> PropertyKey) a l :
  OrdinaryOwnPropertyKeys key (a :: l) =
    match key_class (key a) with
    | IndexKey n =>
        (insert_index n a
           (sort_index (omap (fun a => (fun n => (n, a)) <$> index_of (key a)) l))).*2
        ++ filter (fun a => key_class (key a) = NameKey) l
        ++ filter (fun a => key_class (key a) = SymbolKey) l
    | NameKey =>
        (sort_index (omap (fun a => (fun n => (n, a)) <$> index_of (key a)) l)).*2
        ++ (a :: filter (fun a => key_class (key a) = NameKey) l)
        ++ filter (fun a => key_class (key a) = SymbolKey) l
    | SymbolKey =>
        (sort_index (omap (fun a => (fun n => (n, a)) <$> index_of (key a)) l)).*2
        ++ filter (fun a => key_class (key a) = NameKey) l
        ++ a :: filter (fun a => key_class (key a) = SymbolKey) l
    end.
Proof.
  unfold OrdinaryOwnPropertyKeys. rewrite !filter_cons. cbn [omap list_omap].
  unfold index_of at 1. by destruct (key_class (key a)) eqn:E; simpl.
Qed.

Lemma OrdinaryOwnPropertyKeys_perm {A : Type} (key : A -> PropertyKey) (l : list A) :
  OrdinaryOwnPropertyKeys key l ≡ₚ l.
Proof.
  induction l as [|a l IH]; [done|].
  rewrite OrdinaryOwnPropertyKeys_cons. unfold OrdinaryOwnPropertyKeys in IH.
  destruct (key_class (key a)).
  - rewrite insert_index_perm. simpl. by rewrite IH.
  - rewrite <- app_comm_cons, <- Permutation_middle. by rewrite IH.
  - rewrite app_assoc, <- Permutation_middle, <- app_assoc. by rewrite IH.
Qed.



Lemma OrdinaryOwnPropertyKeys_app_names {A : Type} (key : A -> PropertyKey)
    (l1 l2 : list A) :
  Forall (fun a => key_class (key a) <> SymbolKey) l1 ->
  Forall (fun a => key_class (key a) = NameKey) l2 ->
  OrdinaryOwnPropertyKeys key (l1 ++ l2) = OrdinaryOwnPropertyKeys key l1 ++ l2.
Proof.
  intros H1 H2. unfold OrdinaryOwnPropertyKeys.
  assert (E1 : omap (fun a => (fun n => (n, a)) <$> index_of (key a)) l2 = []).
  { clear H1. induction H2 as [|a l Ha _ IH]; [done|]. cbn [omap list_omap].
    unfold index_of at 1. by rewrite Ha. }
  assert (E2 : filter (fun a => key_class (key a) = NameKey) l2 = l2).
  { clear H1 E1. induction H2 as [|a l Ha _ IH]; [done|].
    rewrite filter_cons, decide_True by done. by f_equal. }
  assert (E3 : filter (fun a => key_class (key a) = SymbolKey) l2 = []).
  { clear H1 E1 E2. induction H2 as [|a l Ha _ IH]; [done|].
    rewrite filter_cons, decide_False by congruence. done. }
  assert (E4 : filter (fun a => key_class (key a) = SymbolKey) l1 = []).
  { clear H2 E1 E2 E3. induction H1 as [|a l Ha _ IH]; [done|].
    rewrite filter_cons, decide_False by done. done. }
  rewrite omap_app, !filter_app, E1, E2, E3, E4, !app_nil_r. by rewrite app_assoc.
Qed.

(** The sort is stable and its result ascends. *)
Lemma insert_index_least {A : Type} n (a : A) l :
  Forall (fun x => (n <= x.1)%N) l -> insert_index n a l = (n, a) :: l.
Proof.
  destruct l as [|[m b] l]; [done|]. intros H. apply Forall_cons in H as [H _].
  simpl in *. by rewrite (proj2 (N.leb_le n m) H).
Qed.

Lemma insert_index_ascends {A : Type} n (a : A) l :
  StronglySorted (fun x y => (x.1 <= y.1)%N) l ->
  StronglySorted (fun x y => (x.1 <= y.1)%N) (insert_index n a l).
Proof.
  induction 1 as [|[m b] l Hs IH Hall]; simpl.
  - repeat constructor.
  - destruct (n <=? m)%N eqn:E.
    + apply N.leb_le in E. constructor; [by constructor|].
      constructor; [done|]. eapply Forall_impl; [exact Hall|].
      intros x Hx. simpl in *. lia.
    + apply N.leb_gt in E. constructor; [done|].
      rewrite insert_index_perm. constructor; [simpl; lia | done].
Qed.

Lemma sort_index_ascends {A : Type} (l : list (N * A)) :
  StronglySorted (fun x y => (x.1 <= y.1)%N) (sort_index l).
Proof.
  induction l as [|[n a] l IH]; simpl; [constructor|]. by apply insert_index_ascends.
Qed.

Lemma omap_index_bound {A B : Type} (f : A -> option B) n (l : list (N * A)) :
  Forall (fun x => (n <= x.1)%N) l ->
  Forall (fun x => (n <= x.1)%N) (omap (fun x => (fun b => (x.1, b)) <$> f x.2) l).
Proof.
  induction 1 as [|[m a] l H1 _ IH]; [constructor|].
  cbn [omap list_omap]. simpl. destruct (f a); simpl; [by constructor | done].
Qed.

(** Dropping or renaming entries commutes with the sort. *)
Lemma omap_insert_index {A B : Type} (f : A -> option B) n a (l : list (N * A)) :
  StronglySorted (fun x y => (x.1 <= y.1)%N) l ->
  omap (fun x => (fun b => (x.1, b)) <$> f x.2) (insert_index n a l)
  = match f a with
    | Some b => insert_index n b (omap (fun x => (fun b => (x.1, b)) <$> f x.2) l)
    | None => omap (fun x => (fun b => (x.1, b)) <$> f x.2) l
    end.
Proof.
  induction 1 as [|[m b0] l Hs IH Hall]; simpl.
  - by destruct (f a).
  - destruct (n <=? m)%N eqn:E.
    + cbn [omap list_omap]. simpl. destruct (f a) as [b|]; simpl; [|done].
      rewrite insert_index_least; [done|]. apply N.leb_le in E.
      apply (omap_index_bound f n ((m, b0) :: l)).
      constructor; [done|]. eapply Forall_impl; [exact Hall|].
      intros x Hx. simpl in *. lia.
    + cbn [omap list_omap]. simpl. rewrite IH.
      destruct (f b0) as [b0'|]; simpl; [|done].
      destruct (f a) as [b|]; [|done]. simpl. by rewrite E.
Qed.

Lemma omap_sort_index {A B : Type} (f : A -> option B) (l : list (N * A)) :
  omap (fun x => (fun b => (x.1, b)) <$> f x.2) (sort_index l)
  = sort_index (omap (fun x => (fun b => (x.1, b)) <$> f x.2) l).
Proof.
  induction l as [|[n a] l IH]; [done|].
  cbn [sort_index foldr fst snd]. fold (sort_index l).
  rewrite omap_insert_index by apply sort_index_ascends.
  cbn [omap list_omap]. simpl. destruct (f a) as [b|]; simpl; by rewrite IH.
Qed.

Lemma omap_OrdinaryOwnPropertyKeys {A B : Type} (key : A -> PropertyKey)
    (key' : B -> PropertyKey) (f : A -> option B) (l : list A) :
  (forall a b, f a = Some b -> key' b = key a) ->
  omap f (OrdinaryOwnPropertyKeys key l) = OrdinaryOwnPropertyKeys key' (omap f l).
Proof.
  intros Hkey. unfold OrdinaryOwnPropertyKeys. rewrite !omap_app. f_equal; [|f_equal].
  - transitivity
      ((omap (fun x => (fun b => (x.1, b)) <$> f x.2)
          (sort_index (omap (fun a => (fun n => (n, a)) <$> index_of (key a)) l))).*2).
    + generalize (sort_index (omap (fun a => (fun n => (n, a)) <$> index_of (key a)) l)).
      intros s. induction s as [|[n a] s IH]; [done|].
      rewrite fmap_cons. cbn [omap list_omap]. simpl. rewrite IH.
      by destruct (f a).
    + rewrite omap_sort_index. do 2 f_equal.
      induction l as [|a l IH]; [done|]. cbn [omap list_omap].
      destruct (f a) as [b|] eqn:Hf.
      * cbn [omap list_omap]. rewrite (Hkey _ _ Hf).
        destruct (index_of (key a)) as [n|]; cbn [fmap option_fmap option_map];
          [|exact IH].
        cbn [omap list_omap fst snd]. rewrite Hf. cbn [fmap option_fmap option_map].
        by rewrite IH.
      * destruct (index_of (key a)) as [n|]; cbn [fmap option_fmap option_map];
          [|exact IH].
        cbn [omap list_omap fst snd]. rewrite Hf. exact IH.
  - induction l as [|a l IH]; [done|]. rewrite filter_cons. cbn [omap list_omap].
    destruct (f a) as [b|] eqn:Hf.
    + rewrite filter_cons, (Hkey _ _ Hf).
      destruct (decide (key_class (key a) = NameKey)); cbn [omap list_omap];
        rewrite ?Hf; by rewrite IH.
    + destruct (decide (key_class (key a) = NameKey)); cbn [omap list_omap];
        rewrite ?Hf; by rewrite IH.
  - induction l as [|a l IH]; [done|]. rewrite filter_cons. cbn [omap list_omap].
    destruct (f a) as [b|] eqn:Hf.
    + rewrite filter_cons, (Hkey _ _ Hf).
      destruct (decide (key_class (key a) = SymbolKey)); cbn [omap list_omap];
        rewrite ?Hf; by rewrite IH.
    + destruct (decide (key_class (key a) = SymbolKey)); cbn [omap list_omap];
        rewrite ?Hf; by rewrite IH.
Qed.

Lemma fmap_OrdinaryOwnPropertyKeys {A B : Type} (key : A -> PropertyKey)
    (key' : B -> PropertyKey) (g : A -> B) (l : list A) :
  (forall a, key' (g a) = key a) ->
  g <$> OrdinaryOwnPropertyKeys key l = OrdinaryOwnPropertyKeys key' (g <$> l).
Proof.
  intros Hkey.
  assert (Hmap : forall l' : list A, omap (fun a => Some (g a)) l' = g <$> l').
  { induction l' as [|a l' IH]; [done|]. cbn [omap list_omap]. by rewrite IH. }
  rewrite <- !Hmap. apply omap_OrdinaryOwnPropertyKeys. by intros a b [= <-].
Qed.

(** ** Association lists and own properties *)

Lemma assoc_app {K V : Type} `{EqDecision K} (k : K) (l1 l2 : list (K * V)) :
  assoc k (l1 ++ l2) = match assoc k l1 with Some v => Some v | None => assoc k l2 end.
Proof.
  induction l1 as [|[k' v] l1 IH]; simpl; [done|].
  by destruct (decide (k = k')).
Qed.

Lemma assoc_None_fst {K V : Type} `{EqDecision K} (k : K) (l : list (K * V)) :
  assoc k l = None <-> k ∉ l.*1.
Proof.
  induction l as [|[k' v] l IH]; simpl.
  - split; [intros _; apply not_elem_of_nil | done].
  - rewrite not_elem_of_cons. destruct (decide (k = k')); [|tauto].
    split; [done | tauto].
Qed.

Lemma assoc_Some_NoDup {K V : Type} `{EqDecision K} (k : K) (v : V) (l : list (K * V)) :
  NoDup l.*1 -> assoc k l = Some v <-> (k, v) ∈ l.
Proof.
  induction l as [|[k' v'] l IH]; intros Hnd.
  - simpl. split; [done|]. intros H'. by apply elem_of_nil in H'.
  - rewrite fmap_cons in Hnd. apply NoDup_cons in Hnd as [Hk' Hnd]. cbn [assoc].
    rewrite elem_of_cons. destruct (decide (k = k')) as [->|Hne].
    + split; [intros [= ->]; by left|]. intros [[= ->]|Hin]; [done|].
      exfalso. apply Hk'. apply list_elem_of_fmap. by exists (k', v).
    + rewrite (IH Hnd). split; [by right|]. intros [[= -> ->]|Hin]; done.
Qed.

Lemma hasOwnProperty_true o k :
  hasOwnProperty o k = true <-> is_Some (getOwnProperty o k).
Proof.
  unfold hasOwnProperty.
  destruct (getOwnProperty o k); split; intros H;
    first [done | by eexists | by destruct H].
Qed.

Lemma hasOwnProperty_false o k :
  hasOwnProperty o k = false <-> getOwnProperty o k = None.
Proof. unfold hasOwnProperty. by destruct (getOwnProperty o k). Qed.



Lemma getOwnProperty_defineProp o name d k :
  getOwnProperty (defineProp o name d) k =
    match getOwnProperty o k with
    | Some p => Some p
    | None => if decide (k = name) then Some (toProperty d) else None
    end.
Proof.
  unfold defineProp. destruct (hasOwnProperty o name) eqn:E; simpl.
  - apply hasOwnProperty_true in E as [p Hp].
    destruct (getOwnProperty o k) eqn:Hk; [done|].
    destruct (decide (k = name)) as [->|]; [congruence | done].
  - unfold getOwnProperty, Object_defineProperty; simpl.
    rewrite assoc_app. fold (getOwnProperty o k).
    destruct (getOwnProperty o k); [done|]. simpl.
    by destruct (decide (k = name)).
Qed.

Lemma defineProp_owned o name d :
  hasOwnProperty o name = true -> defineProp o name d = o.
Proof. unfold defineProp. by intros ->. Qed.

Lemma hasOwnProperty_defineProp_mono o name d k :
  hasOwnProperty o k = true -> hasOwnProperty (defineProp o name d) k = true.
Proof.
  rewrite !hasOwnProperty_true, getOwnProperty_defineProp.
  intros [p ->]. by eexists.
Qed.

Lemma hasOwnProperty_defineProp_same o name d :
  hasOwnProperty (defineProp o name d) name = true.
Proof.
  rewrite hasOwnProperty_true, getOwnProperty_defineProp.
  destruct (getOwnProperty o name); [by eexists|].
  rewrite decide_True by done. by eexists.
Qed.

(** ** [esm] *)

Lemma esm_snoc hasSymbol target pre entry :
  esm hasSymbol target (pre ++ [entry]) = esm_step (esm hasSymbol target pre) entry.
Proof. unfold esm. by rewrite foldl_app. Qed.

Lemma getOwnProperty_esm_loop o getters k :
  getOwnProperty (foldl esm_step o getters) k =
    match getOwnProperty o k with
    | Some p => Some p
    | None => match k with
              | KString key => installed <$> getter_of getters key
              | KSymbol _ => None
              end
    end.
Proof.
  revert o. induction getters as [|[key g] getters IH]; intros o; simpl.
  - destruct (getOwnProperty o k); [done|]. by destruct k.
  - rewrite IH. unfold esm_step; simpl. rewrite getOwnProperty_defineProp.
    destruct (getOwnProperty o k); [done|].
    unfold getter_of; simpl.
    destruct k as [s|s].
    + destruct (decide (KString s = KString key)) as [[= ->]|Hne].
      * by rewrite decide_True.
      * rewrite decide_False by congruence. done.
    + by rewrite decide_False.
Qed.

Lemma getOwnProperty_esm_header hasSymbol o k :
  getOwnProperty (esm_header hasSymbol o) k =
    match getOwnProperty o k with
    | Some p => Some p
    | None => header_property hasSymbol k
    end.
Proof.
  unfold esm_header, header_property, toStringTag.
  destruct hasSymbol; simpl; rewrite ?getOwnProperty_defineProp;
    destruct (getOwnProperty o k); try done;
    destruct (decide (k = esModule_key)) as [->|]; try done.
  case_bool_decide as Hk.
  - subst k. by rewrite decide_True.
  - by rewrite decide_False.
Qed.

Lemma getOwnProperty_esm hasSymbol target getters k :
  getOwnProperty (esm hasSymbol target getters) k =
    match getOwnProperty target k with
    | Some p => Some p
    | None =>
        match header_property hasSymbol k with
        | Some p => Some p
        | None => match k with
                  | KString key => installed <$> getter_of getters key
                  | KSymbol _ => None
                  end
        end
    end.
Proof.
  unfold esm. rewrite getOwnProperty_esm_loop, getOwnProperty_esm_header.
  by destruct (getOwnProperty target k).
Qed.

Lemma esm_loop_owned o getters :
  (forall key, key ∈ getters.*1 -> hasOwnProperty o (KString key) = true) ->
  foldl esm_step o getters = o.
Proof.
  revert o. induction getters as [|[key g] getters IH]; intros o Hall; simpl; [done|].
  unfold esm_step at 2; simpl. rewrite defineProp_owned.
  - apply IH. intros k Hk. apply Hall. simpl. by apply elem_of_cons; right.
  - apply Hall. simpl. by apply elem_of_cons; left.
Qed.

Lemma esm_header_owned hasSymbol o :
  hasOwnProperty o esModule_key = true ->
  (hasSymbol = true -> hasOwnProperty o (KSymbol "Symbol.toStringTag") = true) ->
  esm_header hasSymbol o = o.
Proof.
  intros Hm Ht. unfold esm_header, toStringTag.
  rewrite (defineProp_owned _ _ _ Hm).
  destruct hasSymbol; [|done]. by rewrite defineProp_owned by auto.
Qed.

Lemma esm_idempotent hasSymbol target getters :
  esm hasSymbol (esm hasSymbol target getters) getters = esm hasSymbol target getters.
Proof.
  set (o := esm hasSymbol target getters).
  assert (Hown : forall k, is_Some (getOwnProperty o k) <->
            is_Some (getOwnProperty target k) \/ is_Some (header_property hasSymbol k) \/
            exists key, k = KString key /\ is_Some (getter_of getters key)).
  { intros k. unfold o. rewrite getOwnProperty_esm.
    destruct (getOwnProperty target k) as [p|]; [by split; [left|]; eexists|].
    destruct (header_property hasSymbol k) as [p|];
      [by split; [right; left|]; eexists|].
    destruct k as [key|s].
    - rewrite fmap_is_Some. split.
      + intros H. right; right. by exists key.
      + intros [[? H]|[[? H]|(key' & [= <-] & H)]]; done.
    - split; [by intros [? ?]|].
      intros [[? H]|[[? H]|(key' & [=] & H)]]; done. }
  assert (Hh : esm_header hasSymbol o = o).
  { apply esm_header_owned.
    - apply hasOwnProperty_true, Hown. right; left.
      unfold header_property. rewrite decide_True by done. by eexists.
    - intros ->. apply hasOwnProperty_true, Hown. right; left.
      by eexists. }
  unfold esm at 1. fold o. rewrite Hh. apply esm_loop_owned.
  intros key Hkey. apply hasOwnProperty_true, Hown. right; right.
  exists key. split; [done|]. unfold getter_of.
  destruct (assoc key getters) eqn:E; [by eexists|].
  by apply assoc_None_fst in E.
Qed.

(** C7.  [esm] creates the enumerable accessor for a name of [getters]
    exactly when the target does not own a property of that name at that
    point of the loop (the marker [__esModule], stamped by the same call,
    counts as owned); every property the target owned before the call is
    still there unchanged, each own property after the call is the old
    one, else the marker or tag, else the accessor of the getter; and a
    second call with the same getters returns the target of the first. *)
Theorem esm_defines_iff_not_owned (hasSymbol : bool) (target : Obj)
    (getters : list (string * Getter)) :
  (forall pre key g post, getters = pre ++ (key, g) :: post ->
     esm hasSymbol target (pre ++ [(key, g)]) =
       if hasOwnProperty (esm hasSymbol target pre) (KString key)
       then esm hasSymbol target pre
       else Object_defineProperty (esm hasSymbol target pre) (KString key)
              (mkDescriptor None (Some g) (Some true)))
  /\ (forall k,
        getOwnProperty (esm hasSymbol target getters) k =
          match getOwnProperty target k with
          | Some p => Some p
          | None =>
              match header_property hasSymbol k with
              | Some p => Some p
              | None => match k with
                        | KString key => installed <$> getter_of getters key
                        | KSymbol _ => None
                        end
              end
          end)
  /\ (forall k p, getOwnProperty target k = Some p ->
        getOwnProperty (esm hasSymbol target getters) k = Some p)
  /\ esm hasSymbol (esm hasSymbol target getters) getters
     = esm hasSymbol target getters.
Proof.
  split; [|split; [|split]].
  - intros pre key g post _. rewrite esm_snoc. unfold esm_step, defineProp; simpl.
    by destruct (hasOwnProperty (esm hasSymbol target pre) (KString key)).
  - apply getOwnProperty_esm.
  - intros k p Hp. by rewrite getOwnProperty_esm, Hp.
  - apply esm_idempotent.
Qed.

(** ** [dynamicExport] and the namespace view *)













(** ** [requireContext] *)

Lemma requireContext_missing Registry commonJsRequireContext inherited_id sourceModule
    map key (registry : Registry) :
  key ∉ (map_entries map).*1 ->
  truthy (inherited map key) = false ->
  call (requireContext Registry commonJsRequireContext inherited_id sourceModule map)
    key registry = (Throw (not_in_context "required" key), registry)
  /\ resolve (requireContext Registry commonJsRequireContext inherited_id sourceModule map)
       key registry = (Throw (not_in_context "resolved" key), registry).
Proof.
  intros Hkey Hv. apply assoc_None_fst in Hkey.
  unfold requireContext, map_get; simpl. by rewrite Hkey; simpl; rewrite Hv.
Qed.

Lemma requireContext_entry Registry commonJsRequireContext inherited_id sourceModule
    map key entry (registry : Registry) :
  assoc key (map_entries map) = Some entry ->
  resolve (requireContext Registry commonJsRequireContext inherited_id sourceModule map)
    key registry = (Return (id entry tt), registry)
  /\ call (requireContext Registry commonJsRequireContext inherited_id sourceModule map)
       key registry = commonJsRequireContext (Entry entry) sourceModule registry.
Proof. intros Hentry. unfold requireContext, map_get; simpl. by rewrite Hentry. Qed.

Lemma requireContext_keys Registry commonJsRequireContext inherited_id sourceModule map :
  keys (requireContext Registry commonJsRequireContext inherited_id sourceModule map) tt
  = key_order (map_entries map).*1.
Proof.
  unfold requireContext, key_order; simpl.
  by apply fmap_OrdinaryOwnPropertyKeys.
Qed.


(** ** [resolveQueue] *)

Lemma shift_count_shift d1 d2 c :
  shift_count d2 (shift_count d1 c) = shift_count (d1 + d2) c.
Proof. destruct c. unfold shift_count; simpl. f_equal. lia. Qed.

Lemma shift_count_0 c : shift_count 0 c = c.
Proof. destruct c. unfold shift_count; simpl. f_equal. lia. Qed.

Lemma occurrences_nil fn : occurrences fn [] = 0.
Proof. done. Qed.

Lemma occurrences_cons fn f l :
  occurrences fn (f :: l) = (if decide (f = fn) then 1 else 0) + occurrences fn l.
Proof.
  unfold occurrences. rewrite filter_cons.
  destruct (decide (f = fn)); simpl; lia.
Qed.

Lemma occurrences_app fn l1 l2 :
  occurrences fn (l1 ++ l2) = occurrences fn l1 + occurrences fn l2.
Proof. unfold occurrences. rewrite filter_app, length_app. lia. Qed.

Lemma occurrences_nonneg fn l : 0 <= occurrences fn l.
Proof. unfold occurrences. lia. Qed.

Lemma occurrences_pos fn l : fn ∈ l -> 0 < occurrences fn l.
Proof.
  induction l as [|f l IH]; intros Hin; [by apply elem_of_nil in Hin|].
  rewrite occurrences_cons. pose proof (occurrences_nonneg fn l).
  apply elem_of_cons in Hin as [->|Hin].
  - rewrite decide_True by done. lia.
  - specialize (IH Hin). destruct (decide (f = fn)); lia.
Qed.

Lemma occurrences_0 fn l : fn ∉ l -> occurrences fn l = 0.
Proof.
  induction l as [|f l IH]; intros Hin; [done|].
  rewrite occurrences_cons. apply not_elem_of_cons in Hin as [Hne Hin].
  rewrite decide_False by done. rewrite IH by done. lia.
Qed.

(** The first pass touches the counts only: each one drops by the number
    of times the continuation is in the queue. *)
Lemma decrement_pass_spec l st :
  decrement_pass l st =
    with_continuations (imap (fun f c => shift_count (- occurrences f l) c)) st.
Proof.
  revert st. induction l as [|f1 l IH]; intros st.
  - unfold decrement_pass; simpl. destruct st; unfold with_continuations; simpl.
    f_equal. apply list_eq. intros i. rewrite list_lookup_imap.
    destruct (continuations0 !! i) as [c|]; simpl; [|done].
    by rewrite shift_count_0.
  - unfold decrement_pass in *. simpl. rewrite IH.
    destruct st; unfold decrement, add_queueCount, with_continuations; simpl.
    f_equal. apply list_eq. intros i. rewrite !list_lookup_imap.
    rewrite occurrences_cons.
    destruct (decide (f1 = i)) as [->|Hne].
    + rewrite list_lookup_alter_eq.
      destruct (continuations0 !! i) as [c|]; simpl; [|done].
      rewrite shift_count_shift. do 2 f_equal; lia.
    + rewrite list_lookup_alter_ne by done.
      destruct (continuations0 !! i) as [c|]; simpl; [|done].
      do 2 f_equal; lia.
Qed.

Lemma restore_or_call_keep st fn :
  ~ has_count st fn 0 -> restore_or_call st fn = st.
Proof.
  unfold has_count, restore_or_call. intros Hz.
  destruct (continuations st !! fn) as [c|] eqn:E; [|done]. simpl in Hz.
  destruct (Z.eqb_spec (queueCount c) 0) as [H0|H0]; [by rewrite H0 in Hz|]. simpl.
  destruct st; unfold add_queueCount, with_continuations; simpl. f_equal.
  apply list_eq. intros i. destruct (decide (fn = i)) as [->|Hne].
  - rewrite !list_lookup_alter_eq. simpl in E. rewrite E. simpl.
    by rewrite shift_count_shift, shift_count_0.
  - by rewrite !list_lookup_alter_ne.
Qed.

Lemma restore_or_call_fire st fn :
  has_count st fn 0 -> restore_or_call st fn = call_fn fn (add_queueCount fn (-1) st).
Proof.
  unfold has_count, restore_or_call. intros Hz.
  destruct (continuations st !! fn) as [c|] eqn:E; [|done]. simpl in Hz.
  injection Hz as ->. done.
Qed.

(** The second pass calls, once each and in queue order, the continuations
    of the queue whose count is zero when the pass starts, leaves them at
    [-1], and changes nothing else. *)
Lemma call_pass_spec l st :
  exists new,
    call_pass l st =
      mkStore (queues st)
        (imap (fun f c => shift_count (if bool_decide (f ∈ new) then -1 else 0) c)
              (continuations st))
        (exts st) (scopes st) (thens st) (called st ++ new)
    /\ NoDup new /\ new `sublist_of` l
    /\ forall f, f ∈ new <-> f ∈ l /\ has_count st f 0.
Proof.
  revert st. induction l as [|f1 l IH]; intros st.
  - exists []. split; [|split; [constructor|split; [done|]]].
    + unfold call_pass; simpl. destruct st; simpl. rewrite app_nil_r. f_equal.
      apply list_eq. intros i. rewrite list_lookup_imap.
      destruct (continuations0 !! i) as [c|]; simpl; [|done].
      by rewrite shift_count_0.
    + intros f. split; intros H; [by apply elem_of_nil in H|].
      destruct H as [H _]. by apply elem_of_nil in H.
  - unfold call_pass in *. simpl.
    destruct (decide (queueCount <$> continuations st !! f1 = Some 0)) as [Hz|Hz];
      fold (has_count st f1 0) in Hz.
    + rewrite (restore_or_call_fire _ _ Hz).
      destruct (IH (call_fn f1 (add_queueCount f1 (-1) st))) as (new & -> & Hnd & Hsub & Hin).
      assert (Hf1 : f1 ∉ new).
      { intros H. apply Hin in H as [_ H]. unfold has_count in *. simpl in H.
        rewrite list_lookup_alter_eq in H.
        destruct (continuations st !! f1) as [c|]; simpl in *; [|done].
        injection Hz as Hz. injection H as H. lia. }
      exists (f1 :: new). split; [|split; [by constructor|split; [by apply sublist_skip|]]].
      * simpl. rewrite <- app_assoc. simpl. f_equal.
        apply list_eq. intros i. rewrite !list_lookup_imap.
        destruct (decide (f1 = i)) as [<-|Hne].
        -- rewrite list_lookup_alter_eq.
           destruct (continuations st !! f1) as [c|]; simpl; [|done].
           rewrite (bool_decide_eq_false_2 _ Hf1).
           rewrite bool_decide_eq_true_2 by (apply elem_of_cons; by left).
           by rewrite shift_count_shift.
        -- rewrite list_lookup_alter_ne by done.
           destruct (continuations st !! i) as [c|]; simpl; [|done].
           assert (Hb : bool_decide (i ∈ f1 :: new) = bool_decide (i ∈ new))
             by (apply bool_decide_ext; rewrite elem_of_cons; naive_solver).
           by rewrite Hb.
      * intros f. rewrite !elem_of_cons, Hin. unfold has_count. simpl.
        destruct (decide (f = f1)) as [->|Hne].
        -- split; [intros _; split; [by left | done] | by left].
        -- rewrite list_lookup_alter_ne by done. naive_solver.
    + rewrite (restore_or_call_keep _ _ Hz).
      destruct (IH st) as (new & -> & Hnd & Hsub & Hin).
      exists new. split; [done|]. split; [done|]. split; [by apply sublist_cons|].
      intros f. rewrite Hin, elem_of_cons. split; [naive_solver|].
      intros [[->|H] H0]; [done | by split].
Qed.

Lemma resolveQueue_spec q aq st :
  queues st !! q = Some aq -> resolved aq = false ->
  exists new,
    resolveQueue (Some q) st =
      mkStore (alter (fun a => mkQueue true (fns a)) q (queues st))
        (imap (fun f c =>
                 shift_count (- occurrences f (fns aq)
                              - (if bool_decide (f ∈ new) then 1 else 0)) c)
              (continuations st))
        (exts st) (scopes st) (thens st) (called st ++ new)
    /\ NoDup new /\ new `sublist_of` fns aq
    /\ forall f, f ∈ new <-> f ∈ fns aq /\ has_count st f (occurrences f (fns aq)).
Proof.
  intros Hq Hres. unfold resolveQueue. rewrite Hq, Hres. simpl.
  rewrite decrement_pass_spec.
  destruct (call_pass_spec (fns aq)
    (with_continuations
       (imap (fun f c => shift_count (- occurrences f (fns aq)) c))
       (set_resolved q true st))) as (new & -> & Hnd & Hsub & Hin).
  exists new. split; [|split; [done|split; [done|]]].
  - simpl. f_equal. apply list_eq. intros i. rewrite !list_lookup_imap.
    destruct (continuations st !! i) as [c|]; simpl; [|done].
    rewrite shift_count_shift. do 2 f_equal. destruct (bool_decide (i ∈ new)); lia.
  - intros f. rewrite Hin. unfold has_count. simpl. rewrite list_lookup_imap.
    destruct (continuations st !! f) as [c|]; simpl; [|naive_solver].
    split; intros [H1 H2]; (split; [done|]); injection H2 as H2; f_equal; lia.
Qed.

Lemma resolveQueue_resolved q aq st :
  queues st !! q = Some aq -> resolved aq = true -> resolveQueue (Some q) st = st.
Proof. intros Hq Hres. unfold resolveQueue. by rewrite Hq, Hres. Qed.

Lemma resolveQueue_flag q st :
  is_Some (queues st !! q) ->
  resolved <$> queues (resolveQueue (Some q) st) !! q = Some true.
Proof.
  intros [aq Hq]. destruct (resolved aq) eqn:Hres.
  - rewrite (resolveQueue_resolved _ _ _ Hq Hres), Hq. simpl. by rewrite Hres.
  - destruct (resolveQueue_spec _ _ _ Hq Hres) as (new & -> & _). simpl.
    by rewrite list_lookup_alter_eq, Hq.
Qed.

Lemma resolveQueue_idempotent queue st :
  resolveQueue queue (resolveQueue queue st) = resolveQueue queue st.
Proof.
  destruct queue as [q|]; [|done].
  destruct (queues st !! q) as [aq|] eqn:Hq.
  - pose proof (resolveQueue_flag q st (mk_is_Some _ _ Hq)) as Hflag.
    destruct (queues (resolveQueue (Some q) st) !! q) as [aq'|] eqn:Hq'; [|done].
    simpl in Hflag. injection Hflag as Hflag.
    by apply (resolveQueue_resolved _ _ _ Hq' Hflag).
  - unfold resolveQueue. rewrite Hq. by rewrite Hq.
Qed.

(** The two passes read and write the queues, the counts and the log of
    calls only. *)
Lemma call_pass_with_exts g l st :
  call_pass l (with_exts g st) = with_exts g (call_pass l st).
Proof.
  unfold call_pass. revert st. induction l as [|f l IH]; intros st; simpl; [done|].
  rewrite <- IH. f_equal. unfold restore_or_call. simpl.
  destruct (continuations st !! f) as [c|]; [|done].
  by destruct (negb (Z.eqb (queueCount c) 0)).
Qed.

Lemma call_pass_with_scopes g l st :
  call_pass l (with_scopes g st) = with_scopes g (call_pass l st).
Proof.
  unfold call_pass. revert st. induction l as [|f l IH]; intros st; simpl; [done|].
  rewrite <- IH. f_equal. unfold restore_or_call. simpl.
  destruct (continuations st !! f) as [c|]; [|done].
  by destruct (negb (Z.eqb (queueCount c) 0)).
Qed.

Lemma resolveQueue_with_exts g queue st :
  resolveQueue queue (with_exts g st) = with_exts g (resolveQueue queue st).
Proof.
  destruct queue as [q|]; [|done]. unfold resolveQueue. simpl.
  destruct (queues st !! q) as [aq|]; [|done].
  destruct (resolved aq); simpl; [done|].
  rewrite !decrement_pass_spec. by rewrite <- call_pass_with_exts.
Qed.

Lemma resolveQueue_with_scopes g queue st :
  resolveQueue queue (with_scopes g st) = with_scopes g (resolveQueue queue st).
Proof.
  destruct queue as [q|]; [|done]. unfold resolveQueue. simpl.
  destruct (queues st !! q) as [aq|]; [|done].
  destruct (resolved aq); simpl; [done|].
  rewrite !decrement_pass_spec. by rewrite <- call_pass_with_scopes.
Qed.

Lemma resolveQueue_exts queue st : exts (resolveQueue queue st) = exts st.
Proof.
  destruct queue as [q|]; [|done].
  destruct (queues st !! q) as [aq|] eqn:Hq; [|by unfold resolveQueue; rewrite Hq].
  destruct (resolved aq) eqn:Hres.
  - by rewrite (resolveQueue_resolved _ _ _ Hq Hres).
  - by destruct (resolveQueue_spec _ _ _ Hq Hres) as (new & -> & _).
Qed.

Lemma resolveQueue_scopes queue st : scopes (resolveQueue queue st) = scopes st.
Proof.
  destruct queue as [q|]; [|done].
  destruct (queues st !! q) as [aq|] eqn:Hq; [|by unfold resolveQueue; rewrite Hq].
  destruct (resolved aq) eqn:Hres.
  - by rewrite (resolveQueue_resolved _ _ _ Hq Hres).
  - by destruct (resolveQueue_spec _ _ _ Hq Hres) as (new & -> & _).
Qed.

(** C1.  On a queue that is not yet resolved, [resolveQueue] first sets
    the flag, then lowers the count of every continuation of the queue by
    the number of times it is in the queue, calling none of them during
    that pass, and only then calls, once each and in queue order, exactly
    the continuations of the queue whose count is zero after all the
    decrements; the queue is resolved afterwards and a second call on it
    returns the store unchanged, so no continuation is called again. *)
Theorem resolveQueue_two_phase (q : nat) (aq : AsyncQueue) (st : Store) :
  queues st !! q = Some aq ->
  resolved aq = false ->
  let marked := set_resolved q true st in
  let decremented := decrement_pass (fns aq) marked in
  resolved <$> queues marked !! q = Some true
  /\ called decremented = called st
  /\ (forall f c, continuations st !! f = Some c ->
        has_count decremented f (queueCount c - occurrences f (fns aq)))
  /\ resolveQueue (Some q) st = call_pass (fns aq) decremented
  /\ (exists new,
        called (resolveQueue (Some q) st) = called st ++ new
        /\ NoDup new /\ new `sublist_of` fns aq
        /\ forall f, f ∈ new <-> f ∈ fns aq /\ has_count decremented f 0)
  /\ resolved <$> queues (resolveQueue (Some q) st) !! q = Some true
  /\ resolveQueue (Some q) (resolveQueue (Some q) st) = resolveQueue (Some q) st.
Proof.
  intros Hq Hres marked decremented.
  split; [|split; [|split; [|split; [|split; [|split]]]]].
  - unfold marked. simpl. by rewrite list_lookup_alter_eq, Hq.
  - unfold decremented. by rewrite decrement_pass_spec.
  - intros f c Hc. unfold decremented, has_count. rewrite decrement_pass_spec. simpl.
    rewrite list_lookup_imap, Hc. simpl. f_equal; lia.
  - unfold resolveQueue. by rewrite Hq, Hres.
  - destruct (resolveQueue_spec _ _ _ Hq Hres) as (new & -> & Hnd & Hsub & Hin).
    exists new. split; [done|]. split; [done|]. split; [done|].
    intros f. rewrite Hin. unfold decremented, has_count.
    rewrite decrement_pass_spec. simpl. rewrite list_lookup_imap.
    destruct (continuations st !! f) as [c|]; simpl; [|naive_solver].
    split; intros [H1 H2]; (split; [done|]); injection H2 as H2; f_equal; lia.
  - apply resolveQueue_flag. by eexists.
  - apply resolveQueue_idempotent.
Qed.

(** ** [asyncResult] *)

Lemma asyncResult_truthy scope s err st :
  scopes st !! scope = Some s -> truthy err = true ->
  asyncResult scope err st =
    settle_rawPromise scope (Rejected err)
      (set_turbopackError (promise s) err (resolveQueue (queue s) st)).
Proof.
  intros Hs Herr. unfold asyncResult. rewrite Hs, Herr.
  unfold settle_rawPromise, set_turbopackError.
  by rewrite resolveQueue_with_scopes, resolveQueue_with_exts.
Qed.

Lemma asyncResult_falsy scope s err st :
  scopes st !! scope = Some s -> truthy err = false ->
  asyncResult scope err st =
    settle_rawPromise scope (Fulfilled (scope_exports s)) (resolveQueue (queue s) st).
Proof.
  intros Hs Herr. unfold asyncResult. rewrite Hs, Herr.
  unfold settle_rawPromise. by rewrite resolveQueue_with_scopes.
Qed.

Lemma getResult_throw st pre d post x :
  Forall (fun d' => exists x', exts st !! d' = Some x' /\ truthy (turbopackError x') = false) pre ->
  exts st !! d = Some x ->
  truthy (turbopackError x) = true ->
  getResult st (pre ++ d :: post) = Throw (turbopackError x).
Proof.
  intros Hpre Hd Hx. induction Hpre as [|d' pre (x' & Hd' & Hx') _ IH]; simpl.
  - by rewrite Hd, Hx.
  - by rewrite Hd', Hx', IH.
Qed.

Lemma getResult_return st deps :
  Forall (fun d => exists x, exts st !! d = Some x /\ truthy (turbopackError x) = false) deps ->
  getResult st deps =
    Return (omap (fun d => turbopackExports <$> exts st !! d) deps).
Proof.
  induction 1 as [|d deps (x & Hd & Hx) _ IH]; simpl; [done|].
  by rewrite Hd, Hx, IH.
Qed.

(** C5.  Called with an error (a value that passes [if (err)]),
    [asyncResult] rejects the module's promise with it (a pending promise
    becomes rejected with this very error; one that has settled before
    keeps its state, as [reject] does nothing then), stores it as the
    captured error of the promise, and resolves the self-queue exactly as
    [resolveQueue] does on the store it was called in: the flag is set,
    and when the queue was not resolved the count of each continuation in
    it drops and those that reach zero are called.  The call itself
    completes; the error comes back, unchanged, from [getResult] over a
    dependency list that holds this module. *)
Theorem asyncResult_error_unblocks (scope : nat) (s : AsyncScope) (x : AsyncModuleExt)
    (err : value) (st : Store) :
  scopes st !! scope = Some s ->
  exts st !! promise s = Some x ->
  truthy err = true ->
  let st' := asyncResult scope err st in
  (rawPromise s = Pending -> rawPromise <$> scopes st' !! scope = Some (Rejected err))
  /\ (rawPromise s <> Pending -> rawPromise <$> scopes st' !! scope = Some (rawPromise s))
  /\ turbopackError <$> exts st' !! promise s = Some err
  /\ (queues st' = queues (resolveQueue (queue s) st)
      /\ continuations st' = continuations (resolveQueue (queue s) st)
      /\ called st' = called (resolveQueue (queue s) st))
  /\ (forall q, queue s = Some q -> is_Some (queues st !! q) ->
        resolved <$> queues st' !! q = Some true)
  /\ (forall q aq, queue s = Some q -> queues st !! q = Some aq -> resolved aq = false ->
        exists new,
          called st' = called st ++ new /\ NoDup new
          /\ (forall f, f ∈ new <->
                f ∈ fns aq /\ has_count st f (occurrences f (fns aq)))
          /\ forall f c, continuations st !! f = Some c ->
               has_count st' f
                 (queueCount c - occurrences f (fns aq)
                  - (if bool_decide (f ∈ new) then 1 else 0)))
  /\ getResult st' [promise s] = Throw err.
Proof.
  intros Hs Hx Herr st'. unfold st'. rewrite (asyncResult_truthy _ _ _ _ Hs Herr).
  split; [|split; [|split; [|split; [|split; [|split]]]]].
  - intros Hp. simpl. rewrite resolveQueue_scopes, list_lookup_alter_eq, Hs. simpl.
    by rewrite Hp.
  - intros Hp. simpl. rewrite resolveQueue_scopes, list_lookup_alter_eq, Hs. simpl.
    by destruct (rawPromise s).
  - simpl. rewrite resolveQueue_exts, list_lookup_alter_eq, Hx. done.
  - done.
  - intros q Hq Hin. simpl. rewrite Hq. by apply resolveQueue_flag.
  - intros q aq Hq Haq Hres. simpl. rewrite Hq.
    destruct (resolveQueue_spec _ _ _ Haq Hres) as (new & -> & Hnd & _ & Hin).
    exists new. split; [done|]. split; [done|]. split; [done|].
    intros f c Hc. unfold has_count. simpl. rewrite list_lookup_imap, Hc.
    simpl. f_equal; lia.
  - simpl. rewrite resolveQueue_exts, list_lookup_alter_eq, Hx. simpl. by rewrite Herr.
Qed.


(** ** [asyncModule] *)

Lemma asyncModule_enter_hasAwait module st :
  asyncModule_enter module true st =
    (length (scopes st),
     mkModule (VAsyncModule (length (exts st))) (namespaceObject module)
       (reexportedObjects module),
     mkStore (queues st ++ [mkQueue true []]) (continuations st)
       (exts st ++ [mkExt (exports module) VUndefined (QueuesOfModule (length (scopes st)))])
       (scopes st ++ [mkScope (Some (length (queues st))) [] (exports module)
                        (length (exts st)) Pending])
       (thens st) (called st)).
Proof. done. Qed.

(** C2, as the code has it.  With [hasAwait], the self-queue is created
    resolved and is still resolved in the store the body is called in;
    [queue.resolved = false] runs after the body has returned, so the
    queue is unresolved once [asyncModule] returns, and is not touched
    when the body throws. *)
Theorem asyncModule_flips_after_body (module : Module) (body : Body) (st : Store)
    (scope : nat) (module' : Module) (entered : Store) :
  asyncModule_enter module true st = (scope, module', entered) ->
  self_queue_resolved entered scope = Some true
  /\ (forall after,
        body (handleAsyncDependencies scope) (asyncResult scope) entered
          = (Return tt, after) ->
        asyncModule module body true st
          = (Return tt, module', asyncModule_leave scope after)
        /\ forall q, queue <$> scopes after !! scope = Some (Some q) ->
             is_Some (queues after !! q) ->
             self_queue_resolved (asyncModule_leave scope after) scope = Some false)
  /\ (forall e after,
        body (handleAsyncDependencies scope) (asyncResult scope) entered
          = (Throw e, after) ->
        asyncModule module body true st = (Throw e, module', after)).
Proof.
  intros Henter. split; [|split].
  - rewrite asyncModule_enter_hasAwait in Henter. injection Henter as <- <- <-.
    unfold self_queue_resolved. simpl.
    rewrite lookup_app_r by lia. rewrite Nat.sub_diag. simpl.
    rewrite lookup_app_r by lia. by rewrite Nat.sub_diag.
  - intros after Hbody. unfold asyncModule. rewrite Henter, Hbody. split; [done|].
    intros q Hq [aq Haq]. unfold self_queue_resolved, asyncModule_leave.
    destruct (scopes after !! scope) as [s|] eqn:Hs; [|done].
    simpl in Hq. injection Hq as Hq. rewrite Hq. simpl. rewrite Hs. simpl.
    rewrite Hq. simpl. by rewrite list_lookup_alter_eq, Haq.
  - intros e after Hbody. unfold asyncModule. by rewrite Henter, Hbody.
Qed.

(** ** [fnQueue] and the registrations of [handleAsyncDependencies] *)

Lemma unresolved_true st q :
  unresolved st q = true <-> exists aq, queues st !! q = Some aq /\ resolved aq = false.
Proof.
  unfold unresolved. destruct (queues st !! q) as [aq|].
  - split.
    + intros H. exists aq. split; [done|]. by destruct (resolved aq).
    + intros (aq' & Heq & Hr). injection Heq as <-. by rewrite Hr.
  - split; [done|]. intros (aq' & H & _). done.
Qed.

Lemma registers_true s st qs q :
  registers s st qs q = true <->
    q ∈ qs /\ Some q <> queue s /\ (q ∉ depQueues s) /\ unresolved st q = true.
Proof.
  unfold registers. rewrite !andb_true_iff, !negb_true_iff.
  rewrite bool_decide_eq_true, !bool_decide_eq_false. tauto.
Qed.

Lemma fnQueue_skip scope fn st q s :
  scopes st !! scope = Some s ->
  Some q = queue s \/ q ∈ depQueues s ->
  fnQueue scope fn st q = st.
Proof.
  intros Hs Hskip. unfold fnQueue. rewrite Hs.
  destruct Hskip as [H|H].
  - by rewrite (bool_decide_eq_true_2 _ H).
  - rewrite (bool_decide_eq_true_2 _ H). by rewrite andb_false_r.
Qed.

Lemma fnQueue_no_scope scope fn st q :
  scopes st !! scope = None -> fnQueue scope fn st q = st.
Proof. intros Hs. unfold fnQueue. by rewrite Hs. Qed.

Lemma fnQueue_seen scope fn st q s :
  scopes st !! scope = Some s ->
  Some q <> queue s -> q ∉ depQueues s ->
  unresolved st q = false ->
  fnQueue scope fn st q = add_depQueue scope q st.
Proof.
  intros Hs H1 H2 Hu. unfold fnQueue. rewrite Hs.
  rewrite (bool_decide_eq_false_2 _ H1), (bool_decide_eq_false_2 _ H2). simpl.
  unfold unresolved in Hu. destruct (queues st !! q) as [aq|]; [|done].
  by destruct (resolved aq).
Qed.

Lemma fnQueue_push scope fn st q s :
  scopes st !! scope = Some s ->
  Some q <> queue s -> q ∉ depQueues s ->
  unresolved st q = true ->
  fnQueue scope fn st q = push_fn q fn (add_queueCount fn 1 (add_depQueue scope q st)).
Proof.
  intros Hs H1 H2 Hu. unfold fnQueue. rewrite Hs.
  rewrite (bool_decide_eq_false_2 _ H1), (bool_decide_eq_false_2 _ H2). simpl.
  unfold unresolved in Hu. destruct (queues st !! q) as [aq|]; [|done].
  by destruct (resolved aq).
Qed.

Lemma occurrences_concat_alter fn (g : AsyncQueue -> AsyncQueue) l q aq :
  l !! q = Some aq ->
  occurrences fn (concat (fns <$> alter g q l)) =
    occurrences fn (concat (fns <$> l)) - occurrences fn (fns aq)
    + occurrences fn (fns (g aq)).
Proof.
  revert q. induction l as [|a l IH]; intros q Hq; [done|].
  destruct q as [|q].
  - change (alter g 0%nat (a :: l)) with (g a :: l).
    rewrite !fmap_cons, !concat_cons, !occurrences_app.
    simpl in Hq. injection Hq as ->. lia.
  - change (alter g (S q) (a :: l)) with (a :: alter g q l).
    rewrite !fmap_cons, !concat_cons, !occurrences_app, (IH q Hq). lia.
Qed.

Lemma registrations_push q fn st :
  is_Some (queues st !! q) ->
  registrations (push_fn q fn st) fn = registrations st fn + 1.
Proof.
  intros [aq Hq]. unfold registrations, push_fn. simpl.
  rewrite (occurrences_concat_alter _ _ _ _ _ Hq). simpl.
  rewrite occurrences_app, occurrences_cons, occurrences_nil.
  rewrite decide_True by done. lia.
Qed.

Lemma extend_depQueues_nil s : extend_depQueues [] s = s.
Proof. destruct s. unfold extend_depQueues; simpl. by rewrite app_nil_r. Qed.

Lemma extend_depQueues_app a1 a2 s :
  extend_depQueues a2 (extend_depQueues a1 s) = extend_depQueues (a1 ++ a2) s.
Proof. unfold extend_depQueues; simpl. by rewrite app_assoc. Qed.

Lemma alter_alter {A} (f g h : A -> A) (i : nat) (l : list A) :
  (forall x, f (g x) = h x) -> alter f i (alter g i l) = alter h i l.
Proof.
  intros Hfg. apply list_eq. intros j. destruct (decide (i = j)) as [->|Hne].
  - rewrite !list_lookup_alter_eq. destruct (l !! j); simpl; [|done]. by rewrite Hfg.
  - by rewrite !list_lookup_alter_ne.
Qed.

Lemma registers_skip s st q1 rest q :
  Some q1 = queue s \/ q1 ∈ depQueues s ->
  registers s st (q1 :: rest) q = registers s st rest q.
Proof.
  intros Hskip. apply eq_true_iff_eq. rewrite !registers_true, elem_of_cons.
  split; [|tauto]. intros ([->|Hin] & H1 & H2 & H3); [tauto|done].
Qed.

Lemma registers_head s st q1 rest :
  Some q1 <> queue s -> q1 ∉ depQueues s ->
  registers s st (q1 :: rest) q1 = unresolved st q1.
Proof.
  intros H1 H2. apply eq_true_iff_eq. rewrite registers_true, elem_of_cons. tauto.
Qed.

Lemma registers_seen s st st1 q1 rest q :
  (forall q', unresolved st1 q' = unresolved st q') ->
  registers (extend_depQueues [q1] s) st1 rest q =
    if decide (q = q1) then false else registers s st (q1 :: rest) q.
Proof.
  intros Hu. destruct (decide (q = q1)) as [->|Hne].
  - apply not_true_is_false. rewrite registers_true. simpl.
    intros (_ & _ & H & _). apply H, elem_of_app. right. by apply list_elem_of_singleton.
  - apply eq_true_iff_eq. rewrite !registers_true, Hu. simpl.
    rewrite elem_of_cons, not_elem_of_app, list_elem_of_singleton. tauto.
Qed.

Lemma unresolved_flags st st' :
  (forall q, resolved <$> queues st' !! q = resolved <$> queues st !! q) ->
  forall q, unresolved st' q = unresolved st q.
Proof.
  intros H q. specialize (H q). unfold unresolved.
  destruct (queues st' !! q), (queues st !! q); simpl in H; try done.
  by injection H as ->.
Qed.

(** What a run of [fnQueue] over the queues [qs] does to a store whose
    scope is [s]: the count of [fn] rises by the number [k] of pushes, the
    scope's [depQueues] is extended, the flags of the queues stay, and
    [fn] is appended to exactly the queues [registers] selects. *)
Lemma foldl_fnQueue_spec scope fn qs st s :
  scopes st !! scope = Some s ->
  exists k added,
    continuations (foldl (fnQueue scope fn) st qs)
      = alter (shift_count k) fn (continuations st)
    /\ 0 <= k
    /\ registrations (foldl (fnQueue scope fn) st qs) fn = registrations st fn + k
    /\ scopes (foldl (fnQueue scope fn) st qs)
       = alter (extend_depQueues added) scope (scopes st)
    /\ exts (foldl (fnQueue scope fn) st qs) = exts st
    /\ thens (foldl (fnQueue scope fn) st qs) = thens st
    /\ called (foldl (fnQueue scope fn) st qs) = called st
    /\ (forall q, resolved <$> queues (foldl (fnQueue scope fn) st qs) !! q
                  = resolved <$> queues st !! q)
    /\ (forall q, fns_of (foldl (fnQueue scope fn) st qs) q
                  = fns_of st q ++ if registers s st qs q then [fn] else [])
    /\ (forall q, q ∈ added <->
          q ∈ qs /\ Some q <> queue s /\ (q ∉ depQueues s)).
Proof.
  revert st s. induction qs as [|q1 rest IH]; intros st s Hs.
  - exists 0, []. cbn [foldl].
    split; [|split; [lia|split; [lia|split; [|split; [done|split; [done|split;
      [done|split; [done|split]]]]]]]].
    + symmetry. apply list_alter_id, shift_count_0.
    + symmetry. apply list_alter_id, extend_depQueues_nil.
    + intros q. replace (registers s st [] q) with false; [by rewrite app_nil_r|].
      symmetry. apply not_true_is_false. rewrite registers_true.
      intros [H _]. by apply elem_of_nil in H.
    + intros q. split; intros H; [by apply elem_of_nil in H|].
      destruct H as [H _]. by apply elem_of_nil in H.
  - cbn [foldl].
    destruct (decide (Some q1 = queue s \/ q1 ∈ depQueues s)) as [Hskip|Hnot].
    { rewrite (fnQueue_skip _ _ _ _ _ Hs Hskip).
      destruct (IH st s Hs)
        as (k & added & H1 & H2 & H3 & H4 & H5 & H6 & H7 & H8 & H9 & H10).
      exists k, added. repeat (split; [done|]). split.
      - intros q. by rewrite H9, (registers_skip _ _ _ _ _ Hskip).
      - intros q. rewrite H10, elem_of_cons. split; [tauto|].
        intros ([->|Hin] & Ha & Hb); [tauto|done]. }
    assert (Hq1 : Some q1 <> queue s) by tauto.
    assert (Hq2 : q1 ∉ depQueues s) by tauto.
    assert (Hadded : forall added,
      (forall q, q ∈ added <->
         q ∈ rest /\ Some q <> queue (extend_depQueues [q1] s)
         /\ (q ∉ depQueues (extend_depQueues [q1] s))) ->
      forall q, q ∈ [q1] ++ added <->
         q ∈ q1 :: rest /\ Some q <> queue s /\ (q ∉ depQueues s)).
    { intros added Hin q. simpl in Hin.
      rewrite elem_of_app, list_elem_of_singleton, Hin, elem_of_cons, not_elem_of_app,
        list_elem_of_singleton.
      destruct (decide (q = q1)) as [->|Hne]; tauto. }
    destruct (unresolved st q1) eqn:Hu.
    + rewrite (fnQueue_push _ _ _ _ _ Hs Hq1 Hq2 Hu).
      set (st1 := push_fn q1 fn (add_queueCount fn 1 (add_depQueue scope q1 st))).
      assert (Hs1 : scopes st1 !! scope = Some (extend_depQueues [q1] s)).
      { unfold st1. simpl. by rewrite list_lookup_alter_eq, Hs. }
      assert (Hflags : forall q, resolved <$> queues st1 !! q = resolved <$> queues st !! q).
      { intros q. unfold st1. simpl. destruct (decide (q1 = q)) as [->|Hne].
        - rewrite list_lookup_alter_eq. by destruct (queues st !! q).
        - by rewrite list_lookup_alter_ne. }
      destruct (IH st1 _ Hs1)
        as (k & added & H1 & H2 & H3 & H4 & H5 & H6 & H7 & H8 & H9 & H10).
      exists (1 + k), ([q1] ++ added).
      split; [|split; [lia|split; [|split; [|split; [done|split; [done|split;
        [done|split; [|split; [|by apply Hadded]]]]]]]]].
      * rewrite H1. unfold st1. simpl. apply alter_alter. intros c.
        by rewrite shift_count_shift.
      * rewrite H3. unfold st1. rewrite registrations_push; [|].
        -- unfold registrations. simpl. lia.
        -- simpl. apply unresolved_true in Hu as (aq & Haq & _). by eexists.
      * rewrite H4. unfold st1. simpl. apply alter_alter. intros c.
        apply extend_depQueues_app.
      * intros q. by rewrite H8, Hflags.
      * intros q. rewrite H9.
        rewrite (registers_seen s st st1 q1 rest q (unresolved_flags _ _ Hflags)).
        unfold fns_of, st1. simpl. destruct (decide (q = q1)) as [->|Hne].
        -- rewrite (registers_head _ _ _ _ Hq1 Hq2), Hu, list_lookup_alter_eq.
           apply unresolved_true in Hu as (aq & Haq & _). rewrite Haq. simpl.
           by rewrite app_nil_r.
        -- by rewrite list_lookup_alter_ne.
    + rewrite (fnQueue_seen _ _ _ _ _ Hs Hq1 Hq2 Hu).
      set (st1 := add_depQueue scope q1 st).
      assert (Hs1 : scopes st1 !! scope = Some (extend_depQueues [q1] s)).
      { unfold st1. simpl. by rewrite list_lookup_alter_eq, Hs. }
      destruct (IH st1 _ Hs1)
        as (k & added & H1 & H2 & H3 & H4 & H5 & H6 & H7 & H8 & H9 & H10).
      exists k, ([q1] ++ added).
      split; [done|]. split; [done|]. split; [done|].
      split; [|split; [done|split; [done|split; [done|split; [done|split;
        [|by apply Hadded]]]]]].
      * rewrite H4. unfold st1. simpl. apply alter_alter. intros c.
        apply extend_depQueues_app.
      * intros q. rewrite H9.
        rewrite (registers_seen s st st1 q1 rest q); [|done].
        unfold fns_of, st1. simpl. destruct (decide (q = q1)) as [->|Hne]; [|done].
        by rewrite (registers_head _ _ _ _ Hq1 Hq2), Hu.
Qed.

Lemma fnQueue_scopes_ne scope fn st q m :
  m <> scope -> scopes (fnQueue scope fn st q) !! m = scopes st !! m.
Proof.
  intros Hne. unfold fnQueue.
  destruct (scopes st !! scope) as [s|]; [|done].
  destruct (negb (bool_decide (Some q = queue s)) && negb (bool_decide (q ∈ depQueues s)));
    [|done].
  assert (Hadd : scopes (add_depQueue scope q st) !! m = scopes st !! m).
  { simpl. by rewrite list_lookup_alter_ne. }
  destruct (queues (add_depQueue scope q st) !! q) as [aq|]; [|done].
  by destruct (negb (resolved aq)).
Qed.

Lemma foldl_fnQueue_no_scope scope fn qs st :
  scopes st !! scope = None -> foldl (fnQueue scope fn) st qs = st.
Proof.
  intros Hs. induction qs as [|q qs IH]; simpl; [done|].
  by rewrite (fnQueue_no_scope _ _ _ _ Hs).
Qed.

Lemma foldl_fnQueue_all_skip scope fn qs st s :
  scopes st !! scope = Some s ->
  (forall q, q ∈ qs -> Some q = queue s \/ q ∈ depQueues s) ->
  foldl (fnQueue scope fn) st qs = st.
Proof.
  intros Hs. induction qs as [|q qs IH]; intros Hall; simpl; [done|].
  rewrite (fnQueue_skip _ _ _ _ _ Hs); [|apply Hall, elem_of_cons; by left].
  apply IH. intros q' Hq'. apply Hall, elem_of_cons. by right.
Qed.

(** [dep[turbopackQueues](fnQueue)] is [fnQueue] on each queue the
    dependency offers. *)
Lemma call_turbopackQueues_offered scope fn st dep :
  call_turbopackQueues scope fn st dep = foldl (fnQueue scope fn) st (offered st dep).
Proof.
  unfold call_turbopackQueues, offered.
  destruct (turbopackQueues <$> exts st !! dep) as [[|q|m]|]; try done.
  destruct (scopes st !! m) as [sm|] eqn:Hm; [|done].
  destruct (queue sm) as [q|] eqn:Hq; simpl.
  - destruct (decide (m = scope)) as [->|Hne].
    + rewrite (fnQueue_skip _ _ _ _ _ Hm) by (by left). by rewrite Hm.
    + by rewrite (fnQueue_scopes_ne _ _ _ _ _ Hne), Hm.
  - by rewrite Hm.
Qed.

(** The queues offered to one call can be read off the store the call
    starts in: what [fnQueue] adds to its own [depQueues] meanwhile is
    skipped when it comes back through a dependency on the module itself. *)
Lemma register_queues_from scope fn ds st cur s added :
  scopes st !! scope = Some s ->
  exts cur = exts st ->
  scopes cur = alter (extend_depQueues added) scope (scopes st) ->
  register_queues scope fn ds cur
    = foldl (fnQueue scope fn) cur (concat (offered st <$> ds)).
Proof.
  intros Hs. unfold register_queues.
  revert cur added. induction ds as [|d ds IH]; intros cur added Hexts Hscopes; [done|].
  cbn [foldl fmap list_fmap concat]. rewrite foldl_app.
  assert (Hcur : scopes cur !! scope = Some (extend_depQueues added s)).
  { by rewrite Hscopes, list_lookup_alter_eq, Hs. }
  assert (Hstep : call_turbopackQueues scope fn cur d
                  = foldl (fnQueue scope fn) cur (offered st d)).
  { rewrite call_turbopackQueues_offered. unfold offered. rewrite Hexts.
    destruct (turbopackQueues <$> exts st !! d) as [[|q|m]|]; try done.
    destruct (decide (m = scope)) as [->|Hne].
    - rewrite Hcur, Hs.
      rewrite (foldl_fnQueue_all_skip _ _ _ _ _ Hcur),
              (foldl_fnQueue_all_skip _ _ _ _ _ Hcur); [done| |].
      + intros q Hq. simpl. apply elem_of_app in Hq as [Hq|Hq].
        * left. destruct (queue s); simpl in Hq; [|by apply elem_of_nil in Hq].
          apply list_elem_of_singleton in Hq. by subst.
        * right. apply elem_of_app. by left.
      + intros q Hq. simpl in *. apply elem_of_app in Hq as [Hq|Hq].
        * left. destruct (queue s); simpl in Hq; [|by apply elem_of_nil in Hq].
          apply list_elem_of_singleton in Hq. by subst.
        * by right.
    - by rewrite Hscopes, list_lookup_alter_ne. }
  rewrite Hstep.
  destruct (foldl_fnQueue_spec scope fn (offered st d) cur _ Hcur)
    as (k & added' & _ & _ & _ & H4 & H5 & _).
  apply (IH _ (added ++ added')).
  - by rewrite H5.
  - rewrite H4, Hscopes. apply alter_alter. intros c. apply extend_depQueues_app.
Qed.

Lemma register_queues_offered scope fn ds st :
  register_queues scope fn ds st
    = foldl (fnQueue scope fn) st (concat (offered st <$> ds)).
Proof.
  destruct (scopes st !! scope) as [s|] eqn:Hs.
  - apply (register_queues_from _ _ _ _ _ s []); [done|done|].
    symmetry. apply list_alter_id, extend_depQueues_nil.
  - rewrite (foldl_fnQueue_no_scope _ _ _ _ Hs). unfold register_queues.
    induction ds as [|d ds IH]; simpl; [done|].
    by rewrite call_turbopackQueues_offered, (foldl_fnQueue_no_scope _ _ _ _ Hs).
Qed.

Lemma count_of_alter (k : Z) (fn : nat) (l : list AsyncQueueFn) :
  is_Some (l !! fn) ->
  default 0 (queueCount <$> alter (shift_count k) fn l !! fn)
    = default 0 (queueCount <$> l !! fn) + k.
Proof. intros [c Hc]. by rewrite list_lookup_alter_eq, Hc. Qed.

(** C3, as the code has it.  During
    [currentDeps.map((dep) => dep[turbopackQueues](fnQueue))] the
    continuation is pushed, once, on exactly the offered queues that are
    not the caller's self-queue, are not in [depQueues] when the call
    starts, and are not resolved.  [depQueues] belongs to the module, not
    to the call: it keeps every queue seen by earlier calls of
    [handleAsyncDependencies] of the same module, and the call adds to it
    every offered queue it had not seen, resolved or not.  The count rises
    by one with each push and with nothing else. *)
Theorem fnQueue_registers (scope fn : nat) (s : AsyncScope) (deps : list nat)
    (st : Store) :
  scopes st !! scope = Some s ->
  is_Some (continuations st !! fn) ->
  let st' := register_queues scope fn deps st in
  let qs := concat (offered st <$> deps) in
  (forall q, fns_of st' q = fns_of st q ++ if registers s st qs q then [fn] else [])
  /\ (forall q, registers s st qs q = true <->
        q ∈ qs /\ Some q <> queue s /\ (q ∉ depQueues s) /\ unresolved st q = true)
  /\ count_of st' fn - count_of st fn = registrations st' fn - registrations st fn
  /\ (exists added,
        scopes st' !! scope = Some (extend_depQueues added s)
        /\ forall q, q ∈ added <->
             q ∈ qs /\ Some q <> queue s /\ (q ∉ depQueues s)).
Proof.
  intros Hs Hfn st' qs. unfold st'. rewrite register_queues_offered. fold qs.
  destruct (foldl_fnQueue_spec scope fn qs st s Hs)
    as (k & added & H1 & H2 & H3 & H4 & H5 & H6 & H7 & H8 & H9 & H10).
  split; [done|]. split; [intros q; apply registers_true|]. split.
  - unfold count_of. rewrite H1, (count_of_alter _ _ _ Hfn), H3. lia.
  - exists added. split; [|done]. by rewrite H4, list_lookup_alter_eq, Hs.
Qed.

(** ** [handleAsyncDependencies] *)

Lemma grown_refl st : grown st st.
Proof.
  repeat (split; [done|]). exists []. split; [by rewrite app_nil_r | constructor].
Qed.

Lemma grown_trans st1 st2 st3 : grown st1 st2 -> grown st2 st3 -> grown st1 st3.
Proof.
  intros (A1 & A2 & A3 & A4 & A5 & n1 & A6 & A7) (B1 & B2 & B3 & B4 & B5 & n2 & B6 & B7).
  unfold grown. rewrite B1, B2, B3, B4, B5, B6, A6. repeat (split; [done|]).
  exists (n1 ++ n2). split; [by rewrite app_assoc | by apply Forall_app].
Qed.

Lemma grown_lookup st st1 e x :
  grown st st1 -> exts st !! e = Some x -> exts st1 !! e = Some x.
Proof.
  intros (_ & _ & _ & _ & _ & new & -> & _) Hx. by apply lookup_app_l_Some.
Qed.

Lemma grown_queues_fn st st1 e :
  grown st st1 -> exts st !! e = None ->
  turbopackQueues <$> exts st1 !! e = None
  \/ turbopackQueues <$> exts st1 !! e = Some QueuesNoop.
Proof.
  intros (_ & _ & _ & _ & _ & new & -> & Hnew) Hx.
  destruct ((exts st ++ new) !! e) as [x|] eqn:E; [|by left]. right.
  apply lookup_app_Some in E as [E|[_ E]]; [congruence|].
  simpl. f_equal. rewrite Forall_forall in Hnew. apply Hnew.
  apply list_elem_of_lookup. eauto.
Qed.

Lemma grown_offered st st1 e : grown st st1 -> offered st1 e = offered st e.
Proof.
  intros Hg. unfold offered.
  destruct (exts st !! e) as [x|] eqn:Hx.
  - rewrite (grown_lookup _ _ _ _ Hg Hx). simpl.
    destruct Hg as (_ & _ & -> & _). done.
  - simpl. by destruct (grown_queues_fn _ _ _ Hg Hx) as [-> | ->].
Qed.

Lemma grown_unresolved st st1 q : grown st st1 -> unresolved st1 q = unresolved st q.
Proof. intros (Hq & _). unfold unresolved. by rewrite Hq. Qed.

Lemma grown_settled st st1 dep :
  grown st st1 -> settled_dep st dep = true -> settled_dep st1 dep = true.
Proof.
  intros Hg. destruct dep; try done. simpl.
  destruct (exts st !! ext) as [x|] eqn:Hx; [|done].
  rewrite (grown_lookup _ _ _ _ Hg Hx), (grown_offered _ _ _ Hg).
  intros H. rewrite forallb_forall in *. intros q Hq.
  rewrite (grown_unresolved _ _ _ Hg). by apply H.
Qed.

Lemma grown_snapshot st st1 dep :
  grown st st1 -> settled_dep st dep = true ->
  dep_error st1 dep = dep_error st dep /\ dep_exports st1 dep = dep_exports st dep.
Proof.
  intros Hg. destruct dep; try done. simpl.
  destruct (exts st !! ext) as [x|] eqn:Hx; [|done].
  by rewrite (grown_lookup _ _ _ _ Hg Hx).
Qed.

Lemma wraps_grown st sta st1 dep d :
  grown sta st1 -> wraps st sta dep d -> wraps st st1 dep d.
Proof.
  intros Hg (x & Hx & He & Hv & Hq). exists x.
  split; [by apply (grown_lookup _ _ _ _ Hg)|]. split; [done|]. split; [done|].
  intros q. rewrite (grown_offered _ _ _ Hg), (grown_unresolved _ _ _ Hg). apply Hq.
Qed.

Lemma Forall2_impl_Forall {A B} (P : A -> Prop) (R R' : A -> B -> Prop) l k :
  Forall P l -> Forall2 R l k ->
  (forall a b, P a -> R a b -> R' a b) -> Forall2 R' l k.
Proof.
  intros HP HR Himpl. induction HR as [|a b l k Hab _ IH]; [constructor|].
  apply Forall_cons in HP as [Ha HP]. constructor; [by apply Himpl | by apply IH].
Qed.

Lemma wrapDep_settled st dep :
  settled_dep st dep = true ->
  grown st (wrapDep dep st).2 /\ wraps st (wrapDep dep st).2 dep (wrapDep dep st).1.
Proof.
  intros Hs. destruct dep; simpl in Hs; try discriminate.
  1-9: (simpl; split;
    [ repeat (split; [done|]); eexists; split; [done|]; by repeat constructor
    | eexists; simpl; split; [by apply list_lookup_middle|];
      split; [done|]; split; [done|];
      intros q; unfold offered; simpl;
      rewrite list_lookup_middle by done; simpl;
      intros Hq; by apply elem_of_nil in Hq ]).
  simpl. split; [apply grown_refl|].
  destruct (exts st !! ext) as [x|] eqn:Hx; [|done].
  exists x. simpl. rewrite Hx. split; [done|]. split; [done|]. split; [done|].
  intros q Hq. rewrite forallb_forall in Hs.
  specialize (Hs q (proj1 (list_elem_of_In _ _) Hq)). by destruct (unresolved st q).
Qed.

Lemma wrapDeps_settled deps st :
  Forall (fun dep => settled_dep st dep = true) deps ->
  grown st (wrapDeps deps st).2
  /\ Forall2 (wraps st (wrapDeps deps st).2) deps (wrapDeps deps st).1.
Proof.
  revert st. induction deps as [|dep deps IH]; intros st Hall; simpl.
  - split; [apply grown_refl | constructor].
  - apply Forall_cons in Hall as [Hdep Hall].
    destruct (wrapDep_settled _ _ Hdep) as [Hg Hw].
    destruct (wrapDep dep st) as [d sta]. simpl in Hg, Hw.
    assert (Hall' : Forall (fun dep => settled_dep sta dep = true) deps).
    { eapply Forall_impl; [exact Hall|]. intros dep'. apply grown_settled, Hg. }
    destruct (IH sta Hall') as [Hg' Hw'].
    destruct (wrapDeps deps sta) as [ds st1]. simpl in *.
    split; [by apply (grown_trans _ sta)|]. constructor.
    + by apply (wraps_grown _ sta).
    + apply (Forall2_impl_Forall _ _ _ _ _ Hall Hw').
      intros dep' d' Hset (x & Hx & He & Hv & Hq).
      destruct (grown_snapshot _ _ _ Hg Hset) as [E1 E2].
      exists x. by rewrite <- E1, <- E2.
Qed.

Lemma foldl_fnQueue_resolved scope fn qs st :
  (forall q, q ∈ qs -> unresolved st q = false) ->
  exists added,
    foldl (fnQueue scope fn) st qs
      = with_scopes (alter (extend_depQueues added) scope) st.
Proof.
  revert st. induction qs as [|q1 rest IH]; intros st Hall.
  - exists []. destruct st; unfold with_scopes; simpl. f_equal.
    symmetry. apply list_alter_id, extend_depQueues_nil.
  - cbn [foldl].
    assert (Hrest : forall st1, (forall q, unresolved st1 q = unresolved st q) ->
              forall q, q ∈ rest -> unresolved st1 q = false).
    { intros st1 Hsame q Hq. rewrite Hsame. apply Hall, elem_of_cons. by right. }
    destruct (scopes st !! scope) as [s|] eqn:Hs.
    + destruct (decide (Some q1 = queue s \/ q1 ∈ depQueues s)) as [Hskip|Hnot].
      { rewrite (fnQueue_skip _ _ _ _ _ Hs Hskip). apply IH. by apply Hrest. }
      rewrite (fnQueue_seen _ _ _ _ s Hs); [|tauto|tauto|apply Hall, elem_of_cons; by left].
      destruct (IH (add_depQueue scope q1 st)) as [added ->]; [by apply Hrest|].
      exists ([q1] ++ added). destruct st; unfold with_scopes, add_depQueue; simpl.
      f_equal. apply alter_alter. intros c. apply extend_depQueues_app.
    + rewrite (fnQueue_no_scope _ _ _ _ Hs). apply IH. by apply Hrest.
Qed.

Lemma elem_of_concat {A} (x : A) (ls : list (list A)) :
  x ∈ concat ls <-> exists l, x ∈ l /\ l ∈ ls.
Proof.
  induction ls as [|l ls IH]; simpl.
  - split; intros H; [by apply elem_of_nil in H|].
    destruct H as (l & _ & H). by apply elem_of_nil in H.
  - rewrite elem_of_app, IH. split.
    + intros [H|(l' & H1 & H2)].
      * exists l. split; [done|]. apply elem_of_cons. by left.
      * exists l'. split; [done|]. apply elem_of_cons. by right.
    + intros (l' & H1 & H2). apply elem_of_cons in H2 as [->|H2]; [by left|].
      right. by exists l'.
Qed.

Lemma Forall2_elem_r {A B} (R : A -> B -> Prop) l k b :
  Forall2 R l k -> b ∈ k -> exists a, a ∈ l /\ R a b.
Proof.
  induction 1 as [|a b' l k Hab _ IH]; intros Hb; [by apply elem_of_nil in Hb|].
  apply elem_of_cons in Hb as [->|Hb].
  - exists a. split; [apply elem_of_cons; by left | done].
  - destruct (IH Hb) as (a' & Ha' & HR). exists a'. split; [apply elem_of_cons; by right | done].
Qed.

(** When no dependency can make the caller wait, the registrations leave
    the count of the new continuation at zero, and the wrappers hold the
    snapshots the dependencies had. *)
Lemma register_settled scope deps st :
  Forall (fun dep => settled_dep st dep = true) deps ->
  exists ds fn st',
    register scope deps st = (ds, fn, st')
    /\ count_of st' fn = 0
    /\ Forall2 (holds st st') deps ds.
Proof.
  intros Hall. unfold register.
  destruct (wrapDeps_settled deps st Hall) as [Hg Hw].
  destruct (wrapDeps deps st) as [ds st1]. simpl in Hg, Hw.
  rewrite register_queues_offered.
  set (fn := length (continuations st1)).
  set (st2 := with_continuations (fun l => l ++ [mkFn 0 ds]) st1).
  destruct (foldl_fnQueue_resolved scope fn
              (concat (offered st2 <$> ds)) st2) as [added Hfold].
  { intros q Hq. apply elem_of_concat in Hq as (qs & Hq & Hqs).
    apply list_elem_of_fmap in Hqs as (d & -> & Hd).
    destruct (Forall2_elem_r _ _ _ _ Hw Hd) as (dep & _ & x & _ & _ & _ & Hres).
    by apply Hres. }
  eexists _, _, _. split; [done|]. rewrite Hfold. split.
  - unfold count_of, fn. simpl. by rewrite list_lookup_middle.
  - eapply Forall2_impl; [exact Hw|]. intros dep d (x & Hx & He & Hv & _).
    by exists x.
Qed.

Lemma getResult_holds_return st st' deps ds :
  Forall2 (holds st st') deps ds ->
  Forall (fun dep => truthy (dep_error st dep) = false) deps ->
  getResult st' ds = Return (dep_exports st <$> deps).
Proof.
  induction 1 as [|dep d deps ds (x & Hx & He & Hv) _ IH]; intros Hall; [done|].
  apply Forall_cons in Hall as [Hdep Hall]. simpl.
  by rewrite Hx, He, Hdep, (IH Hall), Hv.
Qed.

Lemma getResult_holds_throw st st' pre dep post ds :
  Forall2 (holds st st') (pre ++ dep :: post) ds ->
  Forall (fun dep => truthy (dep_error st dep) = false) pre ->
  truthy (dep_error st dep) = true ->
  getResult st' ds = Throw (dep_error st dep).
Proof.
  revert ds. induction pre as [|a pre IH]; intros ds H2 Hpre Hdep.
  - simpl in H2. apply Forall2_cons_inv_l in H2 as (d & ds' & (x & Hx & He & _) & _ & ->).
    simpl. by rewrite Hx, He, Hdep.
  - simpl in H2. apply Forall2_cons_inv_l in H2 as (d & ds' & (x & Hx & He & _) & H2 & ->).
    apply Forall_cons in Hpre as [Ha Hpre]. simpl.
    by rewrite Hx, He, Ha, (IH _ H2 Hpre Hdep).
Qed.

(** C4, as the code has it.  When every dependency is a plain value or
    carries [turbopackQueues] with only resolved queues to offer (a
    thenable is not among these: it gets a fresh unresolved queue, which
    only a callback of its [then] resolves), the count stays
    zero and [handleAsyncDependencies] calls [getResult()] itself, with no
    promise: the caller gets the array of the exports snapshots when no
    dependency has a captured error that passes [if], and otherwise the
    first such error, thrown by the call.  In every store, the call
    returns the promise exactly when the count is not zero after the
    registrations. *)
Theorem handleAsyncDependencies_settled (scope : nat) (deps : list value) (st : Store) :
  (Forall (fun dep => settled_dep st dep = true) deps ->
   exists ds fn st',
     register scope deps st = (ds, fn, st')
     /\ count_of st' fn = 0
     /\ (forall f, (handleAsyncDependencies scope deps st).1 <> Deferred f)
     /\ (Forall (fun dep => truthy (dep_error st dep) = false) deps ->
           handleAsyncDependencies scope deps st
             = (Results (dep_exports st <$> deps), st'))
     /\ (forall pre dep post, deps = pre ++ dep :: post ->
           Forall (fun dep => truthy (dep_error st dep) = false) pre ->
           truthy (dep_error st dep) = true ->
           handleAsyncDependencies scope deps st = (Thrown (dep_error st dep), st')))
  /\ (forall ds fn st', register scope deps st = (ds, fn, st') ->
        (count_of st' fn <> 0 ->
           handleAsyncDependencies scope deps st = (Deferred fn, st'))
        /\ (count_of st' fn = 0 ->
              handleAsyncDependencies scope deps st
                = (match getResult st' ds with
                   | Return vs => Results vs
                   | Throw e => Thrown e
                   end, st'))).
Proof.
  assert (Hgen : forall ds fn st', register scope deps st = (ds, fn, st') ->
        (count_of st' fn <> 0 ->
           handleAsyncDependencies scope deps st = (Deferred fn, st'))
        /\ (count_of st' fn = 0 ->
              handleAsyncDependencies scope deps st
                = (match getResult st' ds with
                   | Return vs => Results vs
                   | Throw e => Thrown e
                   end, st'))).
  { intros ds fn st' Hreg. unfold handleAsyncDependencies. rewrite Hreg. split.
    - intros Hc. destruct (Z.eqb_spec (count_of st' fn) 0); [done|done].
    - intros ->. simpl. by destruct (getResult st' ds). }
  split; [|exact Hgen].
  intros Hall. destruct (register_settled scope deps st Hall) as (ds & fn & st' & Hreg & Hc & Hh).
  exists ds, fn, st'. destruct (Hgen _ _ _ Hreg) as [_ Hsync]. specialize (Hsync Hc).
  split; [done|]. split; [done|]. split; [|split].
  - intros f. rewrite Hsync. simpl. by destruct (getResult st' ds).
  - intros Hok. by rewrite Hsync, (getResult_holds_return _ _ _ _ Hh Hok).
  - intros pre dep post -> Hpre Hdep.
    by rewrite Hsync, (getResult_holds_throw _ _ _ _ _ _ Hh Hpre Hdep).
Qed.

Lemma register_continuation scope deps st ds fn st' :
  register scope deps st = (ds, fn, st') ->
  exists k, continuations st' !! fn = Some (mkFn k ds).
Proof.
  unfold register. destruct (wrapDeps deps st) as [ds0 st1].
  intros [= <- <- <-]. rewrite register_queues_offered.
  set (st2 := with_continuations (fun l => l ++ [mkFn 0 ds0]) st1).
  assert (Hnew : continuations st2 !! length (continuations st1) = Some (mkFn 0 ds0)).
  { unfold st2. simpl. by apply list_lookup_middle. }
  destruct (scopes st2 !! scope) as [s|] eqn:Hs.
  - destruct (foldl_fnQueue_spec scope (length (continuations st1))
                (concat (offered st2 <$> ds0)) st2 s Hs) as (k & added & -> & _).
    exists (0 + k). by rewrite list_lookup_alter_eq, Hnew.
  - rewrite (foldl_fnQueue_no_scope _ _ _ _ Hs). by exists 0.
Qed.

(** C6, as the code has it.  The registrations themselves throw nothing.
    When the count is not zero the call returns the promise, whatever
    errors the dependencies have captured, and the error shows when the
    consumer calls the [getResult] it is resolved with: that call throws,
    unchanged, the captured error of the first dependency whose error
    passes [if].  When the count is zero [handleAsyncDependencies] calls
    [getResult()] before it returns, so the same error is thrown by the
    call itself. *)
Theorem getResult_rethrows_on_read (scope : nat) (deps : list value) (st : Store)
    (ds : list nat) (fn : nat) (st' : Store) :
  register scope deps st = (ds, fn, st') ->
  (count_of st' fn <> 0 ->
     handleAsyncDependencies scope deps st = (Deferred fn, st'))
  /\ (exists k, continuations st' !! fn = Some (mkFn k ds))
  /\ (forall later c pre d post x,
        continuations later !! fn = Some c -> currentDeps c = ds ->
        ds = pre ++ d :: post ->
        Forall (fun d' => exists x', exts later !! d' = Some x'
                            /\ truthy (turbopackError x') = false) pre ->
        exts later !! d = Some x ->
        truthy (turbopackError x) = true ->
        read_results later fn = Throw (turbopackError x))
  /\ (count_of st' fn = 0 ->
      forall pre d post x,
        ds = pre ++ d :: post ->
        Forall (fun d' => exists x', exts st' !! d' = Some x'
                            /\ truthy (turbopackError x') = false) pre ->
        exts st' !! d = Some x ->
        truthy (turbopackError x) = true ->
        handleAsyncDependencies scope deps st = (Thrown (turbopackError x), st')).
Proof.
  intros Hreg. split; [|split; [|split]].
  - intros Hc. unfold handleAsyncDependencies. rewrite Hreg.
    by destruct (Z.eqb_spec (count_of st' fn) 0).
  - by apply (register_continuation scope deps st).
  - intros later c pre d post x Hc Hds -> Hpre Hx Herr.
    unfold read_results. rewrite Hc, Hds. by apply getResult_throw.
  - intros Hc pre d post x -> Hpre Hx Herr.
    unfold handleAsyncDependencies. rewrite Hreg, Hc. simpl.
    by rewrite (getResult_throw _ _ _ _ _ Hpre Hx Herr).
Qed.

(** ** The statements on concrete runs *)

(** Resolving the queue of the pending module 0 twice is resolving it once. *)
Lemma resolveQueue_two_phase_witness :
  queues run_after_first !! 0%nat = Some (mkQueue false [0%nat])
  /\ resolved (mkQueue false [0%nat]) = false
  /\ resolveQueue (Some 0%nat) (resolveQueue (Some 0%nat) run_after_first)
     = resolveQueue (Some 0%nat) run_after_first.
Proof.
  split; [reflexivity|]. split; [reflexivity|].
  pose proof (resolveQueue_two_phase 0 (mkQueue false [0%nat]) run_after_first
                eq_refl eq_refl) as H.
  cbv zeta in H. exact (proj2 (proj2 (proj2 (proj2 (proj2 (proj2 H)))))).
Defined.





(** Module 0 fails after module 1 has registered on its queue. *)
Lemma asyncResult_error_unblocks_witness :
  scopes run_after_first !! 0%nat = Some (mkScope (Some 0%nat) [] VEmpty 0 Pending)
  /\ exts run_after_first !! 0%nat = Some (mkExt VEmpty VUndefined (QueuesOfModule 0))
  /\ truthy (VError "late") = true
  /\ rawPromise <$> scopes (asyncResult 0 (VError "late") run_after_first) !! 0%nat
     = Some (Rejected (VError "late"))
  /\ getResult (asyncResult 0 (VError "late") run_after_first) [0%nat]
     = Throw (VError "late").
Proof.
  split; [reflexivity|]. split; [reflexivity|]. split; [reflexivity|].
  pose proof (asyncResult_error_unblocks 0 (mkScope (Some 0%nat) [] VEmpty 0 Pending)
                (mkExt VEmpty VUndefined (QueuesOfModule 0)) (VError "late")
                run_after_first eq_refl eq_refl eq_refl) as H.
  cbv zeta in H. split; [exact (proj1 H eq_refl)|].
  exact (proj2 (proj2 (proj2 (proj2 (proj2 (proj2 H)))))).
Defined.


(** C2, as the claim states it, fails: in the store the body of a module
    with [hasAwait] starts in, the self-queue is resolved. *)
Lemma asyncModule_body_starts_resolved :
  self_queue_resolved (asyncModule_enter fresh_module true empty_store).2
    (asyncModule_enter fresh_module true empty_store).1.1 = Some true
  /\ self_queue_resolved (asyncModule_enter fresh_module true empty_store).2
       (asyncModule_enter fresh_module true empty_store).1.1 <> Some false.
Proof. split; [reflexivity | discriminate]. Qed.

(** The flag is [true] when the idle body starts and [false] once
    [asyncModule] has returned. *)
Lemma asyncModule_flips_after_body_witness :
  asyncModule_enter fresh_module true empty_store
    = (0%nat, mkModule (VAsyncModule 0) None None,
       (asyncModule_enter fresh_module true empty_store).2)
  /\ self_queue_resolved (asyncModule_enter fresh_module true empty_store).2 0
     = Some true
  /\ self_queue_resolved
       (asyncModule fresh_module idle_body true empty_store).2 0 = Some false.
Proof.
  split; [reflexivity|].
  pose proof (asyncModule_flips_after_body fresh_module idle_body empty_store
                0 (mkModule (VAsyncModule 0) None None)
                (asyncModule_enter fresh_module true empty_store).2 eq_refl) as H.
  split; [exact (proj1 H)|].
  destruct (proj1 (proj2 H) _ eq_refl) as [Heq Hflip].
  rewrite Heq. apply (Hflip 0%nat); [reflexivity|]. by eexists.
Defined.

(** C3, as the claim states it, fails: in the second call of
    [handleAsyncDependencies] by module 1, queue 0 is offered, is not the
    caller's self-queue, is not resolved, and the continuation of this
    call is on no queue so far; it is not pushed on queue 0, and the call
    returns the array although module 0 is pending. *)
Lemma fnQueue_dedup_outlives_the_call :
  register 1 [VAsyncModule 0] run_after_first
    = ([0%nat], 1%nat, (register 1 [VAsyncModule 0] run_after_first).2)
  /\ offered run_after_first 0 = [0%nat]
  /\ queue <$> scopes run_after_first !! 1%nat = Some None
  /\ unresolved run_after_first 0 = true
  /\ registrations run_after_first 1 = 0
  /\ fns_of (register 1 [VAsyncModule 0] run_after_first).2 0 = [0%nat]
  /\ (handleAsyncDependencies 1 [VAsyncModule 0] run_after_first).1 = Results [VEmpty]
  /\ self_queue_resolved run_after_first 0 = Some false.
Proof. repeat split; reflexivity. Qed.

(** The first call of module 1 pushes its continuation on queue 0. *)
Lemma fnQueue_registers_witness :
  scopes run_before_register !! 1%nat = Some (mkScope None [] VEmpty 1 Pending)
  /\ is_Some (continuations run_before_register !! 0%nat)
  /\ fns_of (register_queues 1 0 [0%nat] run_before_register) 0 = [0%nat].
Proof.
  split; [reflexivity|]. split; [by eexists|].
  pose proof (fnQueue_registers 1 0 (mkScope None [] VEmpty 1 Pending) [0%nat]
                run_before_register eq_refl (mk_is_Some _ _ eq_refl)) as H.
  cbv zeta in H. exact (proj1 H 0%nat).
Defined.

(** C4, as the claim states it, fails: the only dependency has settled and
    offers no queue, and the call does not return the results array. *)
Lemma handleAsyncDependencies_settled_throws :
  Forall (fun dep => settled_dep run_failed_consumer dep = true) [VAsyncModule 0]
  /\ (handleAsyncDependencies 1 [VAsyncModule 0] run_failed_consumer).1
     = Thrown (VError "boom")
  /\ forall vs,
       (handleAsyncDependencies 1 [VAsyncModule 0] run_failed_consumer).1 <> Results vs.
Proof.
  split; [by repeat constructor|]. split; [reflexivity|]. intros vs. discriminate.
Qed.

(** A plain value and a module without queues: the array comes back at
    once. *)
Lemma handleAsyncDependencies_settled_witness :
  Forall (fun dep => settled_dep run_failed_consumer dep = true)
    [VNum 7; VAsyncModule 1]
  /\ (handleAsyncDependencies 1 [VNum 7; VAsyncModule 1] run_failed_consumer).1
     = Results [VNum 7; VEmpty].
Proof.
  assert (Hall : Forall (fun dep => settled_dep run_failed_consumer dep = true)
                   [VNum 7; VAsyncModule 1]) by (by repeat constructor).
  split; [exact Hall|].
  destruct (proj1 (handleAsyncDependencies_settled 1 [VNum 7; VAsyncModule 1]
                     run_failed_consumer) Hall)
    as (ds & fn & st' & _ & _ & _ & Hok & _).
  rewrite Hok; [reflexivity|]. by repeat constructor.
Defined.

(** C6, as the claim states it, fails: module 0 has settled with an error
    and its queue is resolved; the consumer's call of
    [handleAsyncDependencies] throws that error before the consumer has
    anything to read. *)
Lemma handleAsyncDependencies_throws_unread :
  turbopackError <$> exts run_late_failure !! 0%nat = Some (VError "late")
  /\ self_queue_resolved run_late_failure 0 = Some true
  /\ (handleAsyncDependencies 1 [VAsyncModule 0; VNum 7] run_late_failure).1
     = Thrown (VError "late").
Proof. repeat split; reflexivity. Qed.

(** Module 1 waits on module 0, module 0 fails, and reading the results
    throws the error of module 0. *)
Lemma getResult_rethrows_on_read_witness :
  register 1 [VAsyncModule 0] run_consumer
    = ([0%nat], 0%nat, run_after_first)
  /\ handleAsyncDependencies 1 [VAsyncModule 0] run_consumer
     = (Deferred 0, run_after_first)
  /\ read_results (asyncResult 0 (VError "late") run_after_first) 0
     = Throw (VError "late").
Proof.
  split; [reflexivity|].
  pose proof (getResult_rethrows_on_read 1 [VAsyncModule 0] run_consumer
                [0%nat] 0 run_after_first eq_refl) as H.
  split; [apply (proj1 H); discriminate|].
  apply (proj1 (proj2 (proj2 H))
           (asyncResult 0 (VError "late") run_after_first)
           (mkFn (-1) [0%nat]) [] 0%nat []
           (mkExt VEmpty (VError "late") (QueuesOfModule 0)));
    first [reflexivity | constructor].
Defined.

(** ** Further runs *)

(** A thenable whose [then] does not call back while it runs, such as a
    native promise, always makes the caller wait, settled or not:
    [wrapDeps] gives it a fresh queue with [resolved: false]. *)
Example thenable_dependency_defers :
  (handleAsyncDependencies 1 [VPromise 0] run_consumer).1 = Deferred 0
  /\ thens (handleAsyncDependencies 1 [VPromise 0] run_consumer).2 = [(0, 2, 1)]%nat.
Proof. split; reflexivity. Qed.

(** When that thenable rejects, the [then] callback stores the reason and
    resolves the queue: the continuation is called, and reading the
    results throws the reason. *)
Example rejected_thenable_read :
  let st := onRejected 2 1 (VError "rejected")
              (handleAsyncDependencies 1 [VPromise 0] run_consumer).2 in
  called st = [0%nat] /\ read_results st 0 = Throw (VError "rejected").
Proof. split; reflexivity. Qed.

(** A reason that fails [if] is not thrown: the consumer reads the [{}]
    the wrapper started with. *)
Example falsy_rejection_read :
  let st := onRejected 2 1 (VNum 0)
              (handleAsyncDependencies 1 [VPromise 0] run_consumer).2 in
  read_results st 0 = Return [VEmpty].
Proof. reflexivity. Qed.

(** Calling the continuations during the decrement pass would differ from
    what [resolveQueue] does: a continuation that waits on two queues is
    not called when the first of them resolves. *)
Example resolveQueue_waits_for_all_queues :
  let st := mkStore [mkQueue false [0%nat]; mkQueue false [0%nat]] [mkFn 2 []]
              [] [] [] [] in
  called (resolveQueue (Some 0%nat) st) = []
  /\ called (resolveQueue (Some 1%nat) (resolveQueue (Some 0%nat) st)) = [0%nat]
  /\ count_of (resolveQueue (Some 1%nat) (resolveQueue (Some 0%nat) st)) 0 = -1.
Proof. repeat split; reflexivity. Qed.

(** Two modules that wait on each other: module 0 (with a suspension
    point) is pending when module 1 registers; once module 0 completes,
    the continuation of module 1 is called and it reads the exports. *)
Example cycle_settles :
  let st := asyncResult 0 VUndefined run_after_first in
  called st = [0%nat]
  /\ read_results st 0 = Return [VEmpty]
  /\ self_queue_resolved st 0 = Some true.
Proof. repeat split; reflexivity. Qed.

(** * Further properties *)

(** ** [esm] and [esmExport] read through [Reflect.get] and [Object.keys] *)

Lemma Reflect_get_own o k p :
  getOwnProperty o k = Some p -> Reflect_get o k = readProperty p.
Proof. destruct o as [ps pr]. unfold getOwnProperty. simpl. by intros ->. Qed.

Lemma Reflect_get_inherited o k :
  getOwnProperty o k = None ->
  Reflect_get o k = match proto o with
                    | Some p => Reflect_get p k
                    | None => VUndefined
                    end.
Proof. destruct o as [ps pr]. unfold getOwnProperty. simpl. by intros ->. Qed.

Lemma proto_defineProp o name d : proto (defineProp o name d) = proto o.
Proof. unfold defineProp. by destruct (negb (hasOwnProperty o name)). Qed.

Lemma proto_esm hasSymbol target getters :
  proto (esm hasSymbol target getters) = proto target.
Proof.
  unfold esm. assert (H : proto (esm_header hasSymbol target) = proto target).
  { unfold esm_header. destruct (toStringTag hasSymbol); by rewrite ?proto_defineProp. }
  rewrite <- H. generalize (esm_header hasSymbol target).
  induction getters as [|e getters IH]; intros o; simpl; [done|].
  rewrite IH. apply proto_defineProp.
Qed.

(** X1.  After [esmExport], [module.namespaceObject] is the exports
    object, and reading a name through it runs the getter given for that
    name, for every name the object did not own before (other than
    [__esModule]); [__esModule] reads [true] unless the object had its
    own; every property the object owned, and every name it neither owned
    nor was given, reads as before. *)
Theorem esmExport_reads (hasSymbol : bool) (module : Module) (exports_ : Obj)
    (getters : list (string * Getter)) :
  let m := (esmExport hasSymbol module exports_ getters).1 in
  let o := (esmExport hasSymbol module exports_ getters).2 in
  namespaceObject m = Some (NsObject o)
  /\ exports m = exports module
  /\ (forall key f, getter_of getters key = Some f ->
        hasOwnProperty exports_ (KString key) = false -> key <> "__esModule" ->
        Reflect_get o (KString key) = f tt)
  /\ (hasOwnProperty exports_ (KString "__esModule") = false ->
        Reflect_get o (KString "__esModule") = VBool true)
  /\ (forall k, hasOwnProperty exports_ k = true ->
        Reflect_get o k = Reflect_get exports_ k)
  /\ (forall k, hasOwnProperty o k = false ->
        Reflect_get o k = Reflect_get exports_ k).
Proof.
  intros m o. unfold m, o, esmExport. simpl.
  split; [done|]. split; [done|]. split; [|split; [|split]].
  - intros key f Hf Hown Hkey. apply hasOwnProperty_false in Hown.
    assert (H : getOwnProperty (esm hasSymbol exports_ getters) (KString key)
                = Some (installed f)).
    { rewrite getOwnProperty_esm, Hown. unfold header_property.
      rewrite decide_False by (unfold esModule_key; congruence).
      rewrite andb_false_r. by rewrite Hf. }
    by rewrite (Reflect_get_own _ _ _ H).
  - intros Hown. apply hasOwnProperty_false in Hown.
    change (KString "__esModule") with esModule_key in *.
    assert (H : getOwnProperty (esm hasSymbol exports_ getters) esModule_key
                = Some (DataProperty (VBool true) false false false)).
    { rewrite getOwnProperty_esm, Hown. unfold header_property.
      by rewrite decide_True. }
    by rewrite (Reflect_get_own _ _ _ H).
  - intros k Hown. apply hasOwnProperty_true in Hown as [p Hp].
    assert (H : getOwnProperty (esm hasSymbol exports_ getters) k = Some p)
      by (by rewrite getOwnProperty_esm, Hp).
    by rewrite (Reflect_get_own _ _ _ H), (Reflect_get_own _ _ _ Hp).
  - intros k Hown. apply hasOwnProperty_false in Hown.
    rewrite (Reflect_get_inherited _ _ Hown), proto_esm.
    rewrite getOwnProperty_esm in Hown.
    destruct (getOwnProperty exports_ k) eqn:Hk; [done|].
    by rewrite (Reflect_get_inherited _ _ Hk).
Qed.

Lemma Object_keys_created o : Object_keys o = key_order (created_keys o).
Proof.
  unfold Object_keys, key_order, created_keys, own_ordered.
  apply omap_OrdinaryOwnPropertyKeys. intros [k p] b. unfold enumerable_name. simpl.
  destruct k as [s|s]; [|done]. destruct (enumerable p); [|done]. by intros [= ->].
Qed.

Lemma elem_of_Object_keys o key :
  key ∈ Object_keys o <-> key ∈ created_keys o.
Proof.
  rewrite Object_keys_created. unfold key_order. by rewrite OrdinaryOwnPropertyKeys_perm.
Qed.

Lemma created_keys_app ps qs pr :
  created_keys (mkObj (ps ++ qs) pr)
  = created_keys (mkObj ps pr) ++ created_keys (mkObj qs pr).
Proof. unfold created_keys. simpl. apply omap_app. Qed.

Lemma own_defineProp o name d :
  own (defineProp o name d)
  = own o ++ if hasOwnProperty o name then [] else [(name, toProperty d)].
Proof.
  unfold defineProp. destruct (hasOwnProperty o name); simpl; [by rewrite app_nil_r | done].
Qed.

Lemma created_keys_own o o' : own o = own o' -> created_keys o = created_keys o'.
Proof. unfold created_keys. by intros ->. Qed.

Lemma created_keys_esm_header hasSymbol o :
  created_keys (esm_header hasSymbol o) = created_keys o.
Proof.
  unfold esm_header, toStringTag, created_keys.
  destruct hasSymbol; rewrite !own_defineProp, ?omap_app;
    repeat match goal with |- context [hasOwnProperty ?a ?b] =>
             destruct (hasOwnProperty a b) end;
    simpl; by rewrite ?app_nil_r.
Qed.

Lemma hasOwnProperty_esm_header hasSymbol o key :
  hasOwnProperty (esm_header hasSymbol o) (KString key)
  = hasOwnProperty o (KString key) || bool_decide (key = "__esModule").
Proof.
  apply eq_true_iff_eq. rewrite orb_true_iff, !hasOwnProperty_true, bool_decide_eq_true.
  rewrite getOwnProperty_esm_header.
  destruct (getOwnProperty o (KString key)) as [p|]; [by split; [left|]; eexists|].
  unfold header_property, esModule_key.
  destruct (decide (KString key = KString "__esModule")) as [[= ->]|Hne].
  - split; [by right | by eexists].
  - rewrite andb_false_r. split; [by intros [? ?]|].
    intros [[? ?]| ->]; done.
Qed.

Lemma filter_iff_in {A} (P1 P2 : A -> Prop)
    `{!forall x, Decision (P1 x), !forall x, Decision (P2 x)} (l : list A) :
  (forall x, x ∈ l -> P1 x <-> P2 x) -> filter P1 l = filter P2 l.
Proof.
  induction l as [|a l IH]; intros Hall; [done|].
  rewrite !filter_cons, IH by (intros x Hx; apply Hall, elem_of_cons; by right).
  assert (Ha : P1 a <-> P2 a) by (apply Hall, elem_of_cons; by left).
  destruct (decide (P1 a)), (decide (P2 a)); tauto.
Qed.

Lemma created_keys_esm_loop o getters :
  NoDup getters.*1 ->
  created_keys (foldl esm_step o getters)
  = created_keys o
    ++ filter (fun key => hasOwnProperty o (KString key) = false) getters.*1.
Proof.
  revert o. induction getters as [|[key g] getters IH]; intros o Hnd.
  - simpl. by rewrite app_nil_r.
  - rewrite fmap_cons in Hnd |- *. cbn [foldl fst] in *.
    apply NoDup_cons in Hnd as [Hkey Hnd]. rewrite (IH _ Hnd).
    change (esm_step o (key, g))
      with (defineProp o (KString key) (getter_descriptor g)).
    assert (Hfilter :
      filter (fun k => hasOwnProperty
                (defineProp o (KString key) (getter_descriptor g)) (KString k) = false)
             getters.*1
      = filter (fun k => hasOwnProperty o (KString k) = false) getters.*1).
    { apply filter_iff_in. intros k Hk.
      rewrite !hasOwnProperty_false, getOwnProperty_defineProp.
      destruct (getOwnProperty o (KString k)); [done|].
      rewrite decide_False; [done|]. intros [= ->]. done. }
    rewrite Hfilter, filter_cons.
    destruct o as [ps pr]. rewrite (created_keys_own _ (mkObj (ps ++
      if hasOwnProperty (mkObj ps pr) (KString key) then []
      else [(KString key, toProperty (getter_descriptor g))]) pr))
      by apply own_defineProp.
    rewrite created_keys_app.
    destruct (hasOwnProperty (mkObj ps pr) (KString key)) eqn:Hown.
    + rewrite decide_False by done. unfold created_keys at 2. simpl. by rewrite app_nil_r.
    + rewrite decide_True by done. unfold created_keys at 2. simpl.
      by rewrite <- app_assoc.
Qed.

Lemma created_keys_esm hasSymbol target getters :
  NoDup getters.*1 ->
  created_keys (esm hasSymbol target getters)
  = created_keys target
    ++ filter (fun key => hasOwnProperty target (KString key) = false
                          /\ key <> "__esModule") getters.*1.
Proof.
  intros Hnd. unfold esm. rewrite (created_keys_esm_loop _ _ Hnd), created_keys_esm_header.
  f_equal. apply list_filter_iff. intros key.
  rewrite hasOwnProperty_esm_header, orb_false_iff, bool_decide_eq_false. done.
Qed.

(** X2.  For getters with distinct names, [Object.keys] of the target
    after [esm] lists the enumerable string keys the target had and the
    names of the getters it did not own, [__esModule] apart: the array
    indices among them first, in ascending numeric order, then the other
    names, those of the target before the new ones, each group in the
    order of creation.  So when no new name is an array index, the new
    names follow the keys the target listed before.  Neither
    [__esModule] nor the symbol tag is listed. *)
Theorem esm_enumerates_exports (hasSymbol : bool) (target : Obj)
    (getters : list (string * Getter)) :
  NoDup getters.*1 ->
  let added := filter (fun key => hasOwnProperty target (KString key) = false
                                  /\ key <> "__esModule") getters.*1 in
  Object_keys (esm hasSymbol target getters) = key_order (created_keys target ++ added)
  /\ Object_keys target = key_order (created_keys target)
  /\ (forall key, key ∈ Object_keys (esm hasSymbol target getters) <->
        key ∈ Object_keys target \/ key ∈ added)
  /\ (Forall (fun key => array_index key = None) added ->
        Object_keys (esm hasSymbol target getters) = Object_keys target ++ added).
Proof.
  intros Hnd added.
  assert (E : Object_keys (esm hasSymbol target getters)
              = key_order (created_keys target ++ added))
    by (by rewrite Object_keys_created, (created_keys_esm _ _ _ Hnd)).
  split; [exact E|]. split; [apply Object_keys_created|]. split.
  - intros key. rewrite E, elem_of_Object_keys. unfold key_order.
    by rewrite OrdinaryOwnPropertyKeys_perm, elem_of_app.
  - intros Hnames. rewrite E, Object_keys_created. unfold key_order.
    apply OrdinaryOwnPropertyKeys_app_names.
    + apply Forall_forall. intros key _. simpl. by destruct (array_index key).
    + eapply Forall_impl; [exact Hnames|]. intros key Hkey. simpl. by rewrite Hkey.
Qed.

(** ** [interopEsm] *)

Lemma Obj_proto_ind (P : Obj -> Prop) :
  (forall ps, P (mkObj ps None)) ->
  (forall ps p, P p -> P (mkObj ps (Some p))) ->
  forall o, P o.
Proof.
  intros Hnone Hsome. fix IH 1. intros [ps [p|]].
  - apply Hsome, IH.
  - apply Hnone.
Qed.

Lemma assoc_replace (key : string) (g : Getter) gs k :
  assoc k ((fun e : string * Getter => if bool_decide (e.1 = key) then (key, g) else e)
             <$> gs)
  = if decide (k = key) then (if bool_decide (key ∈ gs.*1) then Some g else None)
    else assoc k gs.
Proof.
  induction gs as [|[k' g'] gs IH].
  - simpl. by destruct (decide (k = key)).
  - rewrite !fmap_cons. cbn [fst]. destruct (decide (k' = key)) as [->|Hk'].
    + rewrite (bool_decide_eq_true_2 (key = key)) by done. cbn [assoc].
      rewrite (bool_decide_eq_true_2 (key ∈ key :: gs.*1)) by (apply elem_of_cons; by left).
      by destruct (decide (k = key)).
    + rewrite (bool_decide_eq_false_2 _ Hk'). cbn [assoc]. rewrite IH.
      assert (Hb : bool_decide (key ∈ k' :: gs.*1) = bool_decide (key ∈ gs.*1)).
      { apply bool_decide_ext. rewrite elem_of_cons. naive_solver. }
      rewrite Hb.
      destruct (decide (k = k')) as [->|Hkk']; [|done].
      by rewrite decide_False.
Qed.

Lemma getter_of_set_getter gs key g k :
  getter_of (set_getter gs key g) k
  = if decide (k = key) then Some g else getter_of gs k.
Proof.
  unfold getter_of, set_getter. destruct (decide (key ∈ gs.*1)) as [Hin|Hin].
  - rewrite (bool_decide_eq_true_2 _ Hin), assoc_replace.
    by rewrite (bool_decide_eq_true_2 _ Hin).
  - rewrite (bool_decide_eq_false_2 _ Hin), assoc_app. simpl.
    destruct (decide (k = key)) as [->|Hk].
    + apply assoc_None_fst in Hin. by rewrite Hin.
    + by destruct (assoc k gs).
Qed.

Lemma getter_of_keys gs k : k ∈ gs.*1 <-> is_Some (getter_of gs k).
Proof.
  unfold getter_of. destruct (assoc k gs) eqn:E.
  - split; [by eexists|]. intros _. destruct (decide (k ∈ gs.*1)) as [|Hn]; [done|].
    apply assoc_None_fst in Hn. congruence.
  - apply assoc_None_fst in E. split; [done|]. by intros [? ?].
Qed.

Lemma getter_of_set_all raw names gs k :
  getter_of (foldl (fun gs key => set_getter gs key (createGetter raw key)) gs names) k
  = if bool_decide (k ∈ names) then Some (createGetter raw k) else getter_of gs k.
Proof.
  revert gs. induction names as [|n names IH]; intros gs.
  - done.
  - cbn [foldl]. rewrite IH, getter_of_set_getter.
    destruct (decide (k ∈ names)) as [Hin|Hin].
    + rewrite (bool_decide_eq_true_2 _ Hin).
      by rewrite bool_decide_eq_true_2 by (apply elem_of_cons; by right).
    + rewrite (bool_decide_eq_false_2 _ Hin).
      destruct (decide (k = n)) as [->|Hne].
      * by rewrite bool_decide_eq_true_2 by (apply elem_of_cons; by left).
      * rewrite bool_decide_eq_false_2; [done|].
        rewrite elem_of_cons. tauto.
Qed.

(** The loop leaves, for each name it visits, the getter that reads that
    name on [raw], and keeps the other getters. *)
Lemma getter_of_interop_loop leaf raw current gs k :
  getter_of (interop_loop leaf raw current gs) k
  = if bool_decide (k ∈ chain_names leaf current) then Some (createGetter raw k)
    else getter_of gs k.
Proof.
  revert gs. induction current as [ps|ps p IH] using Obj_proto_ind; intros gs.
  - cbn [interop_loop chain_names]. destruct (leaf (mkObj ps None)).
    + by rewrite bool_decide_eq_false_2 by apply not_elem_of_nil.
    + rewrite getter_of_set_all, app_nil_r. done.
  - cbn [interop_loop chain_names]. destruct (leaf (mkObj ps (Some p))).
    + by rewrite bool_decide_eq_false_2 by apply not_elem_of_nil.
    + rewrite IH, getter_of_set_all.
      destruct (decide (k ∈ chain_names leaf p)) as [Hp|Hp].
      * rewrite (bool_decide_eq_true_2 _ Hp).
        by rewrite bool_decide_eq_true_2 by (apply elem_of_app; by right).
      * rewrite (bool_decide_eq_false_2 _ Hp).
        apply (f_equal (fun b : bool => if b then _ else _)).
        apply bool_decide_ext. rewrite elem_of_app. tauto.
Qed.

Lemma getter_of_interop_getters leaf raw allow k :
  getter_of (interop_getters leaf raw allow) k
  = match raw_object raw with
    | Some o =>
        if decide (k = "default")
        then Some (if allow && bool_decide ("default" ∈ chain_names leaf o)
                   then createGetter o "default"
                   else fun _ => raw_value raw)
        else if bool_decide (k ∈ chain_names leaf o) then Some (createGetter o k)
             else None
    | None => if decide (k = "default") then Some (fun _ => raw_value raw) else None
    end.
Proof.
  unfold interop_getters. destruct (raw_object raw) as [o|].
  - assert (Hd : bool_decide ("default" ∈ (interop_loop leaf o o []).*1)
                 = bool_decide ("default" ∈ chain_names leaf o)).
    { apply bool_decide_ext. rewrite getter_of_keys, getter_of_interop_loop.
      destruct (bool_decide ("default" ∈ chain_names leaf o)) eqn:E.
      - apply bool_decide_eq_true in E. split; [done|by eexists].
      - apply bool_decide_eq_false in E. split; [by intros [? ?]|done]. }
    rewrite Hd. destruct (allow && bool_decide ("default" ∈ chain_names leaf o)) eqn:Hb;
      simpl.
    + rewrite getter_of_interop_loop. destruct (decide (k = "default")) as [->|Hk]; [|done].
      apply andb_true_iff in Hb as [_ Hb]. by rewrite Hb.
    + rewrite getter_of_set_getter. destruct (decide (k = "default")); [done|].
      by rewrite getter_of_interop_loop.
  - rewrite andb_false_r. simpl. rewrite getter_of_set_getter.
    by destruct (decide (k = "default")).
Qed.

Lemma getter_of_for_in (gs : list (string * Getter)) key :
  NoDup gs.*1 -> getter_of (for_in gs) key = getter_of gs key.
Proof.
  intros Hnd. unfold getter_of, for_in.
  assert (Hnd' : NoDup (OrdinaryOwnPropertyKeys (fun e : string * Getter => KString e.1)
                          gs).*1)
    by (by rewrite OrdinaryOwnPropertyKeys_perm).
  destruct (assoc key gs) as [g|] eqn:E.
  - apply (assoc_Some_NoDup _ _ _ Hnd'). rewrite OrdinaryOwnPropertyKeys_perm.
    by apply (assoc_Some_NoDup _ _ _ Hnd).
  - apply assoc_None_fst. rewrite OrdinaryOwnPropertyKeys_perm.
    by apply assoc_None_fst.
Qed.

Lemma set_getter_keys gs key g :
  (set_getter gs key g).*1 = if bool_decide (key ∈ gs.*1) then gs.*1 else gs.*1 ++ [key].
Proof.
  unfold set_getter. destruct (bool_decide (key ∈ gs.*1)).
  - induction gs as [|[k' g'] gs IH]; [done|]. rewrite !fmap_cons, IH. cbn [fst].
    by destruct (bool_decide (k' = key)) eqn:E; [apply bool_decide_eq_true in E as ->|].
  - by rewrite fmap_app.
Qed.

Lemma set_getter_NoDup gs key g : NoDup gs.*1 -> NoDup (set_getter gs key g).*1.
Proof.
  intros Hnd. rewrite set_getter_keys. destruct (decide (key ∈ gs.*1)) as [Hin|Hin].
  - by rewrite (bool_decide_eq_true_2 _ Hin).
  - rewrite (bool_decide_eq_false_2 _ Hin). apply NoDup_app. split; [done|].
    split; [|apply NoDup_singleton]. intros k Hk Hk'.
    apply list_elem_of_singleton in Hk'. by subst.
Qed.

Lemma interop_loop_NoDup leaf raw current gs :
  NoDup gs.*1 -> NoDup (interop_loop leaf raw current gs).*1.
Proof.
  assert (Hall : forall names gs0, NoDup gs0.*1 ->
            NoDup (foldl (fun gs key => set_getter gs key (createGetter raw key))
                     gs0 names).*1).
  { induction names as [|n names IH]; intros gs0 H0; [done|].
    cbn [foldl]. by apply IH, set_getter_NoDup. }
  revert gs. induction current as [ps|ps p IH] using Obj_proto_ind; intros gs Hnd.
  - cbn [interop_loop]. destruct (leaf (mkObj ps None)); [done|]. by apply Hall.
  - cbn [interop_loop]. destruct (leaf (mkObj ps (Some p))); [done|]. by apply IH, Hall.
Qed.

Lemma interop_getters_NoDup leaf raw allow : NoDup (interop_getters leaf raw allow).*1.
Proof.
  assert (H : NoDup (match raw_object raw with
                     | Some o => interop_loop leaf o o []
                     | None => []
                     end).*1).
  { destruct (raw_object raw); [|constructor]. apply interop_loop_NoDup. constructor. }
  unfold interop_getters.
  destruct (negb (allow && bool_decide ("default" ∈ _))); [|done].
  by apply set_getter_NoDup.
Qed.

Lemma interopEsm_own hasSymbol leaf raw ns allow key :
  key <> "__esModule" ->
  getOwnProperty ns (KString key) = None ->
  getOwnProperty (interopEsm hasSymbol leaf raw ns allow) (KString key)
  = installed <$> getter_of (interop_getters leaf raw allow) key.
Proof.
  intros Hkey Hns. unfold interopEsm. rewrite getOwnProperty_esm, Hns.
  unfold header_property. rewrite decide_False by (unfold esModule_key; congruence).
  rewrite andb_false_r. by rewrite getter_of_for_in by apply interop_getters_NoDup.
Qed.

(** X3.  The [default] export of [interopEsm], on a namespace object
    without an own [default]: with [allowExportDefault] and a [default]
    among the names found on [raw] below the leaf prototypes, it reads
    [raw.default]; in every other case (also when [raw] is [null] or not
    an object) it is [raw] itself. *)
Theorem interopEsm_default (hasSymbol : bool) (leaf : Obj -> bool) (raw : RawExports)
    (ns : Obj) (allowExportDefault : bool) :
  hasOwnProperty ns (KString "default") = false ->
  Reflect_get (interopEsm hasSymbol leaf raw ns allowExportDefault) (KString "default")
  = match raw_object raw with
    | Some o =>
        if allowExportDefault && bool_decide ("default" ∈ chain_names leaf o)
        then Reflect_get o (KString "default")
        else raw_value raw
    | None => raw_value raw
    end.
Proof.
  intros Hns. apply hasOwnProperty_false in Hns.
  pose proof (interopEsm_own hasSymbol leaf raw ns allowExportDefault "default"
                ltac:(done) Hns) as Hown.
  rewrite getter_of_interop_getters in Hown.
  destruct (raw_object raw) as [o|]; simpl in Hown.
  - rewrite (Reflect_get_own _ _ _ Hown). simpl.
    by destruct (allowExportDefault && bool_decide ("default" ∈ chain_names leaf o)).
  - by rewrite (Reflect_get_own _ _ _ Hown).
Qed.

(** X4.  The named exports of [interopEsm], on a namespace object that
    does not own the name: a name found on [raw] or on one of its
    prototypes below the leaf prototypes reads [raw[name]] (so a name on
    a prototype reads through the whole chain of [raw]); a name found
    nowhere there (one that only a leaf prototype has, say) is not
    installed; and when [raw] is [null] or not an object nothing but
    [default] is. *)
Theorem interopEsm_names (hasSymbol : bool) (leaf : Obj -> bool) (raw : RawExports)
    (ns : Obj) (allowExportDefault : bool) (key : string) :
  key <> "default" -> key <> "__esModule" ->
  hasOwnProperty ns (KString key) = false ->
  match raw_object raw with
  | Some o =>
      (key ∈ chain_names leaf o ->
         Reflect_get (interopEsm hasSymbol leaf raw ns allowExportDefault) (KString key)
         = Reflect_get o (KString key))
      /\ (key ∉ chain_names leaf o ->
            hasOwnProperty (interopEsm hasSymbol leaf raw ns allowExportDefault)
              (KString key) = false)
  | None =>
      hasOwnProperty (interopEsm hasSymbol leaf raw ns allowExportDefault) (KString key)
      = false
  end.
Proof.
  intros Hd He Hns. apply hasOwnProperty_false in Hns.
  pose proof (interopEsm_own hasSymbol leaf raw ns allowExportDefault key He Hns) as Hown.
  rewrite getter_of_interop_getters in Hown.
  destruct (raw_object raw) as [o|]; rewrite decide_False in Hown by done.
  - split; intros Hin.
    + rewrite (bool_decide_eq_true_2 _ Hin) in Hown.
      by rewrite (Reflect_get_own _ _ _ Hown).
    + rewrite (bool_decide_eq_false_2 _ Hin) in Hown. by apply hasOwnProperty_false.
  - by apply hasOwnProperty_false.
Qed.

(** ** [requireContext]: the keys and the lookups agree *)

(** X5.  [keys()] lists exactly the keys the map owns: for a listed key
    [resolve] returns the [id()] of its entry and a call hands that entry
    to [commonJsRequireContext].  For a key that is not listed the lookup
    [map[key]] goes on to the prototype of the map: when that gives
    nothing that passes [if], always so for a map without prototype, both
    the call and [resolve] throw the error that names the key and leave
    the registry as it was; when it gives a value that passes [if], as
    [Object.prototype] does for ["toString"] or ["constructor"], no such
    error is thrown: the call hands the inherited value to
    [commonJsRequireContext] and [resolve] calls its [id]. *)
Theorem requireContext_keys_resolve (Registry : Type)
    (commonJsRequireContext :
       MapValue -> Module -> Registry -> completion value * Registry)
    (inherited_id : value -> Registry -> completion ModuleId * Registry)
    (sourceModule : Module) (map : RequireContextMap) (registry : Registry)
    (key : ModuleId) :
  let context :=
    requireContext Registry commonJsRequireContext inherited_id sourceModule map in
  (key ∈ keys context tt <->
     exists entry, assoc key (map_entries map) = Some entry
       /\ resolve context key registry = (Return (id entry tt), registry)
       /\ call context key registry
          = commonJsRequireContext (Entry entry) sourceModule registry)
  /\ (key ∉ keys context tt ->
      truthy (inherited map key) = false ->
        resolve context key registry = (Throw (not_in_context "resolved" key), registry)
        /\ call context key registry
           = (Throw (not_in_context "required" key), registry))
  /\ (key ∉ keys context tt ->
      truthy (inherited map key) = true ->
        resolve context key registry = inherited_id (inherited map key) registry
        /\ call context key registry
           = commonJsRequireContext (Inherited (inherited map key)) sourceModule registry)
  /\ (map_proto map = None -> truthy (inherited map key) = false).
Proof.
  intros context. unfold context.
  assert (Hin : key ∈ keys (requireContext Registry commonJsRequireContext inherited_id
                             sourceModule map) tt <-> key ∈ (map_entries map).*1).
  { rewrite requireContext_keys. unfold key_order.
    by rewrite OrdinaryOwnPropertyKeys_perm. }
  split; [|split; [|split]].
  - rewrite Hin. split.
    + intros Hkey. destruct (assoc key (map_entries map)) as [entry|] eqn:E.
      * exists entry. split; [done|]. by apply requireContext_entry.
      * by apply assoc_None_fst in E.
    + intros (entry & Hentry & _). destruct (decide (key ∈ (map_entries map).*1)); [done|].
      apply assoc_None_fst in n. congruence.
  - intros Hkey Hv. rewrite Hin in Hkey.
    by destruct (requireContext_missing Registry commonJsRequireContext inherited_id
                   sourceModule map key registry Hkey Hv).
  - intros Hkey Hv. rewrite Hin in Hkey. apply assoc_None_fst in Hkey.
    unfold requireContext, map_get; simpl. by rewrite Hkey; simpl; rewrite Hv.
  - intros Hproto. unfold inherited. by rewrite Hproto.
Qed.

(** ** [wrapDeps] *)

Lemma extends_refl st : extends st st.
Proof.
  split; [exists []; by rewrite app_nil_r|].
  split; [exists []; by rewrite app_nil_r|].
  split; [exists []; by rewrite app_nil_r|]. done.
Qed.

Lemma extends_trans st1 st2 st3 : extends st1 st2 -> extends st2 st3 -> extends st1 st3.
Proof.
  intros ((nq1 & A1 & A1') & (nx1 & A2) & (nt1 & A3) & A4 & A5 & A6)
         ((nq2 & B1 & B1') & (nx2 & B2) & (nt2 & B3) & B4 & B5 & B6).
  split; [exists (nq1 ++ nq2); rewrite B1, A1, app_assoc; split; [done|by apply Forall_app]|].
  split; [exists (nx1 ++ nx2); by rewrite B2, A2, app_assoc|].
  split; [exists (nt1 ++ nt2); by rewrite B3, A3, app_assoc|].
  by rewrite B4, B5, B6.
Qed.

Lemma thenable_wrapper_extends st sta st' p now d :
  extends sta st' -> thenable_wrapper st sta p now d -> thenable_wrapper st st' p now d.
Proof.
  intros ((nq & Hq & _) & (nx & Hx) & (nt & Ht) & _) (q & H1 & H2 & H3 & H4 & H5).
  exists q.
  split; [rewrite Hx; by apply lookup_app_l_Some|].
  split; [rewrite Hq; by apply lookup_app_l_Some|].
  split; [done|]. split; [done|]. rewrite Ht. apply elem_of_app. by left.
Qed.

Lemma wrapper_of_extends st sta st' dep d :
  extends sta st' -> wrapper_of st sta dep d -> wrapper_of st st' dep d.
Proof.
  intros Hext. destruct dep; simpl; try done;
    try apply (thenable_wrapper_extends _ _ _ _ _ _ Hext).
  all: destruct Hext as (_ & (nx & Hx) & _);
    intros [H1 H2]; (split; [rewrite Hx; by apply lookup_app_l_Some | done]).
Qed.

(** The calls a thenable makes from its [then] reach the fresh wrapper
    and the fresh queue only: the wrapper takes the values, and the
    queue, which holds nothing yet, becomes resolved. *)
Lemma then_calls_back_fresh now qs cs xs ss ts cl b v err :
  foldl (then_calls_back (length xs) (length qs))
    (mkStore (qs ++ [mkQueue b []]) cs
       (xs ++ [mkExt v err (QueuesOne (length qs))]) ss ts cl) now
  = mkStore (qs ++ [mkQueue (b || called_back now) []]) cs
      (xs ++ [mkExt
                (foldl (fun (v : value) (c : bool * value) => if c.1 then c.2 else v)
                   v now)
                (foldl (fun (e : value) (c : bool * value) => if c.1 then e else c.2)
                   err now)
                (QueuesOne (length qs))]) ss ts cl.
Proof.
  revert b v err. induction now as [|[ok w] now IH]; intros b v err.
  - simpl. by rewrite orb_false_r.
  - cbn [foldl called_back fst snd].
    assert (Hstep : forall v' err',
              resolveQueue (Some (length qs))
                (mkStore (qs ++ [mkQueue b []]) cs
                   (xs ++ [mkExt v' err' (QueuesOne (length qs))]) ss ts cl)
              = mkStore (qs ++ [mkQueue true []]) cs
                  (xs ++ [mkExt v' err' (QueuesOne (length qs))]) ss ts cl).
    { intros v' err'. unfold resolveQueue. cbn [queues].
      rewrite list_lookup_middle by done. destruct b; cbn [resolved negb fns].
      - done.
      - unfold decrement_pass, call_pass, set_resolved, with_queues. cbn [foldl queues].
        cbn. by rewrite alter_app_r_alt, Nat.sub_diag by done. }
    assert (Hcall : then_calls_back (length xs) (length qs)
                      (mkStore (qs ++ [mkQueue b []]) cs
                         (xs ++ [mkExt v err (QueuesOne (length qs))]) ss ts cl) (ok, w)
                    = mkStore (qs ++ [mkQueue true []]) cs
                        (xs ++ [mkExt (if ok then w else v) (if ok then err else w)
                                  (QueuesOne (length qs))]) ss ts cl).
    { unfold then_calls_back, onFulfilled, onRejected, with_exts. cbn [fst snd exts
        queues continuations scopes thens called].
      rewrite !alter_app_r_alt, !Nat.sub_diag by done. cbn [alter list_alter].
      cbn [turbopackExports turbopackError turbopackQueues].
      destruct ok; apply Hstep. }
    rewrite Hcall, IH. cbn. by rewrite orb_true_r.
Qed.

Lemma wrap_thenable_spec p now st :
  wrap_thenable p now st
  = (length (exts st),
     mkStore (queues st ++ [mkQueue (called_back now) []]) (continuations st)
       (exts st ++ [mkExt (last_fulfilled now) (last_rejected now)
                      (QueuesOne (length (queues st)))])
       (scopes st) (thens st ++ [(p, length (exts st), length (queues st))])
       (called st)).
Proof.
  unfold wrap_thenable, with_thens, with_exts, with_queues.
  cbn [queues continuations exts scopes thens called].
  by rewrite then_calls_back_fresh.
Qed.

Lemma wrap_thenable_extends st p now :
  extends st (wrap_thenable p now st).2
  /\ thenable_wrapper st (wrap_thenable p now st).2 p now (wrap_thenable p now st).1
  /\ is_Some (exts (wrap_thenable p now st).2 !! (wrap_thenable p now st).1).
Proof.
  rewrite wrap_thenable_spec. cbn [fst snd]. split; [|split].
  - split; [eexists; split; [done|by repeat constructor]|].
    split; [by eexists|]. split; [by eexists|]. done.
  - exists (length (queues st)). cbn [exts queues thens].
    split; [by apply list_lookup_middle|].
    split; [by apply list_lookup_middle|].
    split; [done|]. split; [done|]. apply elem_of_app. right.
    by apply list_elem_of_singleton.
  - cbn [exts]. rewrite list_lookup_middle by done. by eexists.
Qed.

Lemma wrapDep_extends st dep :
  (forall e, dep = VAsyncModule e -> (e < length (exts st))%nat) ->
  extends st (wrapDep dep st).2
  /\ wrapper_of st (wrapDep dep st).2 dep (wrapDep dep st).1
  /\ is_Some (exts (wrapDep dep st).2 !! (wrapDep dep st).1).
Proof.
  intros Hvalid. destruct dep;
    try apply wrap_thenable_extends; simpl.
  1-9: (split; [|split; [split; [by apply list_lookup_middle | done]
                        | rewrite list_lookup_middle by done; by eexists]];
        split; [exists []; by rewrite app_nil_r|];
        split; [by eexists|];
        split; [exists []; by rewrite app_nil_r|]; done).
  split; [apply extends_refl|]. split; [done|].
  apply lookup_lt_is_Some. by apply Hvalid.
Qed.

Lemma extends_ext_length st st' : extends st st' -> (length (exts st) <= length (exts st'))%nat.
Proof. intros (_ & (nx & ->) & _). rewrite length_app. lia. Qed.

Lemma extends_queue_length st st' :
  extends st st' -> (length (queues st) <= length (queues st'))%nat.
Proof. intros ((nq & -> & _) & _). rewrite length_app. lia. Qed.

Lemma wrapper_of_weaken st sta st' dep d :
  extends st sta -> wrapper_of sta st' dep d -> wrapper_of st st' dep d.
Proof.
  intros Hext. pose proof (extends_ext_length _ _ Hext).
  pose proof (extends_queue_length _ _ Hext).
  destruct dep; simpl; try done; try (intros [H1 H2]; split; [done|lia]).
  all: intros (q & H1 & H2 & H3 & H4 & H5); exists q;
    repeat (split; [done || lia|]); done.
Qed.

(** X6.  [wrapDeps] returns one entry per dependency, in order, and each
    entry is an object of the resulting store with the three capabilities
    (given that the objects with [turbopackQueues] among the dependencies
    are objects of the store): the dependency itself when it has them; a
    wrapper with a queue of its own for a thenable, which holds [{}], no
    error and an unresolved queue when [then] returned without calling
    back, and holds what the callbacks stored, with the queue resolved,
    when [then] called back while it ran; a wrapper around the value with
    the no-op queues function otherwise.  The call only adds such
    wrappers, queues that hold no continuation and [then] callbacks:
    every existing queue, object, continuation, scope and the log of
    calls are as before. *)
Theorem wrapDeps_wrappers (deps : list value) (st : Store) :
  (forall e, VAsyncModule e ∈ deps -> (e < length (exts st))%nat) ->
  length (wrapDeps deps st).1 = length deps
  /\ Forall2 (wrapper_of st (wrapDeps deps st).2) deps (wrapDeps deps st).1
  /\ (forall d, d ∈ (wrapDeps deps st).1 -> is_Some (exts (wrapDeps deps st).2 !! d))
  /\ extends st (wrapDeps deps st).2.
Proof.
  revert st. induction deps as [|dep deps IH]; intros st Hvalid; simpl.
  - split; [done|]. split; [constructor|]. split; [|apply extends_refl].
    intros d Hd. by apply elem_of_nil in Hd.
  - destruct (wrapDep_extends st dep) as (He & Hw & Hs).
    { intros e ->. apply Hvalid, elem_of_cons. by left. }
    destruct (wrapDep dep st) as [d sta]. simpl in He, Hw, Hs.
    destruct (IH sta) as (Hlen & Hall & Hvalid' & He').
    { intros e Hin. pose proof (extends_ext_length _ _ He).
      assert (e < length (exts st))%nat; [|lia]. apply Hvalid, elem_of_cons. by right. }
    destruct (wrapDeps deps sta) as [ds st']. simpl in *.
    split; [by rewrite Hlen|]. split; [|split].
    + constructor.
      * by apply (wrapper_of_extends st sta st' dep d He').
      * eapply Forall2_impl; [exact Hall|]. intros dep' d'. by apply wrapper_of_weaken.
    + intros d' Hd'. apply elem_of_cons in Hd' as [->|Hd']; [|by apply Hvalid'].
      destruct Hs as [x Hx]. destruct He' as (_ & (nx & ->) & _).
      exists x. by apply lookup_app_l_Some.
    + by apply (extends_trans _ sta).
Qed.

(** ** [handleAsyncDependencies] on plain values and on one thenable *)

Lemma settled_plain st dep : is_plain dep = true -> settled_dep st dep = true.
Proof. by destruct dep. Qed.

Lemma plain_snapshot st dep :
  is_plain dep = true -> dep_error st dep = VUndefined /\ dep_exports st dep = dep.
Proof. by destruct dep. Qed.

Lemma register_settled_store scope deps st :
  Forall (fun dep => settled_dep st dep = true) deps ->
  exists ds fn st',
    register scope deps st = (ds, fn, st')
    /\ count_of st' fn = 0
    /\ Forall2 (holds st st') deps ds
    /\ queues st' = queues st /\ called st' = called st /\ thens st' = thens st
    /\ continuations st' = continuations st ++ [mkFn 0 ds].
Proof.
  intros Hall. unfold register.
  destruct (wrapDeps_settled deps st Hall) as [Hg Hw].
  destruct (wrapDeps deps st) as [ds st1]. simpl in Hg, Hw.
  rewrite register_queues_offered.
  set (fn := length (continuations st1)).
  set (st2 := with_continuations (fun l => l ++ [mkFn 0 ds]) st1).
  destruct (foldl_fnQueue_resolved scope fn
              (concat (offered st2 <$> ds)) st2) as [added Hfold].
  { intros q Hq. apply elem_of_concat in Hq as (qs & Hq & Hqs).
    apply list_elem_of_fmap in Hqs as (d & -> & Hd).
    destruct (Forall2_elem_r _ _ _ _ Hw Hd) as (dep & _ & x & _ & _ & _ & Hres).
    by apply Hres. }
  destruct Hg as (G1 & G2 & G3 & G4 & G5 & _).
  eexists _, _, _. split; [done|]. rewrite Hfold. split; [|split].
  - unfold count_of, fn. simpl. by rewrite list_lookup_middle.
  - eapply Forall2_impl; [exact Hw|]. intros dep d (x & Hx & He & Hv & _).
    by exists x.
  - simpl. by rewrite G1, G2, G4, G5.
Qed.

(** X7.  A call of [handleAsyncDependencies] whose dependencies are all
    plain values (no thenable, no object with [turbopackQueues]) returns
    at once the array of those same values, in order; it pushes nothing
    on any queue, calls no continuation, attaches no [then] callback, and
    leaves the stored continuations as they were. *)
Theorem handleAsyncDependencies_plain (scope : nat) (deps : list value) (st : Store) :
  Forall (fun dep => is_plain dep = true) deps ->
  exists st',
    handleAsyncDependencies scope deps st = (Results deps, st')
    /\ queues st' = queues st /\ called st' = called st /\ thens st' = thens st
    /\ forall f c, continuations st !! f = Some c -> continuations st' !! f = Some c.
Proof.
  intros Hplain.
  assert (Hall : Forall (fun dep => settled_dep st dep = true) deps).
  { eapply Forall_impl; [exact Hplain|]. intros dep. apply settled_plain. }
  destruct (register_settled_store scope deps st Hall)
    as (ds & fn & st' & Hreg & Hc & Hh & Hq & Hcalled & Ht & Hconts).
  exists st'. unfold handleAsyncDependencies. rewrite Hreg, Hc. simpl.
  rewrite (getResult_holds_return st st' deps ds Hh).
  - assert (Hid : dep_exports st <$> deps = deps).
    { clear -Hplain. induction Hplain as [|dep deps Hdep _ IH]; [done|].
      rewrite fmap_cons, IH. by destruct (plain_snapshot st dep Hdep) as [_ ->]. }
    rewrite Hid. repeat (split; [done|]).
    intros f c Hf. rewrite Hconts. by apply lookup_app_l_Some.
  - eapply Forall_impl; [exact Hplain|]. intros dep Hdep.
    by destruct (plain_snapshot st dep Hdep) as [-> _].
Qed.

Lemma sublist_singleton {A} (l : list A) (x : A) :
  l `sublist_of` [x] -> x ∈ l -> l = [x].
Proof.
  intros Hsub Hin. apply sublist_length in Hsub. simpl in Hsub.
  destruct l as [|a [|b l]]; simpl in Hsub; [by apply elem_of_nil in Hin| |lia].
  apply list_elem_of_singleton in Hin. by subst.
Qed.

Lemma resolveQueue_currentDeps queue st f :
  currentDeps <$> continuations (resolveQueue queue st) !! f
  = currentDeps <$> continuations st !! f.
Proof.
  destruct queue as [q|]; [|done].
  destruct (queues st !! q) as [aq|] eqn:Hq; [|by unfold resolveQueue; rewrite Hq].
  destruct (resolved aq) eqn:Hres.
  - by rewrite (resolveQueue_resolved _ _ _ Hq Hres).
  - destruct (resolveQueue_spec _ _ _ Hq Hres) as (new & -> & _). simpl.
    rewrite list_lookup_imap. by destruct (continuations st !! f).
Qed.

(** Resolving a queue that holds one continuation, whose count is one:
    that continuation is called. *)
Lemma resolveQueue_last q fn st :
  queues st !! q = Some (mkQueue false [fn]) ->
  has_count st fn 1 ->
  called (resolveQueue (Some q) st) = called st ++ [fn].
Proof.
  intros Hq Hc.
  destruct (resolveQueue_spec q _ st Hq eq_refl) as (new & -> & _ & Hsub & Hin).
  simpl in *. f_equal. apply sublist_singleton; [done|]. apply Hin.
  split; [by apply list_elem_of_singleton|].
  rewrite occurrences_cons, occurrences_nil, decide_True by done. exact Hc.
Qed.

Lemma getResult_one st d x :
  exts st !! d = Some x ->
  getResult st [d]
  = if truthy (turbopackError x) then Throw (turbopackError x)
    else Return [turbopackExports x].
Proof. intros Hx. cbn [getResult]. rewrite Hx. by destruct (truthy (turbopackError x)). Qed.

(** The store after [handleAsyncDependencies([thenable])] for a thenable
    whose [then] has called back: the queue of the wrapper is resolved
    when it is offered, so the continuation is pushed nowhere. *)
Lemma register_sync_thenable scope p now st :
  now <> [] ->
  exists added,
    register scope [VThenable p now] st
    = ([length (exts st)], length (continuations st),
       mkStore (queues st ++ [mkQueue true []])
         (continuations st ++ [mkFn 0 [length (exts st)]])
         (exts st ++ [mkExt (last_fulfilled now) (last_rejected now)
                        (QueuesOne (length (queues st)))])
         (alter (extend_depQueues added) scope (scopes st))
         (thens st ++ [(p, length (exts st), length (queues st))])
         (called st)).
Proof.
  intros Hnow. assert (Hcb : called_back now = true) by (by destruct now).
  unfold register. cbn [wrapDeps wrapDep]. rewrite wrap_thenable_spec, Hcb.
  cbn beta iota zeta. rewrite register_queues_offered.
  set (st2 := with_continuations _ _).
  destruct (foldl_fnQueue_resolved scope (length (continuations st))
              (concat (offered st2 <$> [length (exts st)])) st2) as [added Hfold].
  { intros q Hq. unfold offered, st2 in Hq. simpl in Hq.
    rewrite list_lookup_middle in Hq by done. simpl in Hq.
    apply list_elem_of_singleton in Hq as ->.
    unfold unresolved. simpl. by rewrite list_lookup_middle. }
  exists added. cbn [continuations] in *. rewrite Hfold. done.
Qed.

(** The store after [handleAsyncDependencies([thenable])]. *)
Lemma register_thenable scope s p st :
  scopes st !! scope = Some s ->
  scope_in_store st s ->
  register scope [VPromise p] st
  = ([length (exts st)], length (continuations st),
     mkStore (queues st ++ [mkQueue false [length (continuations st)]])
       (continuations st ++ [mkFn 1 [length (exts st)]])
       (exts st ++ [mkExt VEmpty VUndefined (QueuesOne (length (queues st)))])
       (alter (extend_depQueues [length (queues st)]) scope (scopes st))
       (thens st ++ [(p, length (exts st), length (queues st))])
       (called st)).
Proof.
  intros Hs [Hself Hdeps]. unfold register, wrapDeps, wrapDep.
  cbn beta iota zeta. f_equal.
  set (q := length (queues st)). set (e := length (exts st)).
  set (fn := length (continuations st)).
  unfold register_queues. cbn [foldl]. rewrite call_turbopackQueues_offered.
  set (st2 := with_continuations _ _).
  assert (Hoff : offered st2 e = [q]).
  { unfold offered, st2. simpl. by rewrite list_lookup_middle. }
  rewrite Hoff. cbn [foldl].
  match goal with |- fnQueue scope ?x st2 q = _ => change x with fn end.
  rewrite (fnQueue_push scope fn st2 q s).
  - unfold st2. destruct st as [qs cs xs ss ts cl]. simpl in *.
    unfold push_fn, add_queueCount, add_depQueue, with_queues, with_continuations,
      with_scopes, with_exts, with_thens. simpl. f_equal.
    + rewrite alter_app_r_alt by done. by rewrite Nat.sub_diag.
    + rewrite alter_app_r_alt by done. by rewrite Nat.sub_diag.
  - done.
  - intros Heq. symmetry in Heq. apply Hself in Heq. unfold q in Heq. lia.
  - intros Hin. apply Hdeps in Hin. unfold q in Hin. lia.
  - apply unresolved_true. exists (mkQueue false []). split; [|done].
    unfold st2. simpl. by apply list_lookup_middle.
Qed.

(** X8.  A thenable dependency.  When its [then] returns without having
    called back, as that of a native promise does, the call of
    [handleAsyncDependencies] returns the promise and attaches the
    callbacks, calling nothing; when the thenable fulfils later, its
    callback calls the continuation and the consumer reads the value it
    fulfilled with; when it rejects with a reason that passes [if], the
    continuation is called and the read throws the reason; when it
    rejects with a reason that fails [if] ([undefined], [0], ...), the
    read returns the [{}] the wrapper started with.  When its [then]
    calls back while it runs, the queue of the wrapper is resolved before
    the continuation could be pushed on it, and the call does not wait:
    it throws the last reason [onRejected] was called with when that
    passes [if], and else returns the array with the last value
    [onFulfilled] was called with ([{}] when it was not called). *)
Theorem thenable_dependency_resumes (scope : nat) (s : AsyncScope) (p : nat)
    (st : Store) :
  scopes st !! scope = Some s ->
  scope_in_store st s ->
  let fn := length (continuations st) in
  let obj := length (exts st) in
  let q := length (queues st) in
  let st1 := (handleAsyncDependencies scope [VPromise p] st).2 in
  (handleAsyncDependencies scope [VPromise p] st).1 = Deferred fn
  /\ thens st1 = thens st ++ [(p, obj, q)]
  /\ called st1 = called st
  /\ (forall res,
        called (onFulfilled obj q res st1) = called st ++ [fn]
        /\ read_results (onFulfilled obj q res st1) fn = Return [res])
  /\ (forall err, truthy err = true ->
        called (onRejected obj q err st1) = called st ++ [fn]
        /\ read_results (onRejected obj q err st1) fn = Throw err)
  /\ (forall err, truthy err = false ->
        called (onRejected obj q err st1) = called st ++ [fn]
        /\ read_results (onRejected obj q err st1) fn = Return [VEmpty])
  /\ handleAsyncDependencies scope [VThenable p []] st
     = handleAsyncDependencies scope [VPromise p] st
  /\ (forall now, now <> [] ->
        (handleAsyncDependencies scope [VThenable p now] st).1
        = (if truthy (last_rejected now) then Thrown (last_rejected now)
           else Results [last_fulfilled now])
        /\ called (handleAsyncDependencies scope [VThenable p now] st).2 = called st
        /\ thens (handleAsyncDependencies scope [VThenable p now] st).2
           = thens st ++ [(p, obj, q)]
        /\ queues (handleAsyncDependencies scope [VThenable p now] st).2
           = queues st ++ [mkQueue true []]).
Proof.
  intros Hs Hin fn obj q st1.
  assert (Hsync : forall now, now <> [] ->
            (handleAsyncDependencies scope [VThenable p now] st).1
            = (if truthy (last_rejected now) then Thrown (last_rejected now)
               else Results [last_fulfilled now])
            /\ called (handleAsyncDependencies scope [VThenable p now] st).2 = called st
            /\ thens (handleAsyncDependencies scope [VThenable p now] st).2
               = thens st ++ [(p, obj, q)]
            /\ queues (handleAsyncDependencies scope [VThenable p now] st).2
               = queues st ++ [mkQueue true []]).
  { intros now Hnow. destruct (register_sync_thenable scope p now st Hnow) as [added Hreg].
    unfold handleAsyncDependencies. rewrite Hreg. unfold count_of.
    cbn [continuations]. rewrite list_lookup_middle by done. cbn.
    rewrite list_lookup_middle by done. cbn.
    by destruct (truthy (last_rejected now)). }
  assert (Hh : handleAsyncDependencies scope [VPromise p] st
               = (Deferred fn, (register scope [VPromise p] st).2)).
  { unfold handleAsyncDependencies. rewrite (register_thenable _ _ _ _ Hs Hin).
    unfold count_of. simpl. by rewrite list_lookup_middle. }
  unfold st1. rewrite Hh. cbn [fst snd].
  rewrite (register_thenable _ _ _ _ Hs Hin). cbn [fst snd].
  fold fn obj q. set (st2 := mkStore _ _ _ _ _ _).
  assert (Hq : forall g, queues (with_exts g st2) !! q = Some (mkQueue false [fn]))
    by (intros g; simpl; by apply list_lookup_middle).
  assert (Hc : forall g, has_count (with_exts g st2) fn 1)
    by (intros g; unfold has_count; simpl; by rewrite list_lookup_middle).
  assert (Hread : forall g x,
            g (mkExt VEmpty VUndefined (QueuesOne q)) = x ->
            read_results (resolveQueue (Some q) (with_exts (alter g obj) st2)) fn
            = getResult (with_exts (alter g obj) st2) [obj]
            /\ exts (with_exts (alter g obj) st2) !! obj = Some x).
  { intros g x Hg. split.
    - unfold read_results.
      pose proof (resolveQueue_currentDeps (Some q) (with_exts (alter g obj) st2) fn) as Hd.
      assert (Hfn : continuations (with_exts (alter g obj) st2) !! fn
                    = Some (mkFn 1 [obj])) by (simpl; by apply list_lookup_middle).
      rewrite Hfn in Hd.
      destruct (continuations (resolveQueue (Some q) (with_exts (alter g obj) st2)) !! fn)
        as [c|]; [|done].
      injection Hd as ->.
      assert (Hx : forall ds, getResult (resolveQueue (Some q)
                                (with_exts (alter g obj) st2)) ds
                     = getResult (with_exts (alter g obj) st2) ds).
      { induction ds as [|d ds IH]; [done|]. cbn [getResult].
        by rewrite resolveQueue_exts, IH. }
      apply Hx.
    - simpl. rewrite list_lookup_alter_eq, list_lookup_middle by done. simpl. by rewrite Hg. }
  split; [done|]. split; [done|]. split; [done|].
  split; [|split; [|split; [|split; [|exact Hsync]]]]; cycle 3.
  { change (handleAsyncDependencies scope [VThenable p []] st)
      with (handleAsyncDependencies scope [VPromise p] st).
    by rewrite Hh, (register_thenable _ _ _ _ Hs Hin). }
  - intros res. unfold onFulfilled. split; [by rewrite (resolveQueue_last q fn)|].
    destruct (Hread (fun x => mkExt res (turbopackError x) (turbopackQueues x))
                _ eq_refl) as [-> Hx].
    cbn [getResult]. by rewrite Hx.
  - intros err Herr. unfold onRejected. split; [by rewrite (resolveQueue_last q fn)|].
    destruct (Hread (fun x => mkExt (turbopackExports x) err (turbopackQueues x))
                _ eq_refl) as [-> Hx].
    cbn [getResult]. rewrite Hx. simpl. by rewrite Herr.
  - intros err Herr. unfold onRejected. split; [by rewrite (resolveQueue_last q fn)|].
    destruct (Hread (fun x => mkExt (turbopackExports x) err (turbopackQueues x))
                _ eq_refl) as [-> Hx].
    cbn [getResult]. rewrite Hx. simpl. by rewrite Herr.
Qed.

(** ** [maybeWrapAsyncModulePromise] *)

(** X9.  The promise [maybeWrapAsyncModulePromise] derives from an async
    module's promise offers the same queues as the module, then and
    later, but its captured error is the one the module had when it was
    wrapped: when the module fails afterwards, [getResult] over the
    module's own promise throws the error, while [getResult] over the
    derived promise still returns the exports snapshot. *)
Theorem maybeWrapAsyncModulePromise_snapshot (scope : nat) (s : AsyncScope)
    (x : AsyncModuleExt) (newPromise : nat) (err : value) (st : Store) :
  scopes st !! scope = Some s ->
  exts st !! promise s = Some x ->
  truthy (turbopackError x) = false ->
  truthy err = true ->
  let wrapped := maybeWrapAsyncModulePromise (VAsyncModule (promise s)) newPromise st in
  let d := length (exts st) in
  let failed := asyncResult scope err wrapped.2 in
  wrapped.1 = VAsyncModule d
  /\ exts wrapped.2 !! d = Some x
  /\ offered wrapped.2 d = offered wrapped.2 (promise s)
  /\ offered failed d = offered failed (promise s)
  /\ turbopackError <$> exts failed !! promise s = Some err
  /\ turbopackError <$> exts failed !! d = Some (turbopackError x)
  /\ getResult failed [promise s] = Throw err
  /\ getResult failed [d] = Return [turbopackExports x].
Proof.
  intros Hs Hx Hok Herr wrapped d failed.
  assert (Hlt : (promise s < length (exts st))%nat) by (by apply lookup_lt_Some in Hx).
  assert (Hw : wrapped = (VAsyncModule d, with_exts (fun l => l ++ [x]) st)).
  { unfold wrapped, maybeWrapAsyncModulePromise. rewrite Hx. by destruct x. }
  assert (Hd : exts wrapped.2 !! d = Some x).
  { rewrite Hw. simpl. by apply list_lookup_middle. }
  assert (Hp : exts wrapped.2 !! promise s = Some x).
  { rewrite Hw. simpl. by apply lookup_app_l_Some. }
  assert (Hs' : scopes wrapped.2 !! scope = Some s) by (by rewrite Hw).
  assert (Hf : failed = settle_rawPromise scope (Rejected err)
                 (set_turbopackError (promise s) err (resolveQueue (queue s) wrapped.2)))
    by (by apply asyncResult_truthy).
  assert (Hfd : exts failed !! d = Some x).
  { rewrite Hf. simpl. rewrite resolveQueue_exts, list_lookup_alter_ne by lia. done. }
  assert (Hfp : exts failed !! promise s
                = Some (mkExt (turbopackExports x) err (turbopackQueues x))).
  { rewrite Hf. simpl. by rewrite resolveQueue_exts, list_lookup_alter_eq, Hp. }
  split; [by rewrite Hw|]. split; [done|]. split; [|split; [|split; [|split; [|split]]]].
  - unfold offered. by rewrite Hd, Hp.
  - unfold offered. by rewrite Hfd, Hfp.
  - by rewrite Hfp.
  - by rewrite Hfd.
  - rewrite (getResult_one _ _ _ Hfp). simpl. by rewrite Herr.
  - rewrite (getResult_one _ _ _ Hfd). by rewrite Hok.
Qed.

(** ** [asyncModule] whose body completes before it returns *)

(** The store [asyncModule] leaves when the body calls [asyncResult(err)]
    and returns. *)
Lemma asyncModule_sync_store module err st :
  asyncModule module (failing_body err) true st
  = (Return tt,
     mkModule (VAsyncModule (length (exts st))) (namespaceObject module)
       (reexportedObjects module),
     mkStore (queues st ++ [mkQueue false []]) (continuations st)
       (exts st ++ [mkExt (exports module) (if truthy err then err else VUndefined)
                          (QueuesOfModule (length (scopes st)))])
       (scopes st ++ [mkScope (Some (length (queues st))) [] (exports module)
                        (length (exts st))
                        (if truthy err then Rejected err
                         else Fulfilled (exports module))])
       (thens st) (called st)).
Proof.
  unfold asyncModule. rewrite asyncModule_enter_hasAwait. unfold failing_body.
  set (entered := mkStore _ _ _ _ _ _).
  assert (Hscope : scopes entered !! length (scopes st)
                   = Some (mkScope (Some (length (queues st))) [] (exports module)
                             (length (exts st)) Pending))
    by (by apply list_lookup_middle).
  assert (Hqueue : queues entered !! length (queues st) = Some (mkQueue true []))
    by (by apply list_lookup_middle).
  assert (Hres : resolveQueue (Some (length (queues st))) entered = entered)
    by (by apply (resolveQueue_resolved _ _ _ Hqueue)).
  assert (Hafter : asyncResult (length (scopes st)) err entered
    = mkStore (queues st ++ [mkQueue true []]) (continuations st)
       (exts st ++ [mkExt (exports module) (if truthy err then err else VUndefined)
                          (QueuesOfModule (length (scopes st)))])
       (scopes st ++ [mkScope (Some (length (queues st))) [] (exports module)
                        (length (exts st))
                        (if truthy err then Rejected err
                         else Fulfilled (exports module))])
       (thens st) (called st)).
  { destruct (truthy err) eqn:Herr.
    - rewrite (asyncResult_truthy _ _ _ _ Hscope Herr). cbn [queue promise].
      rewrite Hres. unfold entered, settle_rawPromise, set_turbopackError,
        with_scopes, with_exts. simpl. f_equal.
      + rewrite alter_app_r_alt by done. by rewrite Nat.sub_diag.
      + rewrite alter_app_r_alt by done. by rewrite Nat.sub_diag.
    - rewrite (asyncResult_falsy _ _ _ _ Hscope Herr). cbn [queue scope_exports].
      rewrite Hres. unfold entered, settle_rawPromise, with_scopes. simpl. f_equal.
      rewrite alter_app_r_alt by done. by rewrite Nat.sub_diag. }
  rewrite Hafter. f_equal. unfold asyncModule_leave. cbn [scopes].
  rewrite list_lookup_middle by done. cbn [queue].
  unfold set_resolved, with_queues. simpl. f_equal.
  rewrite alter_app_r_alt by done. by rewrite Nat.sub_diag.
Qed.

(** X10.  When a module with [hasAwait] calls [asyncResult] before its
    body returns, [resolveQueue] finds the self-queue still resolved and
    does nothing, and [asyncModule] then sets [queue.resolved = false]:
    the module's promise is settled, yet its self-queue is left
    unresolved, with nothing on it and no continuation called. *)
Theorem asyncModule_sync_completion (module : Module) (err : value) (st : Store) :
  let run := asyncModule module (failing_body err) true st in
  let scope := length (scopes st) in
  run.1.1 = Return tt
  /\ exports run.1.2 = VAsyncModule (length (exts st))
  /\ rawPromise <$> scopes run.2 !! scope
     = Some (if truthy err then Rejected err else Fulfilled (exports module))
  /\ self_queue_resolved run.2 scope = Some false
  /\ fns_of run.2 (length (queues st)) = []
  /\ called run.2 = called st
  /\ continuations run.2 = continuations st.
Proof.
  intros run scope. unfold run, scope. rewrite asyncModule_sync_store. cbn [fst snd].
  split; [done|]. split; [done|]. split; [|split; [|split; [|done]]].
  - simpl. by rewrite list_lookup_middle.
  - unfold self_queue_resolved. simpl. rewrite list_lookup_middle by done. simpl.
    by rewrite list_lookup_middle.
  - unfold fns_of. simpl. by rewrite list_lookup_middle.
Qed.

(** A dependency that offers exactly one queue, unresolved, not the
    caller's own and not seen yet: the call is deferred. *)
Lemma register_one_queue scope s e q st :
  scopes st !! scope = Some s ->
  offered st e = [q] ->
  Some q <> queue s -> q ∉ depQueues s ->
  unresolved st q = true ->
  (handleAsyncDependencies scope [VAsyncModule e] st).1
  = Deferred (length (continuations st)).
Proof.
  intros Hs Hoff Hq1 Hq2 Hu. unfold handleAsyncDependencies, register, wrapDeps, wrapDep.
  cbn beta iota zeta. rewrite register_queues_offered.
  set (fn := length (continuations st)).
  set (st2 := with_continuations _ st).
  assert (Hoff2 : concat (offered st2 <$> [e]) = [q]).
  { cbn [fmap list_fmap concat]. rewrite app_nil_r. exact Hoff. }
  rewrite Hoff2. cbn [foldl].
  rewrite (fnQueue_push scope fn st2 q s Hs Hq1 Hq2 Hu).
  unfold count_of. simpl. rewrite list_lookup_alter_eq, list_lookup_middle by done.
  done.
Qed.

(** X11.  After such a completion, a module that imports the settled
    module is made to wait: its call of [handleAsyncDependencies] returns
    the promise, its continuation sits on the unresolved self-queue, and
    the promise is settled, so only another call of [asyncResult] could
    resolve that queue. *)
Theorem asyncModule_sync_completion_blocks (module : Module) (err : value) (st : Store)
    (consumer : nat) (s : AsyncScope) :
  scopes st !! consumer = Some s ->
  scope_in_store st s ->
  let run := asyncModule module (failing_body err) true st in
  let waiting := handleAsyncDependencies consumer [exports run.1.2] run.2 in
  waiting.1 = Deferred (length (continuations st))
  /\ fns_of waiting.2 (length (queues st)) = [length (continuations st)]
  /\ called waiting.2 = called st.
Proof.
  intros Hs [Hself Hdeps] run waiting. unfold waiting, run.
  rewrite asyncModule_sync_store. cbn [fst snd exports].
  set (final := mkStore _ _ _ _ _ _).
  assert (Hs' : scopes final !! consumer = Some s) by (by apply lookup_app_l_Some).
  assert (Hoff : offered final (length (exts st)) = [length (queues st)]).
  { unfold offered, final. simpl. rewrite list_lookup_middle by done. simpl.
    by rewrite list_lookup_middle. }
  assert (Hq1 : Some (length (queues st)) <> queue s).
  { intros Heq. symmetry in Heq. apply Hself in Heq. lia. }
  assert (Hq2 : length (queues st) ∉ depQueues s).
  { intros Hin. apply Hdeps in Hin. lia. }
  assert (Hu : unresolved final (length (queues st)) = true).
  { unfold unresolved, final. simpl. by rewrite list_lookup_middle. }
  split; [exact (register_one_queue _ _ _ _ _ Hs' Hoff Hq1 Hq2 Hu)|].
  unfold handleAsyncDependencies, register, wrapDeps, wrapDep. cbn beta iota zeta.
  rewrite register_queues_offered.
  set (st2 := with_continuations _ final).
  assert (Hoff2 : concat (offered st2 <$> [length (exts st)]) = [length (queues st)]).
  { cbn [fmap list_fmap concat]. rewrite app_nil_r. exact Hoff. }
  rewrite Hoff2. cbn [foldl].
  rewrite (fnQueue_push consumer _ st2 _ s Hs' Hq1 Hq2 Hu).
  set (pushed := push_fn _ _ _).
  assert (Hfinal : (let '(ds, fn, st0) := ([length (exts st)], length (continuations final),
                                           pushed) in
                    if negb (Z.eqb (count_of st0 fn) 0) then (Deferred fn, st0)
                    else match getResult st0 ds with
                         | Return vs => (Results vs, st0)
                         | Throw e => (Thrown e, st0)
                         end).2 = pushed).
  { cbn beta iota zeta. destruct (negb (Z.eqb (count_of pushed (length (continuations final))) 0));
      [done|]. by destruct (getResult pushed [length (exts st)]). }
  rewrite Hfinal. unfold pushed, fns_of. simpl.
  rewrite list_lookup_alter_eq, list_lookup_middle by done. done.
Qed.

(** ** The counts stay balanced *)

Lemma queue_weight_nonneg f aq : 0 <= queue_weight f aq.
Proof. unfold queue_weight. destruct (resolved aq); [lia | apply occurrences_nonneg]. Qed.

Lemma pending_in_app l1 l2 f : pending_in (l1 ++ l2) f = pending_in l1 f + pending_in l2 f.
Proof. induction l1 as [|a l1 IH]; simpl; [done|]. rewrite IH. lia. Qed.

Lemma pending_in_nonneg l f : 0 <= pending_in l f.
Proof.
  induction l as [|a l IH]; simpl; [lia|]. pose proof (queue_weight_nonneg f a). lia.
Qed.

Lemma pending_in_alter (g : AsyncQueue -> AsyncQueue) l q aq f :
  l !! q = Some aq ->
  pending_in (alter g q l) f = pending_in l f - queue_weight f aq + queue_weight f (g aq).
Proof.
  revert q. induction l as [|a l IH]; intros q Hq; [done|].
  destruct q as [|q].
  - simpl in Hq. injection Hq as ->. simpl. lia.
  - change (alter g (S q) (a :: l)) with (a :: alter g q l). simpl.
    rewrite (IH q Hq). lia.
Qed.

Lemma pending_in_lookup_le l q aq f :
  l !! q = Some aq -> queue_weight f aq <= pending_in l f.
Proof.
  revert q. induction l as [|a l IH]; intros q Hq; [done|].
  destruct q as [|q]; simpl in *.
  - injection Hq as ->. pose proof (pending_in_nonneg l f). lia.
  - specialize (IH q Hq). pose proof (queue_weight_nonneg f a). lia.
Qed.

Lemma pending_in_absent l f :
  (forall q aq, l !! q = Some aq -> f ∉ fns aq) -> pending_in l f = 0.
Proof.
  induction l as [|a l IH]; intros H; [done|]. simpl.
  rewrite IH by (intros q aq Hq; by apply (H (S q))).
  unfold queue_weight. destruct (resolved a); [done|].
  rewrite occurrences_0; [done|]. by apply (H 0%nat).
Qed.

Lemma balanced_frame st st' :
  queues st' = queues st -> continuations st' = continuations st ->
  called st' = called st -> balanced st -> balanced st'.
Proof.
  intros Hq Hc Hcalled (B1 & B2 & B3 & B4).
  unfold balanced, pending, has_count. rewrite Hq, Hc, Hcalled. done.
Qed.

Lemma balanced_resolveQueue queue st : balanced st -> balanced (resolveQueue queue st).
Proof.
  intros HB. destruct queue as [q|]; [|done].
  destruct (queues st !! q) as [aq|] eqn:Hq; [|by unfold resolveQueue; rewrite Hq].
  destruct (resolved aq) eqn:Hres; [by rewrite (resolveQueue_resolved _ _ _ Hq Hres)|].
  destruct HB as (B1 & B2 & B3 & B4).
  destruct (resolveQueue_spec _ _ _ Hq Hres) as (new & -> & Hnd & Hsub & Hin).
  assert (Hpend : forall f,
            pending_in (alter (fun a => mkQueue true (fns a)) q (queues st)) f
            = pending st f - occurrences f (fns aq)).
  { intros f. rewrite (pending_in_alter _ _ _ _ _ Hq). unfold pending, queue_weight.
    simpl. rewrite Hres. lia. }
  assert (Hle : forall f, occurrences f (fns aq) <= pending st f).
  { intros f. pose proof (pending_in_lookup_le _ _ _ f Hq) as H.
    unfold queue_weight in H. by rewrite Hres in H. }
  assert (Hdisj : forall f, f ∈ called st -> f ∉ new).
  { intros f Hf Hnew. destruct (B2 f Hf) as [Hc Hp].
    apply Hin in Hnew as [Hfq Hocc]. unfold has_count in *.
    rewrite Hc in Hocc. injection Hocc as Hocc.
    pose proof (occurrences_nonneg f (fns aq)). lia. }
  unfold balanced, pending, has_count. simpl.
  split; [|split; [|split]].
  - intros f c' Hf Hnot. rewrite list_lookup_imap in Hf.
    destruct (continuations st !! f) as [c|] eqn:Hc; [|done]. simpl in Hf.
    injection Hf as <-. rewrite not_elem_of_app in Hnot. destruct Hnot as [Hn1 Hn2].
    rewrite (bool_decide_eq_false_2 _ Hn2), Hpend. simpl. rewrite (B1 f c Hc Hn1). lia.
  - intros f Hf. rewrite list_lookup_imap, Hpend. apply elem_of_app in Hf as [Hf|Hf].
    + destruct (B2 f Hf) as [Hc Hp]. unfold has_count in Hc.
      pose proof (Hle f). pose proof (occurrences_nonneg f (fns aq)).
      rewrite (bool_decide_eq_false_2 _ (Hdisj f Hf)).
      destruct (continuations st !! f) as [c|]; [|done]. simpl in *.
      injection Hc as Hc. split; [f_equal; lia | lia].
    + rewrite (bool_decide_eq_true_2 _ Hf).
      apply Hin in Hf as [Hfq Hocc]. unfold has_count in Hocc.
      destruct (continuations st !! f) as [c|] eqn:Hc; [|done]. simpl in *.
      injection Hocc as Hocc.
      assert (Hn : f ∉ called st).
      { intros Hcalled. destruct (B2 f Hcalled) as [Hc' _]. unfold has_count in Hc'.
        rewrite Hc in Hc'. simpl in Hc'. injection Hc' as Hc'.
        pose proof (occurrences_nonneg f (fns aq)). lia. }
      pose proof (B1 f c Hc Hn). split; [f_equal; lia | lia].
  - apply NoDup_app. split; [done|]. split; [exact Hdisj | done].
  - intros q' aq' f Hq' Hf. rewrite length_imap.
    destruct (decide (q = q')) as [<-|Hne].
    + rewrite list_lookup_alter_eq, Hq in Hq'. simpl in Hq'. injection Hq' as <-.
      by apply (B4 q aq).
    + rewrite list_lookup_alter_ne in Hq' by done. by apply (B4 q' aq').
Qed.

Lemma balanced_asyncResult scope err st : balanced st -> balanced (asyncResult scope err st).
Proof.
  intros HB. destruct (scopes st !! scope) as [s|] eqn:Hs;
    [|by unfold asyncResult; rewrite Hs].
  destruct (truthy err) eqn:Herr.
  - rewrite (asyncResult_truthy _ _ _ _ Hs Herr).
    by apply (balanced_frame (resolveQueue (queue s) st)); [| | |apply balanced_resolveQueue].
  - rewrite (asyncResult_falsy _ _ _ _ Hs Herr).
    by apply (balanced_frame (resolveQueue (queue s) st)); [| | |apply balanced_resolveQueue].
Qed.

(** X12.  Resolving a queue keeps the counts balanced, whichever way it
    is resolved: by [resolveQueue], by [asyncResult] with or without an
    error, or by the [then] callbacks [wrapDeps] attaches.  So, from a
    balanced store, no continuation is ever called twice, and one that
    has been called is on no unresolved queue. *)
Theorem resolving_keeps_balance (st : Store) :
  balanced st ->
  (forall queue, balanced (resolveQueue queue st))
  /\ (forall scope err, balanced (asyncResult scope err st))
  /\ (forall obj q res, balanced (onFulfilled obj q res st))
  /\ (forall obj q err, balanced (onRejected obj q err st)).
Proof.
  intros HB. split; [|split; [|split]].
  - intros queue. by apply balanced_resolveQueue.
  - intros scope err. by apply balanced_asyncResult.
  - intros obj q res. unfold onFulfilled. apply balanced_resolveQueue.
    by apply (balanced_frame st).
  - intros obj q err. unfold onRejected. apply balanced_resolveQueue.
    by apply (balanced_frame st).
Qed.

Lemma wrapDep_extends_any st dep : extends st (wrapDep dep st).2.
Proof.
  destruct dep; try apply (proj1 (wrap_thenable_extends _ _ _)); simpl;
    try (split; [exists []; by rewrite app_nil_r|];
         split; [by eexists|];
         split; [exists []; by rewrite app_nil_r|]; done).
  apply extends_refl.
Qed.

Lemma wrapDeps_extends_any deps st : extends st (wrapDeps deps st).2.
Proof.
  revert st. induction deps as [|dep deps IH]; intros st; simpl; [apply extends_refl|].
  pose proof (wrapDep_extends_any st dep) as He.
  destruct (wrapDep dep st) as [d sta]. simpl in He.
  specialize (IH sta). destruct (wrapDeps deps sta) as [ds st']. simpl in *.
  by apply (extends_trans _ sta).
Qed.

Lemma pending_in_fresh nq f :
  Forall (fun aq => fns aq = []) nq -> pending_in nq f = 0.
Proof.
  induction 1 as [|aq nq Haq _ IH]; simpl; [done|]. rewrite IH.
  unfold queue_weight. rewrite Haq, occurrences_nil. by destruct (resolved aq).
Qed.

Lemma balanced_extends st st' : extends st st' -> balanced st -> balanced st'.
Proof.
  intros ((nq & Hq & Hnq) & _ & _ & Hc & _ & Hcalled) (B1 & B2 & B3 & B4).
  assert (Hp : forall f, pending st' f = pending st f).
  { intros f. unfold pending. rewrite Hq, pending_in_app, (pending_in_fresh _ _ Hnq). lia. }
  unfold balanced, has_count. rewrite Hc, Hcalled.
  split; [|split; [|split; [done|]]].
  - intros f c Hf Hn. rewrite Hp. by apply B1.
  - intros f Hf. rewrite Hp. by apply B2.
  - intros q aq f Hqa Hf. rewrite Hq in Hqa.
    apply lookup_app_Some in Hqa as [Hqa|[_ Hqa]]; [by apply (B4 q aq)|].
    rewrite Forall_forall in Hnq.
    assert (Hfns : fns aq = []) by (apply Hnq, list_elem_of_lookup; eauto).
    rewrite Hfns in Hf. by apply elem_of_nil in Hf.
Qed.

(** A continuation created with [queueCount: 0] keeps the balance, and
    has not been called. *)
Lemma balanced_new_continuation ds st :
  balanced st ->
  balanced (with_continuations (fun l => l ++ [mkFn 0 ds]) st)
  /\ length (continuations st) ∉ called st.
Proof.
  intros (B1 & B2 & B3 & B4).
  assert (Hn : length (continuations st) ∉ called st).
  { intros Hin. destruct (B2 _ Hin) as [Hc _]. unfold has_count in Hc.
    rewrite (proj2 (lookup_ge_None _ _)) in Hc by lia. done. }
  split; [|done]. unfold balanced, pending, has_count. simpl.
  split; [|split; [|split; [done|]]].
  - intros f c Hf Hnot. apply lookup_app_Some in Hf as [Hf|[Hge Hf]]; [by apply B1|].
    destruct (f - length (continuations st))%nat eqn:E; [|done].
    simpl in Hf. injection Hf as <-. simpl. symmetry. apply pending_in_absent.
    intros q aq Hq Hin. pose proof (B4 q aq f Hq Hin). lia.
  - intros f Hf. destruct (B2 f Hf) as [Hc Hp]. split; [|done].
    unfold has_count in Hc. destruct (continuations st !! f) as [c|] eqn:E; [|done].
    by rewrite (lookup_app_l_Some _ _ _ _ E).
  - intros q aq f Hq Hf. rewrite length_app. pose proof (B4 q aq f Hq Hf). lia.
Qed.

Lemma balanced_fnQueue scope fn st q :
  balanced st -> fn ∉ called st -> is_Some (continuations st !! fn) ->
  balanced (fnQueue scope fn st q)
  /\ called (fnQueue scope fn st q) = called st
  /\ is_Some (continuations (fnQueue scope fn st q) !! fn).
Proof.
  intros HB Hfn Hstored.
  destruct (scopes st !! scope) as [s|] eqn:Hs; [|by rewrite (fnQueue_no_scope _ _ _ _ Hs)].
  destruct (decide (Some q = queue s \/ q ∈ depQueues s)) as [Hskip|Hnot];
    [by rewrite (fnQueue_skip _ _ _ _ _ Hs Hskip)|].
  assert (Hq1 : Some q <> queue s) by tauto.
  assert (Hq2 : q ∉ depQueues s) by tauto.
  destruct (unresolved st q) eqn:Hu.
  - rewrite (fnQueue_push _ _ _ _ _ Hs Hq1 Hq2 Hu).
    apply unresolved_true in Hu as (aq & Haq & Hres).
    destruct HB as (B1 & B2 & B3 & B4).
    assert (Hp : forall f,
              pending_in (alter (fun aq => mkQueue (resolved aq) (fns aq ++ [fn])) q
                            (queues st)) f
              = pending st f + if decide (fn = f) then 1 else 0).
    { intros f. rewrite (pending_in_alter _ _ _ _ _ Haq). unfold pending, queue_weight.
      simpl. rewrite Hres, occurrences_app, occurrences_cons, occurrences_nil. lia. }
    split; [|split; [done|]].
    + unfold balanced, pending, has_count. simpl.
      split; [|split; [|split; [done|]]].
      * intros f c' Hf Hnot'. rewrite Hp.
        destruct (decide (fn = f)) as [<-|Hne].
        -- rewrite list_lookup_alter_eq in Hf.
           destruct (continuations st !! fn) as [c|] eqn:Hc; [|done].
           simpl in Hf. injection Hf as <-. simpl. rewrite (B1 fn c Hc Hnot'). lia.
        -- rewrite list_lookup_alter_ne in Hf by done. rewrite (B1 f c' Hf Hnot'). lia.
      * intros f Hf. rewrite Hp. destruct (B2 f Hf) as [Hc Hpf].
        assert (Hne : fn <> f) by (by intros ->).
        rewrite decide_False by done. rewrite list_lookup_alter_ne by done.
        split; [done | lia].
      * intros q' aq' f Hq' Hf. rewrite length_alter.
        destruct (decide (q = q')) as [<-|Hne].
        -- rewrite list_lookup_alter_eq, Haq in Hq'. simpl in Hq'. injection Hq' as <-.
           simpl in Hf. apply elem_of_app in Hf as [Hf|Hf]; [by apply (B4 q aq)|].
           apply list_elem_of_singleton in Hf as ->. by apply lookup_lt_is_Some.
        -- rewrite list_lookup_alter_ne in Hq' by done. by apply (B4 q' aq').
    + simpl. rewrite list_lookup_alter_eq. destruct Hstored as [c ->]. by eexists.
  - rewrite (fnQueue_seen _ _ _ _ _ Hs Hq1 Hq2 Hu).
    split; [by apply (balanced_frame st)|]. by split.
Qed.

Lemma balanced_foldl_fnQueue scope fn qs st :
  balanced st -> fn ∉ called st -> is_Some (continuations st !! fn) ->
  balanced (foldl (fnQueue scope fn) st qs).
Proof.
  revert st. induction qs as [|q qs IH]; intros st HB Hfn Hstored; [done|].
  cbn [foldl]. destruct (balanced_fnQueue scope fn st q HB Hfn Hstored) as (HB' & Hc & Hs).
  apply IH; [done| |done]. by rewrite Hc.
Qed.

Lemma handleAsyncDependencies_store scope deps st :
  (handleAsyncDependencies scope deps st).2 = (register scope deps st).2.
Proof.
  unfold handleAsyncDependencies. destruct (register scope deps st) as [[ds fn] st'].
  simpl. destruct (negb (Z.eqb (count_of st' fn) 0)); [done|].
  by destruct (getResult st' ds).
Qed.

Lemma balanced_handleAsyncDependencies scope deps st :
  balanced st ->
  balanced (handleAsyncDependencies scope deps st).2
  /\ called (handleAsyncDependencies scope deps st).2 = called st.
Proof.
  intros HB. rewrite handleAsyncDependencies_store. unfold register.
  pose proof (wrapDeps_extends_any deps st) as He.
  destruct (wrapDeps deps st) as [ds st1]. simpl in He.
  pose proof (balanced_extends _ _ He HB) as HB1.
  destruct (balanced_new_continuation ds st1 HB1) as [HB2 Hfresh].
  cbn [snd]. rewrite register_queues_offered.
  set (st2 := with_continuations (fun l => l ++ [mkFn 0 ds]) st1) in *.
  assert (Hstored : is_Some (continuations st2 !! length (continuations st1))).
  { unfold st2. simpl. rewrite list_lookup_middle by done. by eexists. }
  split.
  - by apply balanced_foldl_fnQueue.
  - assert (Hcalled : forall qs st0, called (foldl (fnQueue scope
                        (length (continuations st1))) st0 qs) = called st0).
    { induction qs as [|q qs IH]; intros st0; [done|]. cbn [foldl]. rewrite IH.
      destruct (scopes st0 !! scope) as [s|] eqn:Hs;
        [|by rewrite (fnQueue_no_scope _ _ _ _ Hs)].
      destruct (foldl_fnQueue_spec scope (length (continuations st1)) [q] st0 s Hs)
        as (k & added & _ & _ & _ & _ & _ & _ & H7 & _).
      exact H7. }
    rewrite Hcalled. unfold st2. simpl. by destruct He as (_ & _ & _ & _ & _ & ->).
Qed.

(** X13.  [handleAsyncDependencies] keeps the counts balanced and calls
    no continuation: when it returns, the count of the new continuation
    is the number of unresolved queues it has been pushed on (zero when
    the call returns the array), and every other count still matches the
    queues. *)
Theorem handleAsyncDependencies_keeps_balance (scope : nat) (deps : list value)
    (st : Store) :
  balanced st ->
  balanced (handleAsyncDependencies scope deps st).2
  /\ called (handleAsyncDependencies scope deps st).2 = called st
  /\ (forall ds fn st', register scope deps st = (ds, fn, st') ->
        count_of st' fn = pending st' fn /\ 0 <= count_of st' fn).
Proof.
  intros HB. destruct (balanced_handleAsyncDependencies scope deps st HB) as [HB' Hc].
  split; [done|]. split; [done|].
  intros ds fn st' Hreg. rewrite handleAsyncDependencies_store, Hreg in HB', Hc.
  simpl in HB', Hc.
  destruct (register_continuation _ _ _ _ _ _ Hreg) as [k Hk].
  destruct HB' as (B1 & B2 & _).
  assert (Hfn : fn ∉ called st').
  { rewrite Hc. unfold register in Hreg.
    pose proof (wrapDeps_extends_any deps st) as He.
    destruct (wrapDeps deps st) as [ds0 st1]. simpl in He. injection Hreg as _ <- _.
    destruct (balanced_new_continuation ds0 st1 (balanced_extends _ _ He HB)) as [_ Hn].
    by destruct He as (_ & _ & _ & _ & _ & <-). }
  unfold count_of. rewrite Hk. simpl. pose proof (B1 fn _ Hk Hfn) as Hp. simpl in Hp.
  split; [done|]. rewrite Hp. apply pending_in_nonneg.
Qed.

(** ** A resolved queue is left alone *)

Lemma fnQueue_resolved_queue scope fn st q' q aq :
  queues st !! q = Some aq -> resolved aq = true ->
  queues (fnQueue scope fn st q') !! q = Some aq.
Proof.
  intros Hq Hres.
  destruct (scopes st !! scope) as [s|] eqn:Hs; [|by rewrite (fnQueue_no_scope _ _ _ _ Hs)].
  destruct (decide (Some q' = queue s \/ q' ∈ depQueues s)) as [Hskip|Hnot];
    [by rewrite (fnQueue_skip _ _ _ _ _ Hs Hskip)|].
  destruct (unresolved st q') eqn:Hu.
  - rewrite (fnQueue_push _ _ _ _ _ Hs) by tauto. simpl.
    rewrite list_lookup_alter_ne; [done|]. intros ->.
    apply unresolved_true in Hu as (aq' & Haq' & Hres'). congruence.
  - by rewrite (fnQueue_seen _ _ _ _ _ Hs) by tauto.
Qed.

Lemma foldl_fnQueue_resolved_queue scope fn qs st q aq :
  queues st !! q = Some aq -> resolved aq = true ->
  queues (foldl (fnQueue scope fn) st qs) !! q = Some aq.
Proof.
  revert st. induction qs as [|q' qs IH]; intros st Hq Hres; [done|].
  cbn [foldl]. apply IH; [|done]. by apply fnQueue_resolved_queue.
Qed.

Lemma resolved_queue_handle scope deps st q aq :
  queues st !! q = Some aq -> resolved aq = true ->
  queues (handleAsyncDependencies scope deps st).2 !! q = Some aq.
Proof.
  intros Hq Hres. rewrite handleAsyncDependencies_store. unfold register.
  pose proof (wrapDeps_extends_any deps st) as He.
  destruct (wrapDeps deps st) as [ds st1]. simpl in He. cbn [snd].
  rewrite register_queues_offered.
  assert (H1 : queues (with_continuations (fun l => l ++ [mkFn 0 ds]) st1) !! q = Some aq).
  { simpl. destruct He as ((nq & -> & _) & _). by apply lookup_app_l_Some. }
  by apply foldl_fnQueue_resolved_queue.
Qed.

Lemma resolved_queue_resolveQueue queue st q aq :
  queues st !! q = Some aq -> resolved aq = true ->
  queues (resolveQueue queue st) !! q = Some aq.
Proof.
  intros Hq Hres. destruct queue as [q'|]; [|done].
  destruct (queues st !! q') as [aq'|] eqn:Hq'; [|by unfold resolveQueue; rewrite Hq'].
  destruct (resolved aq') eqn:Hres'; [by rewrite (resolveQueue_resolved _ _ _ Hq' Hres')|].
  destruct (resolveQueue_spec _ _ _ Hq' Hres') as (new & -> & _). simpl.
  rewrite list_lookup_alter_ne; [done|]. intros ->. congruence.
Qed.

Lemma resolved_queue_asyncResult scope err st q aq :
  queues st !! q = Some aq -> resolved aq = true ->
  queues (asyncResult scope err st) !! q = Some aq.
Proof.
  intros Hq Hres. destruct (scopes st !! scope) as [s|] eqn:Hs;
    [|by unfold asyncResult; rewrite Hs].
  destruct (truthy err) eqn:Herr.
  - rewrite (asyncResult_truthy _ _ _ _ Hs Herr). simpl.
    by apply resolved_queue_resolveQueue.
  - rewrite (asyncResult_falsy _ _ _ _ Hs Herr). simpl.
    by apply resolved_queue_resolveQueue.
Qed.

(** X14.  Once a queue is resolved, nothing but [asyncModule]'s own
    [queue.resolved = false] touches it: [handleAsyncDependencies] never
    pushes a continuation on it, and [resolveQueue], [asyncResult] and
    the [then] callbacks leave its flag and its contents as they are. *)
Theorem resolved_queue_is_left_alone (q : nat) (aq : AsyncQueue) (st : Store) :
  queues st !! q = Some aq ->
  resolved aq = true ->
  (forall scope deps, queues (handleAsyncDependencies scope deps st).2 !! q = Some aq)
  /\ (forall queue, queues (resolveQueue queue st) !! q = Some aq)
  /\ (forall scope err, queues (asyncResult scope err st) !! q = Some aq)
  /\ (forall obj q' res, queues (onFulfilled obj q' res st) !! q = Some aq)
  /\ (forall obj q' err, queues (onRejected obj q' err st) !! q = Some aq).
Proof.
  intros Hq Hres. split; [|split; [|split; [|split]]].
  - intros scope deps. by apply resolved_queue_handle.
  - intros queue. by apply resolved_queue_resolveQueue.
  - intros scope err. by apply resolved_queue_asyncResult.
  - intros obj q' res. unfold onFulfilled. by apply resolved_queue_resolveQueue.
  - intros obj q' err. unfold onRejected. by apply resolved_queue_resolveQueue.
Qed.

(** ** [asyncModule] keeps the balance *)

Lemma balanced_add_empty_queue b st st' :
  queues st' = queues st ++ [mkQueue b []] ->
  continuations st' = continuations st -> called st' = called st ->
  balanced st -> balanced st'.
Proof.
  intros Hq Hc Hcalled (B1 & B2 & B3 & B4).
  assert (Hp : forall f, pending st' f = pending st f).
  { intros f. unfold pending. rewrite Hq, pending_in_app. simpl.
    unfold queue_weight. simpl. rewrite occurrences_nil. destruct b; lia. }
  unfold balanced, has_count. rewrite Hc, Hcalled.
  split; [|split; [|split; [done|]]].
  - intros f c Hf Hn. rewrite Hp. by apply B1.
  - intros f Hf. rewrite Hp. by apply B2.
  - intros q aq f Hqa Hf. rewrite Hq in Hqa.
    apply lookup_app_Some in Hqa as [Hqa|[_ Hqa]]; [by apply (B4 q aq)|].
    destruct (q - length (queues st))%nat; [|done]. simpl in Hqa. injection Hqa as <-.
    by apply elem_of_nil in Hf.
Qed.

Lemma balanced_enter module hasAwait st :
  balanced st -> balanced (asyncModule_enter module hasAwait st).2.
Proof.
  intros HB. destruct hasAwait.
  - rewrite asyncModule_enter_hasAwait. cbn [snd].
    by apply (balanced_add_empty_queue true st).
  - by apply (balanced_frame st).
Qed.

Lemma balanced_leave scope st :
  balanced st ->
  (forall s q, scopes st !! scope = Some s -> queue s = Some q -> fns_of st q = []) ->
  balanced (asyncModule_leave scope st).
Proof.
  intros HB Hempty. unfold asyncModule_leave.
  destruct (scopes st !! scope) as [s|] eqn:Hs; [|done].
  destruct (queue s) as [q|] eqn:Hq; [|done].
  specialize (Hempty s q eq_refl Hq). unfold fns_of in Hempty.
  destruct (queues st !! q) as [aq|] eqn:Haq.
  - simpl in Hempty. destruct HB as (B1 & B2 & B3 & B4).
    assert (Hp : forall f,
              pending_in (alter (fun aq => mkQueue false (fns aq)) q (queues st)) f
              = pending st f).
    { intros f. rewrite (pending_in_alter _ _ _ _ _ Haq). unfold pending, queue_weight.
      simpl. rewrite Hempty, occurrences_nil. destruct (resolved aq); lia. }
    unfold balanced, pending, has_count. simpl.
    split; [|split; [|split; [done|]]].
    + intros f c Hf Hn. rewrite Hp. by apply B1.
    + intros f Hf. rewrite Hp. by apply B2.
    + intros q' aq' f Hq' Hf. destruct (decide (q = q')) as [<-|Hne].
      * rewrite list_lookup_alter_eq, Haq in Hq'. simpl in Hq'. injection Hq' as <-.
        by apply (B4 q aq).
      * rewrite list_lookup_alter_ne in Hq' by done. by apply (B4 q' aq').
  - apply (balanced_frame st); try done. simpl.
    apply list_eq. intros i. destruct (decide (q = i)) as [<-|Hne].
    + by rewrite list_lookup_alter_eq, Haq.
    + by rewrite list_lookup_alter_ne.
Qed.

Lemma foldl_fnQueue_scope_queue scope fn qs st m :
  queue <$> scopes (foldl (fnQueue scope fn) st qs) !! m = queue <$> scopes st !! m.
Proof.
  destruct (scopes st !! scope) as [s|] eqn:Hs;
    [|by rewrite (foldl_fnQueue_no_scope _ _ _ _ Hs)].
  destruct (foldl_fnQueue_spec scope fn qs st s Hs)
    as (k & added & _ & _ & _ & -> & _).
  destruct (decide (scope = m)) as [<-|Hne].
  - rewrite list_lookup_alter_eq, Hs. done.
  - by rewrite list_lookup_alter_ne.
Qed.

Lemma scope_queue_handle scope deps st m :
  queue <$> scopes (handleAsyncDependencies scope deps st).2 !! m
  = queue <$> scopes st !! m.
Proof.
  rewrite handleAsyncDependencies_store. unfold register.
  pose proof (wrapDeps_extends_any deps st) as He.
  destruct (wrapDeps deps st) as [ds st1]. simpl in He. cbn [snd].
  rewrite register_queues_offered, foldl_fnQueue_scope_queue. simpl.
  by destruct He as (_ & _ & _ & _ & -> & _).
Qed.

Lemma scope_queue_asyncResult scope err st m :
  queue <$> scopes (asyncResult scope err st) !! m = queue <$> scopes st !! m.
Proof.
  destruct (scopes st !! scope) as [s|] eqn:Hs;
    [|by unfold asyncResult; rewrite Hs].
  assert (H : forall o st0, scopes st0 = scopes st ->
            queue <$> scopes (settle_rawPromise scope o st0) !! m
            = queue <$> scopes st !! m).
  { intros o st0 E. simpl. rewrite E. destruct (decide (scope = m)) as [<-|Hne].
    - by rewrite list_lookup_alter_eq, Hs.
    - by rewrite list_lookup_alter_ne. }
  destruct (truthy err) eqn:Herr.
  - rewrite (asyncResult_truthy _ _ _ _ Hs Herr). apply H. simpl.
    apply resolveQueue_scopes.
  - rewrite (asyncResult_falsy _ _ _ _ Hs Herr). apply H. apply resolveQueue_scopes.
Qed.

(** What a straight-line body keeps while it runs in the scope [scope]
    whose self-queue, if any, was created resolved and empty. *)
Lemma script_invariant scope script st qopt :
  balanced st ->
  queue <$> scopes st !! scope = Some qopt ->
  (forall q, qopt = Some q -> queues st !! q = Some (mkQueue true [])) ->
  let st' := foldl (script_step (handleAsyncDependencies scope) (asyncResult scope))
               st script in
  balanced st'
  /\ queue <$> scopes st' !! scope = Some qopt
  /\ (forall q, qopt = Some q -> queues st' !! q = Some (mkQueue true [])).
Proof.
  revert st. induction script as [|a script IH]; intros st HB Hs Hq; [done|].
  cbn [foldl]. apply IH; destruct a as [deps|err]; simpl.
  - by apply balanced_handleAsyncDependencies.
  - by apply balanced_asyncResult.
  - by rewrite scope_queue_handle.
  - by rewrite scope_queue_asyncResult.
  - intros q ->. by apply resolved_queue_handle; [apply Hq|].
  - intros q ->. by apply resolved_queue_asyncResult; [apply Hq|].
Qed.

(** X15.  A whole [asyncModule] call keeps the counts balanced, for a
    body that calls [handleAsyncDependencies] and [asyncResult] any
    number of times in any order before it returns: nothing is pushed on
    the self-queue while the body runs, so the closing
    [queue.resolved = false] re-opens an empty queue. *)
Theorem asyncModule_keeps_balance (module : Module)
    (script : list (list value + value)) (hasAwait : bool) (st : Store) :
  balanced st ->
  let run := asyncModule module (script_body script) hasAwait st in
  run.1.1 = Return tt
  /\ balanced run.2
  /\ called run.2
     = called (foldl (script_step (handleAsyncDependencies (length (scopes st)))
                        (asyncResult (length (scopes st))))
                 (asyncModule_enter module hasAwait st).2 script)
  /\ (hasAwait = true ->
        self_queue_resolved run.2 (length (scopes st)) = Some false
        /\ fns_of run.2 (length (queues st)) = []).
Proof.
  intros HB run.
  set (scope := length (scopes st)).
  set (qopt := if hasAwait then Some (length (queues st)) else None).
  assert (Henter : exists m, asyncModule_enter module hasAwait st
                             = (scope, m, (asyncModule_enter module hasAwait st).2))
    by (unfold scope; destruct hasAwait; by eexists).
  destruct Henter as [m Henter].
  set (entered := (asyncModule_enter module hasAwait st).2) in *.
  assert (Hs : queue <$> scopes entered !! scope = Some qopt).
  { unfold entered, qopt, asyncModule_enter. destruct hasAwait; simpl;
      by rewrite list_lookup_middle. }
  assert (Hq : forall q, qopt = Some q -> queues entered !! q = Some (mkQueue true [])).
  { unfold qopt, entered. intros q Hq. destruct hasAwait; [|done]. injection Hq as <-.
    simpl. by apply list_lookup_middle. }
  destruct (script_invariant scope script entered qopt
              (balanced_enter module hasAwait st HB) Hs Hq) as (HB' & Hs' & Hq').
  set (after := foldl _ entered script) in *.
  assert (Hrun : run = (Return tt, m, asyncModule_leave scope after)).
  { unfold run, asyncModule. rewrite Henter. by unfold script_body. }
  rewrite Hrun. cbn [fst snd]. split; [done|]. split; [|split].
  - apply balanced_leave; [done|]. intros s q Hsc Hqs. rewrite Hsc in Hs'. simpl in Hs'.
    injection Hs' as Hs'. unfold fns_of. rewrite (Hq' q) by congruence. done.
  - unfold asyncModule_leave. destruct (scopes after !! scope) as [s|]; [|done].
    by destruct (queue s).
  - intros ->. unfold qopt in *. specialize (Hq' _ eq_refl).
    unfold asyncModule_leave, self_queue_resolved, fns_of.
    destruct (scopes after !! scope) as [s|] eqn:Hsc; [|done].
    simpl in Hs'. injection Hs' as Hs'. rewrite Hs'. simpl. rewrite Hsc. simpl.
    rewrite Hs'. simpl. by rewrite list_lookup_alter_eq, Hq'.
Qed.

(** ** A continuation is called when its last queue resolves *)

Lemma pending_in_zero_iff l f :
  pending_in l f = 0 <-> forall q aq, l !! q = Some aq -> queue_weight f aq = 0.
Proof.
  induction l as [|a l IH]; simpl.
  - split; [intros _ q aq Hq; done | done].
  - pose proof (queue_weight_nonneg f a). pose proof (pending_in_nonneg l f). split.
    + intros Hsum q aq Hq. destruct q as [|q]; simpl in Hq.
      * injection Hq as <-. lia.
      * apply (proj1 IH ltac:(lia) q aq Hq).
    + intros Hall. rewrite (proj2 IH) by (intros q aq Hq; by apply (Hall (S q))).
      rewrite (Hall 0%nat a eq_refl). done.
Qed.

Lemma pending_in_only_here l q aq f :
  l !! q = Some aq ->
  pending_in l f = queue_weight f aq <->
  forall q' aq', q' <> q -> l !! q' = Some aq' -> queue_weight f aq' = 0.
Proof.
  revert q. induction l as [|a l IH]; intros q Hq; [done|].
  pose proof (queue_weight_nonneg f a). pose proof (pending_in_nonneg l f).
  destruct q as [|q]; simpl in Hq |- *.
  - injection Hq as <-. split.
    + intros Hsum q' aq' Hne Hq'. destruct q' as [|q']; [done|]. simpl in Hq'.
      apply (proj1 (pending_in_zero_iff l f) ltac:(lia) q' aq' Hq').
    + intros Hall. rewrite (proj2 (pending_in_zero_iff l f)); [lia|].
      intros q' aq' Hq'. by apply (Hall (S q')).
  - pose proof (pending_in_lookup_le _ _ _ f Hq). split.
    + intros Hsum q' aq' Hne Hq'. destruct q' as [|q']; simpl in Hq'.
      * injection Hq' as <-. lia.
      * apply (proj1 (IH q Hq) ltac:(lia) q' aq'); [congruence | done].
    + intros Hall. rewrite (Hall 0%nat a) by done.
      rewrite (proj2 (IH q Hq)); [lia|].
      intros q' aq' Hne Hq'. apply (Hall (S q')); [congruence | done].
Qed.

(** X16.  In a balanced store, a continuation that sits on an unresolved
    queue has not been called, and resolving that queue calls it exactly
    when no other unresolved queue holds it; until then it only loses
    this queue from its count. *)
Theorem continuation_called_with_last_queue (q : nat) (aq : AsyncQueue) (f : nat)
    (st : Store) :
  balanced st ->
  queues st !! q = Some aq ->
  resolved aq = false ->
  f ∈ fns aq ->
  (f ∉ called st)
  /\ (f ∈ called (resolveQueue (Some q) st) <->
      forall q' aq', q' <> q -> queues st !! q' = Some aq' -> resolved aq' = false ->
        f ∉ fns aq')
  /\ pending (resolveQueue (Some q) st) f = pending st f - occurrences f (fns aq).
Proof.
  intros (B1 & B2 & B3 & B4) Hq Hres Hf.
  pose proof (occurrences_pos f _ Hf) as Hpos.
  assert (Hw : queue_weight f aq = occurrences f (fns aq))
    by (unfold queue_weight; by rewrite Hres).
  assert (Hn : f ∉ called st).
  { intros Hin. destruct (B2 f Hin) as [_ Hp].
    pose proof (pending_in_lookup_le _ _ _ f Hq). unfold pending in Hp. lia. }
  destruct (lookup_lt_is_Some_2 _ _ (B4 q aq f Hq Hf)) as [c Hc].
  pose proof (B1 f c Hc Hn) as Hcount.
  destruct (resolveQueue_spec _ _ _ Hq Hres) as (new & -> & _ & _ & Hin).
  split; [done|]. split.
  - simpl. rewrite elem_of_app, Hin. unfold has_count. rewrite Hc. simpl.
    rewrite <- Hw, Hcount. unfold pending.
    split.
    + intros [Hcalled|[_ Heq]]; [done|]. injection Heq as Heq.
      intros q' aq' Hne Hq' Hres' Hin'.
      pose proof (proj1 (pending_in_only_here _ _ _ f Hq) Heq q' aq' Hne Hq') as H0.
      unfold queue_weight in H0. rewrite Hres' in H0.
      pose proof (occurrences_pos f _ Hin'). lia.
    + intros Hall. right. split; [done|]. f_equal.
      apply (pending_in_only_here _ _ _ f Hq). intros q' aq' Hne Hq'.
      unfold queue_weight. destruct (resolved aq') eqn:Hres'; [done|].
      apply occurrences_0. by apply (Hall q' aq').
  - unfold pending. simpl. rewrite (pending_in_alter _ _ _ _ _ Hq), Hw.
    unfold queue_weight. simpl. lia.
Qed.

(** ** Concrete runs of the properties above *)

Lemma balanced_empty_store : balanced empty_store.
Proof.
  split; [|split; [|split]].
  - intros f c Hf. done.
  - intros f Hf. by apply elem_of_nil in Hf.
  - constructor.
  - intros q aq f Hq. done.
Qed.

Lemma balanced_run_pending : balanced run_pending.
Proof.
  change run_pending
    with (asyncModule_leave 0 (asyncModule_enter fresh_module true empty_store).2).
  apply balanced_leave; [apply balanced_enter, balanced_empty_store|].
  intros s q Hs Hq. simpl in Hs. injection Hs as <-. simpl in Hq. by injection Hq as <-.
Qed.

Lemma balanced_run_consumer : balanced run_consumer.
Proof. apply balanced_enter, balanced_run_pending. Qed.

Lemma balanced_run_after_first : balanced run_after_first.
Proof. apply balanced_handleAsyncDependencies, balanced_run_consumer. Qed.

(** The name [toString] is not a key of the map and is found on its
    prototype: the call hands the inherited value on, and [resolve] calls
    its [id], which it does not have. *)
Lemma requireContext_keys_resolve_witness :
  ("toString" ∉ keys context_of_map tt)
  /\ truthy (inherited context_map "toString") = true
  /\ resolve context_of_map "toString" tt
     = (Throw (VError "TypeError: entry.id is not a function"), tt)
  /\ call context_of_map "toString" tt = (Return (VStr "loaded"), tt).
Proof.
  assert (Hk : "toString" ∉ keys context_of_map tt) by (by apply (bool_decide_unpack _)).
  split; [exact Hk|]. split; [reflexivity|].
  pose proof (requireContext_keys_resolve unit
                (fun _ _ registry => (Return (VStr "loaded"), registry))
                (fun _ registry =>
                   (Throw (VError "TypeError: entry.id is not a function"), registry))
                fresh_module context_map tt "toString") as H.
  cbv zeta in H. exact (proj1 (proj2 (proj2 H)) Hk eq_refl).
Defined.

(** The array index [1] is listed first, the name [a] after the own key;
    [__esModule] is not listed. *)
Lemma esm_enumerates_exports_witness :
  NoDup mixed_getters.*1
  /\ Object_keys (esm true primary_exports mixed_getters) = ["1"; "own"; "a"].
Proof.
  assert (Hnd : NoDup mixed_getters.*1) by (by apply (bool_decide_unpack _)).
  split; [exact Hnd|].
  pose proof (esm_enumerates_exports true primary_exports mixed_getters Hnd) as H.
  cbv zeta in H. rewrite (proj1 H). reflexivity.
Defined.

(** A CommonJS object with its own [default]: without
    [allowExportDefault] the namespace's [default] is the object itself. *)
Lemma interopEsm_default_witness :
  hasOwnProperty (mkObj [] None) (KString "default") = false
  /\ Reflect_get (interopEsm true is_object_prototype
                    (mkRaw (VObject 1) (Some cjs_exports)) (mkObj [] None) false)
       (KString "default") = VObject 1.
Proof.
  split; [reflexivity|].
  rewrite (interopEsm_default true is_object_prototype
             (mkRaw (VObject 1) (Some cjs_exports)) (mkObj [] None) false eq_refl).
  reflexivity.
Defined.

(** [foo] of the CommonJS object is read through the namespace. *)
Lemma interopEsm_names_witness :
  "foo" <> "default" /\ "foo" <> "__esModule"
  /\ hasOwnProperty (mkObj [] None) (KString "foo") = false
  /\ Reflect_get (interopEsm true is_object_prototype
                    (mkRaw (VObject 1) (Some cjs_exports)) (mkObj [] None) false)
       (KString "foo") = VNum 1.
Proof.
  assert (H1 : "foo" <> "default") by discriminate.
  assert (H2 : "foo" <> "__esModule") by discriminate.
  split; [exact H1|]. split; [exact H2|]. split; [reflexivity|].
  pose proof (interopEsm_names true is_object_prototype
                (mkRaw (VObject 1) (Some cjs_exports)) (mkObj [] None) false "foo"
                H1 H2 eq_refl) as H.
  cbn [raw_object] in H. rewrite (proj1 H); [reflexivity|].
  by apply (bool_decide_unpack _).
Defined.

(** Module 1 wraps the pending module 0, a number, and a thenable whose
    [then] fulfils with 5 while it runs. *)
Lemma wrapDeps_wrappers_witness :
  (forall e, VAsyncModule e ∈ [VAsyncModule 0; VNum 1; VThenable 7 [(true, VNum 5)]] ->
     (e < length (exts run_consumer))%nat)
  /\ Forall2
       (wrapper_of run_consumer
          (wrapDeps [VAsyncModule 0; VNum 1; VThenable 7 [(true, VNum 5)]]
             run_consumer).2)
       [VAsyncModule 0; VNum 1; VThenable 7 [(true, VNum 5)]] [0; 2; 3]%nat.
Proof.
  assert (Hv : forall e,
            VAsyncModule e ∈ [VAsyncModule 0; VNum 1; VThenable 7 [(true, VNum 5)]] ->
            (e < length (exts run_consumer))%nat).
  { intros e He. apply elem_of_cons in He as [He|He].
    - injection He as ->. simpl. lia.
    - apply elem_of_cons in He as [He|He]; [discriminate|].
      apply list_elem_of_singleton in He. discriminate. }
  split; [exact Hv|].
  exact (proj1 (proj2 (wrapDeps_wrappers
                         [VAsyncModule 0; VNum 1; VThenable 7 [(true, VNum 5)]]
                         run_consumer Hv))).
Defined.

(** Two plain values come back at once. *)
Lemma handleAsyncDependencies_plain_witness :
  Forall (fun dep => is_plain dep = true) [VNum 1; VStr "x"]
  /\ exists st',
       handleAsyncDependencies 1 [VNum 1; VStr "x"] run_consumer
       = (Results [VNum 1; VStr "x"], st')
       /\ queues st' = queues run_consumer.
Proof.
  assert (Hall : Forall (fun dep => is_plain dep = true) [VNum 1; VStr "x"])
    by (by repeat constructor).
  split; [exact Hall|].
  destruct (handleAsyncDependencies_plain 1 [VNum 1; VStr "x"] run_consumer Hall)
    as (st' & Hrun & Hq & _).
  by exists st'.
Defined.

(** Module 1 awaits the promise 0, which is then fulfilled with 5; had
    the thenable fulfilled with 5 inside [then], the call would have
    returned the array at once. *)
Lemma thenable_dependency_resumes_witness :
  scopes run_consumer !! 1%nat = Some (mkScope None [] VEmpty 1 Pending)
  /\ scope_in_store run_consumer (mkScope None [] VEmpty 1 Pending)
  /\ (handleAsyncDependencies 1 [VPromise 0] run_consumer).1 = Deferred 0
  /\ read_results
       (onFulfilled 2 1 (VNum 5)
          (handleAsyncDependencies 1 [VPromise 0] run_consumer).2) 0
     = Return [VNum 5]
  /\ (handleAsyncDependencies 1 [VThenable 0 [(true, VNum 5)]] run_consumer).1
     = Results [VNum 5].
Proof.
  assert (Hs : scope_in_store run_consumer (mkScope None [] VEmpty 1 Pending)).
  { split; intros q Hq; [discriminate | by apply elem_of_nil in Hq]. }
  split; [reflexivity|]. split; [exact Hs|].
  pose proof (thenable_dependency_resumes 1 (mkScope None [] VEmpty 1 Pending) 0
                run_consumer eq_refl Hs) as H.
  cbv zeta in H. split; [exact (proj1 H)|]. split.
  - exact (proj2 (proj1 (proj2 (proj2 (proj2 H))) (VNum 5))).
  - exact (proj1 (proj2 (proj2 (proj2 (proj2 (proj2 (proj2 (proj2 H))))))
                    [(true, VNum 5)] ltac:(discriminate))).
Defined.

(** The copy of the pending module 0 does not see its later failure. *)
Lemma maybeWrapAsyncModulePromise_snapshot_witness :
  scopes run_pending !! 0%nat = Some (mkScope (Some 0%nat) [] VEmpty 0 Pending)
  /\ exts run_pending !! 0%nat = Some (mkExt VEmpty VUndefined (QueuesOfModule 0))
  /\ truthy VUndefined = false
  /\ truthy (VError "late") = true
  /\ getResult
       (asyncResult 0 (VError "late")
          (maybeWrapAsyncModulePromise (VAsyncModule 0) 9 run_pending).2) [1%nat]
     = Return [VEmpty].
Proof.
  split; [reflexivity|]. split; [reflexivity|]. split; [reflexivity|].
  split; [reflexivity|].
  pose proof (maybeWrapAsyncModulePromise_snapshot 0
                (mkScope (Some 0%nat) [] VEmpty 0 Pending)
                (mkExt VEmpty VUndefined (QueuesOfModule 0)) 9 (VError "late")
                run_pending eq_refl eq_refl eq_refl eq_refl) as H.
  cbv zeta in H.
  exact (proj2 (proj2 (proj2 (proj2 (proj2 (proj2 (proj2 H))))))).
Defined.

(** Module 1 awaits a module that has completed in its body. *)
Lemma asyncModule_sync_completion_blocks_witness :
  scopes run_consumer !! 1%nat = Some (mkScope None [] VEmpty 1 Pending)
  /\ scope_in_store run_consumer (mkScope None [] VEmpty 1 Pending)
  /\ (handleAsyncDependencies 1
        [exports (asyncModule fresh_module (failing_body (VNum 0)) true
                    run_consumer).1.2]
        (asyncModule fresh_module (failing_body (VNum 0)) true run_consumer).2).1
     = Deferred 0.
Proof.
  assert (Hs : scope_in_store run_consumer (mkScope None [] VEmpty 1 Pending)).
  { split; intros q Hq; [discriminate | by apply elem_of_nil in Hq]. }
  split; [reflexivity|]. split; [exact Hs|].
  pose proof (asyncModule_sync_completion_blocks fresh_module (VNum 0) run_consumer 1
                (mkScope None [] VEmpty 1 Pending) eq_refl Hs) as H.
  cbv zeta in H. exact (proj1 H).
Defined.

(** Module 0 fails while module 1 waits for it. *)
Lemma resolving_keeps_balance_witness :
  balanced run_after_first
  /\ balanced (asyncResult 0 (VError "late") run_after_first).
Proof.
  split; [exact balanced_run_after_first|].
  exact (proj1 (proj2 (resolving_keeps_balance run_after_first balanced_run_after_first))
           0%nat (VError "late")).
Defined.

(** Module 1 registers on module 0 and on a promise. *)
Lemma handleAsyncDependencies_keeps_balance_witness :
  balanced run_consumer
  /\ balanced (handleAsyncDependencies 1 [VAsyncModule 0; VPromise 0] run_consumer).2.
Proof.
  split; [exact balanced_run_consumer|].
  exact (proj1 (handleAsyncDependencies_keeps_balance 1 [VAsyncModule 0; VPromise 0]
                  run_consumer balanced_run_consumer)).
Defined.

(** The self-queue of a module in its body is resolved and stays as it
    is when the module awaits a promise. *)
Lemma resolved_queue_is_left_alone_witness :
  queues (asyncModule_enter fresh_module true empty_store).2 !! 0%nat
  = Some (mkQueue true [])
  /\ resolved (mkQueue true []) = true
  /\ queues (handleAsyncDependencies 0 [VPromise 3]
               (asyncModule_enter fresh_module true empty_store).2).2 !! 0%nat
     = Some (mkQueue true []).
Proof.
  split; [reflexivity|]. split; [reflexivity|].
  exact (proj1 (resolved_queue_is_left_alone 0 (mkQueue true [])
                  (asyncModule_enter fresh_module true empty_store).2
                  eq_refl eq_refl) 0%nat [VPromise 3]).
Defined.

(** A module that awaits a promise and then completes. *)
Lemma asyncModule_keeps_balance_witness :
  balanced empty_store
  /\ balanced (asyncModule fresh_module
                 (script_body [inl [VPromise 0]; inr (VNum 0)]) true empty_store).2.
Proof.
  split; [exact balanced_empty_store|].
  pose proof (asyncModule_keeps_balance fresh_module [inl [VPromise 0]; inr (VNum 0)]
                true empty_store balanced_empty_store) as H.
  cbv zeta in H. exact (proj1 (proj2 H)).
Defined.

(** Module 1 waits for module 0 only: resolving queue 0 calls it. *)
Lemma continuation_called_with_last_queue_witness :
  balanced run_after_first
  /\ queues run_after_first !! 0%nat = Some (mkQueue false [0%nat])
  /\ resolved (mkQueue false [0%nat]) = false
  /\ 0%nat ∈ [0%nat]
  /\ pending (resolveQueue (Some 0%nat) run_after_first) 0
     = pending run_after_first 0 - occurrences 0%nat [0%nat].
Proof.
  assert (Hin : 0%nat ∈ fns (mkQueue false [0%nat])) by (by apply list_elem_of_here).
  split; [exact balanced_run_after_first|]. split; [reflexivity|].
  split; [reflexivity|]. split; [exact Hin|].
  exact (proj2 (proj2 (continuation_called_with_last_queue 0 (mkQueue false [0%nat]) 0
                         run_after_first balanced_run_after_first eq_refl eq_refl Hin))).
Defined.
